(** * git-time-machine: the [bloat] and [ci] commands
      (cli/commands/bloat.js, lib/output.js)

    A shallow embedding of the repository-bloat analysis: object
    enumeration ([getAllObjects]), directory measurements
    ([getGitDirSize], [getWorkingDirSize]), classification
    ([categorizeFile]), the advisory rules ([generateRecommendations])
    and the command handler ([bloatCommand]); of the CI checks
    ([scanLargeFiles], the duplicate detection of [scanDuplicateAuthors],
    [ciCommand]); and of the table printer ([printTable]).

    Modelling conventions.
    - A JavaScript string is a [string] of ASCII characters.  On ASCII
      texts the white space, the letter case and the lengths of the model
      are those of JavaScript.  They are not on other texts: JavaScript
      takes the no-break space and the other Unicode spaces as white
      space, lowers the case of letters outside ASCII, and counts UTF-16
      units.
    - A JavaScript number that holds an integer is a [Z], taken exactly
      (no rounding of integers beyond 2^53).  A quotient is the double
      nearest to it, held as an exact fraction; [NaN] and the infinities
      appear where the source can produce them ([parseInt], the division
      that yields the ratio) and are written out.
    - [execSync] is a call to the outside world: it returns the text the
      command printed or throws.  The world is a record of such answers.
    - [formatBytes], the spinner and the colours are left out: reports
      keep the values that are printed. *)

From Stdlib Require Import List Ascii String ZArith NArith Lia Bool Arith.
From Stdlib Require Import Sorting.Sorted Sorting.Permutation.
From Equations Require Import Equations.
Import ListNotations.

Open Scope string_scope.
Open Scope list_scope.

(* ===================================================================== *)
(** ** JavaScript string primitives used by the command                  *)
(* ===================================================================== *)

Module Js.

(** White space as [String.prototype.trim], [/\s/] and [parseInt] see it
    in an ASCII text: TAB, LF, VT, FF, CR and SPACE. *)
Definition isSpace (a : ascii) : bool :=
  let n := nat_of_ascii a in
  ((9 <=? n)%nat && (n <=? 13)%nat) || (n =? 32)%nat.

Definition isDigit (a : ascii) : bool :=
  let n := nat_of_ascii a in (48 <=? n)%nat && (n <=? 57)%nat.

Definition lowerChar (a : ascii) : ascii :=
  let n := nat_of_ascii a in
  if (65 <=? n)%nat && (n <=? 90)%nat then ascii_of_nat (n + 32) else a.

(** [s.toLowerCase()] on an ASCII text. *)
Fixpoint toLowerCase (s : string) : string :=
  match s with
  | EmptyString => EmptyString
  | String a t => String (lowerChar a) (toLowerCase t)
  end.

(** [hay.includes(needle)] on strings. *)
Fixpoint strIncludes (hay needle : string) : bool :=
  prefix needle hay ||
  match hay with
  | EmptyString => false
  | String _ t => strIncludes t needle
  end.

(** [arr.includes(x)] on an array of strings. *)
Definition arrayIncludes (arr : list string) (x : string) : bool :=
  existsb (String.eqb x) arr.

(** Puts a character in front of the first piece of a split. *)
Definition consHead (a : ascii) (pieces : list string) : list string :=
  match pieces with
  | [] => [String a EmptyString]
  | h :: r => String a h :: r
  end.

(** [s.split(c)] for a one-character separator [c]: never empty, the empty
    string gives one empty piece. *)
Fixpoint splitOn (c : ascii) (s : string) : list string :=
  match s with
  | EmptyString => [EmptyString]
  | String a t =>
      if Ascii.eqb a c then EmptyString :: splitOn c t
      else consHead a (splitOn c t)
  end.

(** [s.split(/\s+/)]: the separators are the maximal runs of white space. *)
Fixpoint splitWs (s : string) : list string :=
  match s with
  | EmptyString => [EmptyString]
  | String a t =>
      if isSpace a then
        match t with
        | String b _ => if isSpace b then splitWs t else EmptyString :: splitWs t
        | EmptyString => EmptyString :: splitWs t
        end
      else consHead a (splitWs t)
  end.

(** [arr.join(sep)] is [String.concat sep arr]. *)
Definition join (sep : string) (arr : list string) : string :=
  String.concat sep arr.

Fixpoint trimStart (s : string) : string :=
  match s with
  | EmptyString => EmptyString
  | String a t => if isSpace a then trimStart t else s
  end.

Fixpoint trimEnd (s : string) : string :=
  match s with
  | EmptyString => EmptyString
  | String a t =>
      match trimEnd t with
      | EmptyString => if isSpace a then EmptyString else String a EmptyString
      | t' => String a t'
      end
  end.

(** [s.trim()] *)
Definition trim (s : string) : string := trimEnd (trimStart s).

(** The value of the longest prefix of decimal digits, on top of [acc];
    the flag tells whether a digit was read. *)
Fixpoint digitsValue (acc : Z) (seen : bool) (s : string) : Z * bool :=
  match s with
  | EmptyString => (acc, seen)
  | String a t =>
      if isDigit a
      then digitsValue (acc * 10 + Z.of_nat (nat_of_ascii a - 48)) true t
      else (acc, seen)
  end.

(** A JavaScript number where the command can meet [NaN]: the result of
    [parseInt] and what is computed from it. *)
Inductive number : Type :=
| Num (z : Z)
| NaN.

(** [parseInt(s, 10)]: leading white space is skipped, a sign is read, then
    the longest run of digits; [NaN] when there is no digit. *)
Definition parseInt (s : string) : number :=
  let body := trimStart s in
  let neg :=
    match body with
    | String a _ => Ascii.eqb a "-"
    | EmptyString => false
    end in
  let rest :=
    match body with
    | String a t => if Ascii.eqb a "-" || Ascii.eqb a "+" then t else body
    | EmptyString => body
    end in
  match digitsValue 0 false rest with
  | (v, true) => Num (if neg then - v else v)
  | (_, false) => NaN
  end.

Definition isNaN (x : number) : bool :=
  match x with NaN => true | Num _ => false end.

(** [x * k] for an integer constant [k]. *)
Definition times (x : number) (k : Z) : number :=
  match x with Num z => Num (z * k) | NaN => NaN end.

(** [x > y] and [x >= y]: false as soon as one side is [NaN]. *)
Definition gt (x y : number) : bool :=
  match x, y with Num a, Num b => (b <? a)%Z | _, _ => false end.

Definition ge (x y : number) : bool :=
  match x, y with Num a, Num b => (b <=? a)%Z | _, _ => false end.

(** The decimal numeral of a natural number, as template strings and
    [toFixed] print it. *)
Fixpoint decimalFuel (fuel : nat) (n : N) : string :=
  match fuel with
  | O => EmptyString
  | S f =>
      (if (n <? 10)%N then EmptyString else decimalFuel f (n / 10)%N)
      ++ String (ascii_of_N (48 + n mod 10)%N) EmptyString
  end.

Definition decimal (n : N) : string :=
  decimalFuel (S (N.to_nat (N.size n))) n.

(** A JavaScript number that need not be an integer: a double, held as
    the exact fraction it is, an infinity or [NaN]. *)
Inductive quotient : Type :=
| Finite (num den : Z)
| PlusInfinity
| MinusInfinity
| NotANumber.

(** The double nearest to the quotient [a / b] of two natural numbers, the
    even mantissa on a tie: a mantissa of 53 bits times a power of two, as
    an exact fraction.  The operands are doubles themselves (integers
    below 2^53, or a double times a small integer), so the quotient is in
    the range of the normal doubles. *)
Definition nearestDouble (a b : N) : N * N :=
  if (a =? 0)%N then (0%N, 1%N)
  else
    let k0 := (Z.of_N (N.log2 a) - Z.of_N (N.log2 b))%Z in
    let k := if (b * 2 ^ Z.to_N k0 <=? a * 2 ^ Z.to_N (- k0))%N
             then k0 else (k0 - 1)%Z in
    let e := (k - 52)%Z in
    let num := (a * 2 ^ Z.to_N (- e))%N in
    let den := (b * 2 ^ Z.to_N e)%N in
    let m := (num / den)%N in
    let r := (num mod den)%N in
    let mantissa :=
      if (den <? 2 * r)%N || ((2 * r =? den)%N && N.odd m)
      then (m + 1)%N else m in
    ((mantissa * 2 ^ Z.to_N e)%N, (2 ^ Z.to_N (- e))%N).

(** The double nearest to [a / b], for [b] other than 0. *)
Definition double (a b : Z) : quotient :=
  let '(num, den) := nearestDouble (Z.abs_N a) (Z.abs_N b) in
  let negative := orb ((a <? 0)%Z && (0 <? b)%Z) ((0 <? a)%Z && (b <? 0)%Z) in
  Finite (if negative then - Z.of_N num else Z.of_N num) (Z.of_N den).

(** [x / y]: the double nearest to the quotient; a zero divisor gives an
    infinity, or [NaN] for [0 / 0]. *)
Definition divide (x y : number) : quotient :=
  match x, y with
  | Num a, Num b =>
      if (b =? 0)%Z then
        (if (0 <? a)%Z then PlusInfinity
         else if (a <? 0)%Z then MinusInfinity
         else NotANumber)
      else double a b
  | _, _ => NotANumber
  end.

(** [q * k] for an integer constant [k] other than 0: the double nearest
    to the product. *)
Definition scaleBy (q : quotient) (k : Z) : quotient :=
  match q with
  | Finite a b => double (a * k) b
  | other => other
  end.

(** [fraction digits] of [n]: the numeral padded with zeros on the left. *)
Fixpoint padded (digits : nat) (n : N) : string :=
  match digits with
  | O => EmptyString
  | S d => padded d (n / 10)%N ++ String (ascii_of_N (48 + n mod 10)%N) EmptyString
  end.

(** [q.toFixed(f)]: the multiple of [10^-f] nearest to the double, the
    larger one on a tie, printed with [f] fraction digits. *)
Definition toFixed (f : nat) (q : quotient) : string :=
  match q with
  | PlusInfinity => "Infinity"
  | MinusInfinity => "-Infinity"
  | NotANumber => "NaN"
  | Finite a b =>
      let scale := (10 ^ N.of_nat f)%N in
      let n := ((2 * Z.abs_N a * scale + Z.abs_N b) / (2 * Z.abs_N b))%N in
      let negative := orb ((a <? 0)%Z && (0 <? b)%Z) ((0 <? a)%Z && (b <? 0)%Z) in
      (if negative then "-" else "")
      ++ decimal (n / scale)%N
      ++ (match f with O => "" | S _ => "." ++ padded f (n mod scale)%N end)
  end.

(** [arr.sort(cmp)].  ECMAScript requires the sort to be stable; for a
    comparator that orders the elements its result is then determined, and
    it is the one this insertion sort computes: [x] stays in front of the
    elements behind it that do not compare smaller. *)
Fixpoint insertBy {A} (cmp : A -> A -> Z) (x : A) (l : list A) : list A :=
  match l with
  | [] => [x]
  | y :: r => if (cmp x y <=? 0)%Z then x :: l else y :: insertBy cmp x r
  end.

Definition sort {A} (cmp : A -> A -> Z) (arr : list A) : list A :=
  fold_right (insertBy cmp) [] arr.

(** [arr.slice(start, end)]: a negative index counts from the end, and
    both indices are clamped to the array. *)
Definition clampIndex (len : nat) (k : Z) : nat :=
  if (k <? 0)%Z then Z.to_nat (Z.max (Z.of_nat len + k) 0)
  else Nat.min (Z.to_nat k) len.

Definition slice {A} (arr : list A) (start stop : Z) : list A :=
  let k := clampIndex (List.length arr) start in
  let final := clampIndex (List.length arr) stop in
  firstn (final - k) (skipn k arr).

(** [arr.slice(0, end)] where [end] is a number: [NaN] counts as 0. *)
Definition sliceTo {A} (arr : list A) (stop : number) : list A :=
  match stop with
  | Num e => slice arr 0 e
  | NaN => slice arr 0 0
  end.

(** [s.slice(-k)] on a string: its last [k] characters. *)
Definition lastChars (k : nat) (s : string) : string :=
  substring (String.length s - k) k s.

(** [x || d] for a string that may be undefined: the empty string is falsy. *)
Definition orElse (x : option string) (d : string) : string :=
  match x with
  | Some s => if String.eqb s "" then d else s
  | None => d
  end.

(** The line feed, and the separator made of it. *)
Definition LF : ascii := "010"%char.
Definition TAB : ascii := "009"%char.
Definition NL : string := String LF EmptyString.

(** A [Map] with string keys keeps its entries in the order the keys were
    first set; [set] on a present key replaces the value in place. *)
Module Map.
Section Ops.
Context {V : Type}.

Fixpoint set (k : string) (v : V) (m : list (string * V)) : list (string * V) :=
  match m with
  | [] => [(k, v)]
  | (k', v') :: r =>
      if String.eqb k' k then (k, v) :: r else (k', v') :: set k v r
  end.

Fixpoint get (k : string) (m : list (string * V)) : option V :=
  match m with
  | [] => None
  | (k', v') :: r => if String.eqb k' k then Some v' else get k r
  end.

Definition keys (m : list (string * V)) : list string := map fst m.

Definition values (m : list (string * V)) : list V := map snd m.

End Ops.
End Map.

(** What [execSync] does: the text of standard output, or an exception
    with its message. *)
Inductive exec : Type :=
| Ok (stdout : string)
| Throws (message : string).

End Js.

Import Js.

(* ===================================================================== *)
(** ** Classification: [categorizeFile]                                   *)
(* ===================================================================== *)

(** The [categories] object, in the order [Object.entries] walks it. *)
Definition categories : list (string * list string) :=
  [ ("binary",      ["exe"; "dll"; "so"; "dylib"; "bin"; "obj"; "o"; "a"]);
    ("archive",     ["zip"; "tar"; "gz"; "bz2"; "xz"; "7z"; "rar"; "tgz"]);
    ("image",       ["jpg"; "jpeg"; "png"; "gif"; "bmp"; "tiff"; "psd"; "svg"; "webp"; "ico"]);
    ("video",       ["mp4"; "avi"; "mov"; "wmv"; "flv"; "webm"; "mkv"]);
    ("audio",       ["mp3"; "wav"; "ogg"; "flac"; "aac"; "m4a"]);
    ("data",        ["db"; "sqlite"; "sql"; "csv"; "json"; "xml"; "parquet"]);
    ("document",    ["pdf"; "doc"; "docx"; "xls"; "xlsx"; "ppt"; "pptx"]);
    ("package",     ["jar"; "war"; "ear"; "whl"; "gem"; "nupkg"]);
    ("nodemodules", ["node_modules"]);
    ("log",         ["log"]) ].

(** [path.split('.').pop()?.toLowerCase() || ''] *)
Definition extOf (path : string) : string :=
  toLowerCase (last (splitOn "." path) EmptyString).

(** The [for (const [category, exts] of Object.entries(categories))] loop
    with its final [return 'other']. *)
Fixpoint firstMatch (ext path : string) (cats : list (string * list string))
  : string :=
  match cats with
  | [] => "other"
  | (category, exts) :: rest =>
      if arrayIncludes exts ext || strIncludes path category
      then category
      else firstMatch ext path rest
  end.

Definition categorizeFile (path : string) : string :=
  firstMatch (extOf path) path categories.

(** The closed enumeration of categories. *)
Definition categoryNames : list string := map fst categories ++ ["other"].

(* ===================================================================== *)
(** ** The outside world                                                  *)
(* ===================================================================== *)

(** Every answer the command obtains from the file system and from git. *)
Record World : Type := {
  (** [resolve(path)] *)
  repoPath : string;
  (** [existsSync(join(resolve(path), '.git'))] *)
  isGitRepo : bool;
  (** [git rev-list --objects --all] when the flag is set, [... HEAD] else *)
  revList : bool -> exec;
  (** [git cat-file --batch-check="%(objectsize) %(objectname)"] on the
      given standard input *)
  catFile : string -> exec;
  (** [du -sk .git] *)
  duGit : exec;
  (** the [find ... | xargs stat | awk] pipeline that sums the file sizes *)
  findSizes : exec
}.

(* ===================================================================== *)
(** ** Enumeration and size resolution: [getAllObjects]                   *)
(* ===================================================================== *)

(** An element of [objects]. *)
Record GitObject : Type := {
  hash : string;
  path : string;
  size : Z
}.

(** The body of [for (const line of lines)]. *)
Definition recordLine (hashToPath : list (string * string)) (line : string)
  : list (string * string) :=
  let parts := splitWs line in
  if (2 <=? List.length parts)%nat then
    Map.set (hd EmptyString parts)
            (join " " (slice parts 1 (Z.of_nat (List.length parts))))
            hashToPath
  else if (List.length parts =? 1)%nat then
    Map.set (hd EmptyString parts) EmptyString hashToPath
  else hashToPath.

(** [hashToPath] after the loop over [output.trim().split('\n')]. *)
Definition readListing (output : string) : list (string * string) :=
  fold_left recordLine (splitOn LF (trim output)) [].

(** [hashToPath.get(hash) || '(unknown)'] *)
Definition pathOf (hashToPath : list (string * string)) (h : string) : string :=
  orElse (Map.get h hashToPath) "(unknown)".

(** The body of [for (const line of sizeOutput.trim().split('\n'))]:
    [objects] after the conditional [push]. *)
Definition readSizeLine (hashToPath : list (string * string))
  (objects : list GitObject) (line : string) : list GitObject :=
  let parts := splitOn " " line in
  let size := hd EmptyString parts in
  let hash := nth_error parts 1 in
  match parseInt size, hash with
  | Num sizeNum, Some h =>
      if String.eqb h EmptyString then objects
      else objects ++ [ {| hash := h; path := pathOf hashToPath h; size := sizeNum |} ]
  | _, _ => objects
  end.

(** One turn of the batch loop: the [try] block, and the empty [catch]. *)
Definition resolveBatch (w : World) (hashToPath : list (string * string))
  (batch : list string) (objects : list GitObject) : list GitObject :=
  let input := join NL batch in
  match catFile w input with
  | Ok sizeOutput =>
      fold_left (readSizeLine hashToPath) (splitOn LF (trim sizeOutput)) objects
  | Throws _ => objects
  end.

(** [for (let i = 0; i < hashes.length; i += batchSize)], entered at [i]. *)
Equations? batchLoop (w : World) (hashToPath : list (string * string))
  (batchSize : positive) (hashes : list string) (i : nat)
  (objects : list GitObject) : list GitObject
  by wf (List.length hashes - i) lt :=
batchLoop w hashToPath batchSize hashes i objects
  with lt_dec i (List.length hashes) => {
  | left _ =>
      batchLoop w hashToPath batchSize hashes (i + Pos.to_nat batchSize)
        (resolveBatch w hashToPath
           (slice hashes (Z.of_nat i) (Z.of_nat (i + Pos.to_nat batchSize)))
           objects)
  | right _ => objects }.
Proof. lia. Qed.

(** What a function returns, or the [Error] it throws. *)
Inductive outcome (A : Type) : Type :=
| Returns (a : A)
| Raises (message : string).
Arguments Returns {A} a.
Arguments Raises {A} message.

(** The comparator [(a, b) => b.size - a.size]. *)
Definition bySizeDesc (a b : GitObject) : Z := size b - size a.

(** [getAllObjects], with the constant [batchSize] as a parameter. *)
Definition getAllObjectsWith (batchSize : positive) (w : World)
  (includeDeleted : bool) : outcome (list GitObject) :=
  match revList w includeDeleted with
  | Throws message => Raises ("Failed to get objects: " ++ message)
  | Ok output =>
      let hashToPath := readListing output in
      let hashes := Map.keys hashToPath in
      Returns (sort bySizeDesc (batchLoop w hashToPath batchSize hashes 0 []))
  end.

(** [const batchSize = 500] *)
Definition batchSize : positive := 500.

Definition getAllObjects (w : World) (includeDeleted : bool)
  : outcome (list GitObject) :=
  getAllObjectsWith batchSize w includeDeleted.

(* ===================================================================== *)
(** ** Directory measurements                                             *)
(* ===================================================================== *)

(** [getGitDirSize] *)
Definition getGitDirSize (w : World) : number :=
  match duGit w with
  | Ok output => times (parseInt (hd EmptyString (splitOn TAB output))) 1024
  | Throws _ => Num 0
  end.

(** [getWorkingDirSize] *)
Definition getWorkingDirSize (w : World) : number :=
  match findSizes w with
  | Ok output =>
      parseInt (if String.eqb (trim output) "" then "0" else trim output)
  | Throws _ => Num 0
  end.

(* ===================================================================== *)
(** ** Advisory rules: [generateRecommendations]                          *)
(* ===================================================================== *)

Definition MB : Z := 1024 * 1024.

Definition adviceNodeModules : string :=
  "⚠️  node_modules in history — use git-filter-repo to remove".
Definition adviceVendor : string :=
  "⚠️  vendor/ directory in history — consider removing".
Definition adviceLargeMedia : string :=
  "⚠️  Large media files detected — consider Git LFS".
Definition advicePackages : string :=
  "⚠️  Package files in history — use artifact storage instead".
Definition adviceStoreBloat : string :=
  "⚠️  .git directory is 3x larger than working directory".
Definition adviceRunGc : string :=
  "   Run: git gc --aggressive --prune=now".
Definition adviceManyLarge (count : nat) : string :=
  "💡 " ++ decimal (N.of_nat count)
  ++ " objects over 10MB — consider git-filter-repo cleanup".
Definition adviceHealthy : string :=
  "✅ Repository looks healthy!".

(** [if (cond) recommendations.push(...items)] *)
Definition pushIf (cond : bool) (items : list string)
  (recommendations : list string) : list string :=
  if cond then recommendations ++ items else recommendations.

Definition generateRecommendations (objects : list GitObject)
  (gitDirSize workingDirSize : number) : list string :=
  let largeObjects := filter (fun o => (10 * MB <? size o)%Z) objects in
  let hasNodeModules :=
    existsb (fun o => strIncludes (path o) "node_modules") objects in
  let hasVendor :=
    existsb (fun o => strIncludes (path o) "vendor/") objects in
  let hasLargeMedia :=
    existsb (fun o => (5 * MB <? size o)%Z &&
                      arrayIncludes ["image"; "video"; "audio"]
                                    (categorizeFile (path o))) objects in
  let hasPackages :=
    existsb (fun o => (MB <? size o)%Z &&
                      arrayIncludes ["package"; "archive"]
                                    (categorizeFile (path o))) objects in
  let r0 := [] in
  let r1 := pushIf hasNodeModules [adviceNodeModules] r0 in
  let r2 := pushIf hasVendor [adviceVendor] r1 in
  let r3 := pushIf hasLargeMedia [adviceLargeMedia] r2 in
  let r4 := pushIf hasPackages [advicePackages] r3 in
  let r5 := pushIf (gt gitDirSize (times workingDirSize 3))
                   [adviceStoreBloat; adviceRunGc] r4 in
  let r6 := pushIf (10 <? List.length largeObjects)%nat
                   [adviceManyLarge (List.length largeObjects)] r5 in
  pushIf (List.length r6 =? 0)%nat [adviceHealthy] r6.

(* ===================================================================== *)
(** ** The command handler: [bloatCommand]                                *)
(* ===================================================================== *)

(** The fields of [options] the handler reads. *)
Record Options : Type := {
  includeDeleted : option bool;
  limit : option string;
  minSize : option string;
  output : option string
}.

(** The [stats] object of the JSON report. *)
Record Stats : Type := {
  gitDirSize : number;
  workingDirSize : number;
  totalObjectSize : Z;
  objectCount : nat;
  largeObjectCount : nat;
  ratio : string
}.

(** [{ ...o, category: categorizeFile(o.path) }] *)
Record LargeFile : Type := {
  object : GitObject;
  category : string
}.

Record JsonReport : Type := {
  stats : Stats;
  largestFiles : list LargeFile;
  recommendations : list string
}.

(** What the text report shows; sizes are kept in bytes (the rendering by
    [formatBytes] and [printTable] is left out). *)
Record TextReport : Type := {
  summaryGitDir : number;
  summaryWorkingDir : number;
  summaryRatio : string;
  summaryTotalObjects : nat;
  summaryOverMinSize : nat;
  (** the rows of 'Largest Files': path as shown, size, category *)
  largestRows : list (string * Z * string);
  (** the count in '...and N more large files', when it is printed *)
  moreLargeFiles : option Z;
  (** the [categories] map *)
  categoryTotals : list (string * Z);
  (** the rows of 'Size by Category': category, size, share *)
  categoryRows : list (string * Z * string);
  advice : list string
}.

(** How a run of the command ends. *)
Inductive Run : Type :=
| Exit1 (error : string)
| PrintedJson (report : JsonReport)
| PrintedText (report : TextReport).

(** [objects.reduce((sum, o) => sum + o.size, 0)] *)
Definition sumSizes (objects : list GitObject) : Z :=
  fold_left (fun sum o => sum + size o)%Z objects 0%Z.

(** The loop that fills the [categories] map. *)
Definition addToCategory (categories : list (string * Z)) (obj : GitObject)
  : list (string * Z) :=
  let cat := categorizeFile (path obj) in
  Map.set cat
    ((match Map.get cat categories with Some total => total | None => 0 end)
     + size obj)%Z
    categories.

Definition categorize (objects : list GitObject) : list (string * Z) :=
  fold_left addToCategory objects [].

(** [o.path.length > 50 ? '...' + o.path.slice(-47) : o.path] *)
Definition shownPath (p : string) : string :=
  if (50 <? String.length p)%nat then "..." ++ lastChars 47 p else p.

Definition bloatCommand (w : World) (options : Options) : Run :=
  if negb (isGitRepo w) then Exit1 ("Not a git repository: " ++ repoPath w)
  else
    let includeDeleted :=
      match includeDeleted options with Some b => b | None => false end in
    let limit := parseInt (orElse (limit options) "20") in
    let minSize := parseInt (orElse (minSize options) "1048576") in
    match getAllObjects w includeDeleted with
    | Raises message => Exit1 ("Failed to analyze repository: " ++ message)
    | Returns objects =>
        let filteredObjects := filter (fun o => ge (Num (size o)) minSize) objects in
        let gitDirSize := getGitDirSize w in
        let workingDirSize := getWorkingDirSize w in
        let totalObjectSize := sumSizes objects in
        let recommendations :=
          generateRecommendations objects gitDirSize workingDirSize in
        if (match output options with
            | Some o => String.eqb o "json" | None => false end)
        then
          PrintedJson
            {| stats :=
                 {| gitDirSize := gitDirSize;
                    workingDirSize := workingDirSize;
                    totalObjectSize := totalObjectSize;
                    objectCount := List.length objects;
                    largeObjectCount := List.length filteredObjects;
                    ratio := toFixed 2 (divide gitDirSize workingDirSize) |};
               largestFiles :=
                 map (fun o => {| object := o; category := categorizeFile (path o) |})
                     (sliceTo filteredObjects limit);
               recommendations := recommendations |}
        else
          let categories := categorize objects in
          let sortedCategories :=
            filter (fun e => (MB <? snd e)%Z)
                   (sort (fun a b => snd b - snd a)%Z categories) in
          PrintedText
            {| summaryGitDir := gitDirSize;
               summaryWorkingDir := workingDirSize;
               summaryRatio := toFixed 1 (divide gitDirSize workingDirSize) ++ "x";
               summaryTotalObjects := List.length objects;
               summaryOverMinSize := List.length filteredObjects;
               largestRows :=
                 if (0 <? List.length filteredObjects)%nat then
                   map (fun o => (shownPath (path o), size o, categorizeFile (path o)))
                       (sliceTo filteredObjects limit)
                 else [];
               moreLargeFiles :=
                 match limit with
                 | Num l =>
                     if (0 <? List.length filteredObjects)%nat
                        && (l <? Z.of_nat (List.length filteredObjects))%Z
                     then Some (Z.of_nat (List.length filteredObjects) - l)%Z
                     else None
                 | NaN => None
                 end;
               categoryTotals := categories;
               categoryRows :=
                 map (fun e =>
                        (fst e, snd e,
                         (toFixed 1 (scaleBy (divide (Num (snd e)) (Num totalObjectSize)) 100)
                          ++ "%")%string))
                     sortedCategories;
               advice := recommendations |}
    end.

(* ===================================================================== *)
(** ** The object store behind [git cat-file --batch-check]               *)
(* ===================================================================== *)

(** The resolver is a command of git, not code of this repository.  The
    statements about the size resolver are made over git's documented
    behaviour: each line of standard input is answered with one line, the
    size and the name of the object when the name resolves, the name
    followed by [missing] otherwise.  The object store is a partial map
    from names to sizes; no object has the empty name. *)
Definition objectSize (store : string -> option N) (name : string) : option N :=
  if String.eqb name "" then None else store name.

Definition objectLine (store : string -> option N) (name : string) : string :=
  match objectSize store name with
  | Some n => decimal n ++ " " ++ name
  | None => name ++ " missing"
  end.

(** The lines git reads: a final line feed ends the last line. *)
Definition stdinLines (input : string) : list string :=
  let pieces := splitOn LF input in
  if String.eqb (last pieces "") "" then removelast pieces else pieces.

Definition batchCheck (store : string -> option N) (input : string) : string :=
  String.concat ""
    (map (fun name => (objectLine store name ++ NL)%string) (stdinLines input)).

(** A run of the resolver command: it may fail as a whole on an input,
    with the message [failure] gives. *)
Definition gitCatFile (store : string -> option N)
  (failure : string -> option string) (input : string) : exec :=
  match failure input with
  | Some message => Throws message
  | None => Ok (batchCheck store input)
  end.

(** No run of the resolver fails. *)
Definition noFailure (input : string) : option string := None.

(* ===================================================================== *)
(** ** The CI scan of tracked files: [scanLargeFiles]                     *)
(* ===================================================================== *)

(** An element of [largeFiles]. *)
Record TrackedFile : Type := {
  filePath : string;
  fileSize : Z;
  sizeMB : string
}.

(** [size > maxSizeMB * 1024 * 1024], for a size that is an integer and a
    limit that is any number: false for [NaN] and for plus infinity. *)
Definition exceeds (size : Z) (maxSizeMB : quotient) : bool :=
  match maxSizeMB with
  | Finite a b =>
      if (0 <? b)%Z then (a * (1024 * 1024) <? size * b)%Z
      else if (b <? 0)%Z then (size * b <? a * (1024 * 1024))%Z
      else false
  | MinusInfinity => true
  | PlusInfinity => false
  | NotANumber => false
  end.

(** The body of [for (const line of output.trim().split('\n'))]:
    [largeFiles] after the conditional [push]. *)
Definition readTreeLine (maxSizeMB : quotient) (largeFiles : list TrackedFile)
  (line : string) : list TrackedFile :=
  let parts := splitWs line in
  if (5 <=? List.length parts)%nat then
    let size := parseInt (nth 3 parts EmptyString) in
    let path := join " " (slice parts 4 (Z.of_nat (List.length parts))) in
    match size with
    | Num s =>
        if exceeds s maxSizeMB
        then largeFiles ++ [ {| filePath := path; fileSize := s;
                                sizeMB := toFixed 2 (Finite s (1024 * 1024)) |} ]
        else largeFiles
    | NaN => largeFiles
    end
  else largeFiles.

(** The comparator [(a, b) => b.size - a.size]. *)
Definition byFileSizeDesc (a b : TrackedFile) : Z := fileSize b - fileSize a.

(** [scanLargeFiles]; [lsTree] is what [git ls-tree -r -l HEAD] answers. *)
Definition scanLargeFiles (lsTree : exec) (maxSizeMB : quotient)
  : list TrackedFile :=
  match lsTree with
  | Ok output =>
      sort byFileSizeDesc
           (fold_left (readTreeLine maxSizeMB) (splitOn LF (trim output)) [])
  | Throws _ => []
  end.

(** The default [maxSizeMB = 10]. *)
Definition defaultMaxSizeMB : quotient := Finite 10 1.

(* ===================================================================== *)
(** ** The CI scan of authors: the duplicate detection of
       [scanDuplicateAuthors]                                             *)
(* ===================================================================== *)

(** An element of [authors]. *)
Record Author : Type := {
  commits : number;
  name : string;
  email : string
}.

(** An element of [duplicates]. *)
Record Duplicate : Type := {
  canonical : Author;
  alias : Author
}.

(** [author.email.toLowerCase().split('@')[0]] *)
Definition authorKey (author : Author) : string :=
  hd EmptyString (splitOn "@" (toLowerCase (email author))).

(** The body of [for (const author of authors)], on the pair of [seen] and
    [duplicates]. *)
Definition noteAuthor (state : list (string * Author) * list Duplicate)
  (author : Author) : list (string * Author) * list Duplicate :=
  let '(seen, duplicates) := state in
  let key := authorKey author in
  match Map.get key seen with
  | Some first =>
      (seen, duplicates ++ [ {| canonical := first; alias := author |} ])
  | None => (Map.set key author seen, duplicates)
  end.

(** [duplicates] after the loop. *)
Definition findDuplicates (authors : list Author) : list Duplicate :=
  snd (fold_left noteAuthor authors ([], [])).

(** [seen] after the loop. *)
Definition seenAuthors (authors : list Author) : list (string * Author) :=
  fst (fold_left noteAuthor authors ([], [])).

(* ===================================================================== *)
(** ** The CI command handler: [ciCommand]                                *)
(* ===================================================================== *)

(** What the CI command obtains from outside.  The scanners that run
    external tools or walk the file system are given by what they return:
    [scanSecrets] by its [available] flag and its findings,
    [scanStaleFlags] by its flags, and [scanDuplicateAuthors] by the
    authors its reading of [git shortlog] yields ([None] when the command
    throws).  A finding and a flag are kept as their text. *)
Record CiWorld : Type := {
  ciRepoPath : string;
  ciIsGitRepo : bool;
  secretsAvailable : bool;
  secretFindings : list string;
  shortlogAuthors : option (list Author);
  staleFlags : list string;
  lsTreeHead : exec
}.

(** The fields of [options] the handler reads; a flag is truthy or not. *)
Record CiOptions : Type := {
  failOnSecrets : bool;
  failOnDuplicates : bool;
  failOnStaleFlags : bool;
  failOnBloat : option string
}.

(** An entry of [results.checks]: its [count] and the list it shows. *)
Inductive Check : Type :=
| SecretsCheck (available : bool) (count : nat) (findings : list string)
| DuplicatesCheck (count : nat) (duplicates : list Duplicate)
| StaleFlagsCheck (count : nat) (flags : list string)
| LargeFilesCheck (threshold : quotient) (count : nat) (files : list TrackedFile).

Definition countOf (check : Check) : nat :=
  match check with
  | SecretsCheck _ count _ => count
  | DuplicatesCheck count _ => count
  | StaleFlagsCheck count _ => count
  | LargeFilesCheck _ count _ => count
  end.

(** [results] when it is printed; the time stamp and the text of the
    threshold are left out. *)
Record CiResults : Type := {
  repository : string;
  checks : list (string * Check);
  exitCode : Z;
  summaryPass : bool;
  summaryIssues : nat
}.

(** How a run of the CI command ends: [process.exit] with a code, after an
    error message or after the results. *)
Inductive CiRun : Type :=
| CiError (message : string)
| CiPrinted (results : CiResults).

(** [scanDuplicateAuthors], from the authors read. *)
Definition scanDuplicateAuthors (w : CiWorld) : list Duplicate :=
  match shortlogAuthors w with
  | Some authors => findDuplicates authors
  | None => []
  end.

Section CiCommand.

(** [parseFloat] is taken as it is. *)
Variable parseFloat : string -> quotient.

(** One [if (options.failOn...)] block: the check is recorded, and a
    count above 0 sets the exit code to 1. *)
Definition runCheck (requested : bool) (key : string) (check : Check)
  (state : list (string * Check) * Z) : list (string * Check) * Z :=
  if requested then
    (Map.set key check (fst state),
     if (0 <? countOf check)%nat then 1%Z else snd state)
  else state.

Definition secretsCheck (w : CiWorld) : Check :=
  SecretsCheck (secretsAvailable w) (List.length (secretFindings w))
               (slice (secretFindings w) 0 10).

Definition duplicatesCheck (w : CiWorld) : Check :=
  DuplicatesCheck (List.length (scanDuplicateAuthors w))
                  (slice (scanDuplicateAuthors w) 0 10).

Definition staleFlagsCheck (w : CiWorld) : Check :=
  StaleFlagsCheck (List.length (staleFlags w)) (slice (staleFlags w) 0 20).

Definition largeFilesCheck (w : CiWorld) (maxSizeMB : quotient) : Check :=
  LargeFilesCheck maxSizeMB
                  (List.length (scanLargeFiles (lsTreeHead w) maxSizeMB))
                  (slice (scanLargeFiles (lsTreeHead w) maxSizeMB) 0 10).

(** A string option is truthy when it is set and not empty. *)
Definition truthy (x : option string) : bool :=
  match x with
  | Some s => negb (String.eqb s "")
  | None => false
  end.

Definition ciCommand (w : CiWorld) (options : CiOptions) : CiRun :=
  if negb (ciIsGitRepo w)
  then CiError ("Not a git repository: " ++ ciRepoPath w)
  else
    let s0 := ([], 0%Z) in
    let s1 := runCheck (failOnSecrets options) "secrets" (secretsCheck w) s0 in
    let s2 := runCheck (failOnDuplicates options) "duplicateAuthors"
                       (duplicatesCheck w) s1 in
    let s3 := runCheck (failOnStaleFlags options) "staleFlags"
                       (staleFlagsCheck w) s2 in
    let s4 := runCheck (truthy (failOnBloat options)) "largeFiles"
                       (largeFilesCheck w
                          (parseFloat (orElse (failOnBloat options) "")))
                       s3 in
    let checks :=
      if (List.length (Map.keys (fst s4)) =? 0)%nat then
        [ ("secrets", secretsCheck w);
          ("duplicateAuthors", duplicatesCheck w);
          ("staleFlags", staleFlagsCheck w);
          ("largeFiles", largeFilesCheck w (Finite 50 1)) ]
      else fst s4 in
    let exitCode := snd s4 in
    CiPrinted
      {| repository := ciRepoPath w;
         checks := checks;
         exitCode := exitCode;
         summaryPass := (exitCode =? 0)%Z;
         summaryIssues :=
           fold_left (fun sum check => sum + countOf check)%nat
                     (Map.values checks) 0 |}.

End CiCommand.

(* ===================================================================== *)
(** ** The table of the text report: [printTable]                         *)
(* ===================================================================== *)

(** A run of [k] spaces, the filler of [padEnd] and [padStart]. *)
Fixpoint spaces (k : nat) : string :=
  match k with
  | O => EmptyString
  | S k' => String " " (spaces k')
  end.

(** [s.padEnd(n)] and [s.padStart(n)]: a string of [n] characters or more
    is left as it is. *)
Definition padEnd (s : string) (n : nat) : string :=
  (s ++ spaces (n - String.length s))%string.

Definition padStart (s : string) (n : nat) : string :=
  (spaces (n - String.length s) ++ s)%string.

(** [String(r[i] || '')]: the cell of a row, empty when the row is too
    short. *)
Definition cellAt (row : list string) (i : nat) : string :=
  nth i row EmptyString.

(** The elements of an array with their indices, as the callback of
    [map] receives them. *)
Definition indexed {A} (arr : list A) : list (nat * A) :=
  combine (seq 0 (List.length arr)) arr.

(** [widths]: for each header the larger of its length and of the longest
    cell under it; [Math.max] of no length is less than every length. *)
Definition columnWidths (headers : list string) (rows : list (list string))
  : list nat :=
  map (fun ih =>
         Nat.max (String.length (snd ih))
                 (list_max (map (fun r => String.length (cellAt r (fst ih)))
                                rows)))
      (indexed headers).

(** [widths[i]], which [padEnd] and [padStart] take as 0 when it is
    undefined. *)
Definition widthAt (widths : list nat) (i : nat) : nat := nth i widths 0.

(** [alignRight.includes(i)] *)
Definition alignsRight (alignRight : list nat) (i : nat) : bool :=
  existsb (Nat.eqb i) alignRight.

Definition headerLineOf (widths : list nat) (headers : list string) : string :=
  join "  " (map (fun ih => padEnd (snd ih) (widthAt widths (fst ih)))
                 (indexed headers)).

(** The line of a row. *)
Definition rowLine (alignRight widths : list nat) (row : list string)
  : string :=
  join "  " (map (fun ic =>
                    if alignsRight alignRight (fst ic)
                    then padStart (snd ic) (widthAt widths (fst ic))
                    else padEnd (snd ic) (widthAt widths (fst ic)))
                 (indexed row)).

(** What [printTable] prints: the header line, a rule of as many marks as
    the header line has characters, and one line for each row. *)
Record Table : Type := {
  headerLine : string;
  ruleLength : nat;
  rowLines : list string
}.

Definition printTable (headers : list string) (rows : list (list string))
  (alignRight : list nat) : Table :=
  let widths := columnWidths headers rows in
  let headerLine := headerLineOf widths headers in
  {| headerLine := headerLine;
     ruleLength := String.length headerLine;
     rowLines := map (rowLine alignRight widths) rows |}.

(* ===================================================================== *)
(** ** Notions used in the statements                                     *)
(* ===================================================================== *)

(** Every character of the string passes the test. *)
Fixpoint stringAll (p : ascii -> bool) (s : string) : bool :=
  match s with
  | EmptyString => true
  | String a t => p a && stringAll p t
  end.

(** The string holds no white space. *)
Definition noSpace (s : string) : bool :=
  stringAll (fun a => negb (isSpace a)) s.

(** The last character exists and is not white space. *)
Fixpoint endsNonSpace (s : string) : bool :=
  match s with
  | EmptyString => false
  | String a EmptyString => negb (isSpace a)
  | String _ t => endsNonSpace t
  end.

(** The object made for a name the store resolves. *)
Definition entryOf (hashToPath : list (string * string))
  (store : string -> option N) (name : string) : GitObject :=
  {| hash := name;
     path := pathOf hashToPath name;
     size := match objectSize store name with
             | Some n => Z.of_N n
             | None => 0
             end |}.

(** A name the resolver can be asked about: it has no white space in it
    and the store knows it. *)
Definition goodName (store : string -> option N) (h : string) : Prop :=
  noSpace h = true /\ objectSize store h <> None.

(** The batches the loop takes, from index [i] on. *)
Equations? batchesFrom (batchSize : positive) (hashes : list string) (i : nat)
  : list (list string) by wf (List.length hashes - i) lt :=
batchesFrom batchSize hashes i with lt_dec i (List.length hashes) => {
  | left _ =>
      slice hashes (Z.of_nat i) (Z.of_nat (i + Pos.to_nat batchSize))
      :: batchesFrom batchSize hashes (i + Pos.to_nat batchSize)
  | right _ => [] }.
Proof. lia. Qed.

(** The resolver fails on the batch. *)
Definition batchFails (failure : string -> option string)
  (batch : list string) : bool :=
  match failure (join NL batch) with Some _ => true | None => false end.

(** The batches on which the resolver does not fail. *)
Definition survivors (failure : string -> option string)
  (batches : list (list string)) : list (list string) :=
  filter (fun batch => negb (batchFails failure batch)) batches.

(** What a line of the listing records: the name and the path. *)
Definition lineEntry (line : string) : string * string :=
  let parts := splitWs line in
  (hd EmptyString parts, join " " (tl parts)).

Definition listingEntries (output : string) : list (string * string) :=
  map lineEntry (splitOn LF (trim output)).

(** The names the listing holds, with repetitions, in order. *)
Definition listedNames (output : string) : list string :=
  map fst (listingEntries output).

(** The value of the last entry with the key, if there is one. *)
Definition lastValue (h : string) (entries : list (string * string))
  : option string :=
  fold_left (fun found e => if String.eqb (fst e) h then Some (snd e) else found)
            entries None.

Definition lastListedPath (output h : string) : option string :=
  lastValue h (listingEntries output).

(** The names of a list in the order of their first occurrence, after
    those already seen. *)
Definition firstSeen (seen names : list string) : list string :=
  fold_left (fun acc name => if arrayIncludes acc name then acc else acc ++ [name])
            names seen.

(** [hashToPath.set] of an entry. *)
Definition setEntry (m : list (string * string)) (e : string * string)
  : list (string * string) :=
  Map.set (fst e) (snd e) m.

(** The [objects] array when the batch loop is over, before the sort. *)
Definition pushedObjects (batchSize : positive) (w : World) (output : string)
  : list GitObject :=
  batchLoop w (readListing output) batchSize
            (Map.keys (readListing output)) 0 [].

(** The objects of one size. *)
Definition ofSize (s : Z) (objects : list GitObject) : list GitObject :=
  filter (fun o => (size o =? s)%Z) objects.


(** [a] may stand in front of [b]. *)
Definition notSmaller (a b : GitObject) : Prop := (size b <= size a)%Z.

(** The sum of the sizes of the objects. *)
Definition totalOf (objects : list GitObject) : Z :=
  fold_right (fun o total => size o + total)%Z 0%Z objects.

(** The sum of the values of a map. *)
Definition sumValues (m : list (string * Z)) : Z :=
  fold_right Z.add 0%Z (Map.values m).

(** [options.includeDeleted || false] *)
Definition scopeOf (options : Options) : bool :=
  match includeDeleted options with Some b => b | None => false end.

(** The threshold and the limit the handler reads from [options]. *)
Definition minSizeOf (options : Options) : number :=
  parseInt (orElse (minSize options) "1048576").

Definition limitOf (options : Options) : number :=
  parseInt (orElse (limit options) "20").

(** [filteredObjects] *)
Definition atLeast (threshold : number) (objects : list GitObject)
  : list GitObject :=
  filter (fun o => ge (Num (size o)) threshold) objects.

(** An entry of the table passes for a path when its list holds the
    extension of the path or its name occurs in the path. *)
Definition passes (p : string) (entry : string * list string) : bool :=
  arrayIncludes (snd entry) (extOf p) || strIncludes p (fst entry).

(** The names that come before [cat] in the table. *)
Fixpoint namesBefore (cat : string) (cats : list (string * list string))
  : list string :=
  match cats with
  | [] => []
  | (c, _) :: rest => if String.eqb c cat then [] else c :: namesBefore cat rest
  end.

(** The text is ASCII: every character code is below 128, that is, the
    high bit of no character is set.  On such a text
    the white space, the letter case and the lengths of the model are
    those of JavaScript. *)
Definition isAscii (s : string) : bool :=
  stringAll (fun a => match a with
                      | Ascii _ _ _ _ _ _ _ high => negb high
                      end) s.

(** The text holds no dot. *)
Definition noDot (s : string) : Prop := strIncludes s "." = false.

(** [p] is the directory part [dir], empty or ended by a slash, followed
    by the last segment [base], which holds no slash. *)
Definition lastSegment (p dir base : string) : Prop :=
  p = (dir ++ base)%string
  /\ (dir = "" \/ exists d, dir = (d ++ "/")%string)
  /\ stringAll (fun a => negb (Ascii.eqb a "/")) base = true.

(** A path has no file extension when its last segment holds no dot, or
    no dot but the one it begins with (the name of a dot-file). *)
Definition hasNoExtension (p : string) : Prop :=
  exists dir base,
    lastSegment p dir base
    /\ (noDot base \/ exists nm, base = String "." nm /\ noDot nm).

(** No name of a category occurs in the path. *)
Definition namesFree (p : string) : Prop :=
  forall c, In c (map fst categories) -> strIncludes p c = false.

(** Every extension word of the table. *)
Definition tableWords : list string := List.concat (map snd categories).

(* ===================================================================== *)
(** ** Sample repositories                                                *)
(* ===================================================================== *)

(** Three objects: an archive of 2 MB and two small ones. *)
Definition sampleStore (name : string) : option N :=
  if String.eqb name "aaa" then Some 2000000%N
  else if String.eqb name "bbb" then Some 1000%N
  else if String.eqb name "ccc" then Some 1000%N
  else None.

(** A repository whose working tree cannot be measured. *)
Definition unmeasuredWorld : World :=
  {| repoPath := "/repo";
     isGitRepo := true;
     revList := fun _ =>
       Ok ("aaa vendor/lib.tar.gz" ++ NL ++ "bbb src/app.js" ++ NL);
     catFile := gitCatFile sampleStore noFailure;
     duGit := Ok ("4" ++ String TAB ".git" ++ NL);
     findSizes := Throws "Command failed: find" |}.

(** A listing in which the name [bbb] comes on two lines, which the
    listing command itself does not print, and [ccc] has no path; [bbb]
    and [ccc] have the same size. *)
Definition sampleListing : string :=
  "bbb src/app.js" ++ NL ++ "ccc" ++ NL ++ "aaa vendor/lib.tar.gz" ++ NL
  ++ "bbb docs/copy.js" ++ NL.

Definition sampleWorld : World :=
  {| repoPath := "/repo";
     isGitRepo := true;
     revList := fun _ => Ok sampleListing;
     catFile := gitCatFile sampleStore noFailure;
     duGit := Ok ("6144" ++ String TAB ".git" ++ NL);
     findSizes := Ok ("1048576" ++ NL) |}.

(** Its inventory: [aaa] first, then the two objects of 1000 bytes in the
    order of their first lines. *)
Definition sampleInventory : list GitObject :=
  [ {| hash := "aaa"; path := "vendor/lib.tar.gz"; size := 2000000 |};
    {| hash := "bbb"; path := "docs/copy.js"; size := 1000 |};
    {| hash := "ccc"; path := "(unknown)"; size := 1000 |} ].

(** The resolver fails on the batch of [bbb] and [ccc]. *)
Definition flakyFailure (input : string) : option string :=
  if String.eqb input ("bbb" ++ NL ++ "ccc")
  then Some "Command failed: git cat-file"
  else None.

Definition flakyWorld : World :=
  {| repoPath := "/repo";
     isGitRepo := true;
     revList := fun _ => Ok sampleListing;
     catFile := gitCatFile sampleStore flakyFailure;
     duGit := Ok ("6144" ++ String TAB ".git" ++ NL);
     findSizes := Ok ("1048576" ++ NL) |}.

Definition jsonOptions : Options :=
  {| includeDeleted := None; limit := None; minSize := None;
     output := Some "json" |}.

(** A threshold of 5 MB, above every object of the sample. *)
Definition highThresholdOptions : Options :=
  {| includeDeleted := Some true; limit := Some "1";
     minSize := Some "5000000"; output := Some "json" |}.

Definition textOptions : Options :=
  {| includeDeleted := None; limit := None; minSize := None;
     output := None |}.

(** The tests of the advisory rules, as [generateRecommendations] makes
    them. *)
Definition hasNodeModules (objects : list GitObject) : bool :=
  existsb (fun o => strIncludes (path o) "node_modules") objects.

Definition hasVendor (objects : list GitObject) : bool :=
  existsb (fun o => strIncludes (path o) "vendor/") objects.

Definition hasLargeMedia (objects : list GitObject) : bool :=
  existsb (fun o => (5 * MB <? size o)%Z &&
                    arrayIncludes ["image"; "video"; "audio"]
                                  (categorizeFile (path o))) objects.

Definition hasPackages (objects : list GitObject) : bool :=
  existsb (fun o => (MB <? size o)%Z &&
                    arrayIncludes ["package"; "archive"]
                                  (categorizeFile (path o))) objects.

Definition largeObjects (objects : list GitObject) : list GitObject :=
  filter (fun o => (10 * MB <? size o)%Z) objects.

(** The list the pushes build from the outcomes of the six tests. *)
Definition assemble (c1 c2 c3 c4 c5 c6 : bool) (many : string) : list string :=
  let r1 := pushIf c1 [adviceNodeModules] [] in
  let r2 := pushIf c2 [adviceVendor] r1 in
  let r3 := pushIf c3 [adviceLargeMedia] r2 in
  let r4 := pushIf c4 [advicePackages] r3 in
  let r5 := pushIf c5 [adviceStoreBloat; adviceRunGc] r4 in
  let r6 := pushIf c6 [many] r5 in
  pushIf (List.length r6 =? 0)%nat [adviceHealthy] r6.

(** The comparator [(a, b) => key(b) - key(a)] and the order it gives. *)
Definition byKeyDesc {A} (key : A -> Z) (a b : A) : Z := key b - key a.

Definition keyNotSmaller {A} (key : A -> Z) (a b : A) : Prop :=
  (key b <= key a)%Z.

(** More samples. *)
Definition topTwoOptions : Options :=
  {| includeDeleted := None; limit := Some "2"; minSize := Some "100";
     output := Some "json" |}.

Definition topTwoTextOptions : Options :=
  {| includeDeleted := None; limit := Some "2"; minSize := Some "100";
     output := None |}.

(** A repository whose store cannot be measured: [du] prints nothing. *)
Definition unmeasuredStoreWorld : World :=
  {| repoPath := "/repo";
     isGitRepo := true;
     revList := fun _ => Ok sampleListing;
     catFile := gitCatFile sampleStore noFailure;
     duGit := Ok "";
     findSizes := Ok ("1048576" ++ NL) |}.

(** A word: not empty, without white space. *)
Definition isWord (s : string) : Prop := noSpace s = true /\ s <> "".

(** A plain word: a word of ASCII characters. *)
Definition plainWord (s : string) : Prop := isWord s /\ isAscii s = true.

(** A text of plain words with one space between them; the empty text has
    no word. *)
Definition plainPath (p : string) : Prop :=
  exists words, Forall plainWord words /\ p = join " " words.

(** What [git rev-list --objects] prints for an object: the name alone for
    a commit; for a tree or a blob the name, a space and the path the
    object was reached through, which is empty for the tree of a commit. *)
Record Listed : Type := {
  listedName : string;
  listedPath : option string
}.

Definition listedLine (e : Listed) : string :=
  match listedPath e with
  | None => listedName e
  | Some p => (listedName e ++ " " ++ p)%string
  end.

Definition wellListed (e : Listed) : Prop :=
  plainWord (listedName e)
  /\ match listedPath e with
     | None => True
     | Some p => plainPath p
     end.

(** The listing of the entries, every line ended by a line feed. *)
Definition listingText (entries : list Listed) : string :=
  (join NL (map listedLine entries) ++ NL)%string.

(** The path text of an entry, empty when it has none. *)
Definition pathText (e : Listed) : string :=
  match listedPath e with
  | None => EmptyString
  | Some p => p
  end.

(** What the map is to hold for an entry: its name and its path text. *)
Definition readEntry (e : Listed) : string * string :=
  (listedName e, pathText e).

(** The path the inventory is to show for an entry: the path text as it
    is listed, or the place holder when it is empty. *)
Definition pathOrUnknown (e : Listed) : string :=
  if String.eqb (pathText e) "" then "(unknown)" else pathText e.

(** The walk of [git rev-list --objects] over the history reaches an
    object as often as the history refers to it, each time through some
    path; it prints the object the first time it reaches it, with the path
    of that visit, and marks it as seen: a later visit prints nothing. *)
Fixpoint firstVisits (seen : list string) (visits : list Listed)
  : list Listed :=
  match visits with
  | [] => []
  | v :: rest =>
      if arrayIncludes seen (listedName v) then firstVisits seen rest
      else v :: firstVisits (listedName v :: seen) rest
  end.

(** What the command prints for a walk. *)
Definition revListObjects (visits : list Listed) : string :=
  listingText (firstVisits [] visits).


(** A walk that reaches the blob [bbb] through two paths, a commit, the
    tree of the commit and an archive. *)
Definition sampleVisits : list Listed :=
  [ {| listedName := "ccc"; listedPath := None |};
    {| listedName := "ddd"; listedPath := Some "" |};
    {| listedName := "bbb"; listedPath := Some "src/app.js" |};
    {| listedName := "aaa"; listedPath := Some "vendor/my lib.tar.gz" |};
    {| listedName := "bbb"; listedPath := Some "docs/copy.js" |} ].

Definition historyStore (name : string) : option N :=
  if String.eqb name "ddd" then Some 120%N else sampleStore name.

Definition historyWorld : World :=
  {| repoPath := "/repo";
     isGitRepo := true;
     revList := fun _ => Ok (revListObjects sampleVisits);
     catFile := gitCatFile historyStore noFailure;
     duGit := Ok ("6144" ++ String TAB ".git" ++ NL);
     findSizes := Ok ("1048576" ++ NL) |}.

(** A world whose listing is blank. *)
Definition blankWorld : World :=
  {| repoPath := "/repo";
     isGitRepo := true;
     revList := fun _ => Ok NL;
     catFile := gitCatFile sampleStore noFailure;
     duGit := Ok ("4" ++ String TAB ".git" ++ NL);
     findSizes := Ok ("0" ++ NL) |}.

(** What a line of the tree listing tells: the file of its fourth field
    and of the words from the fifth on, when there are five fields and the
    fourth is a number. *)
Definition treeEntry (line : string) : option TrackedFile :=
  match splitWs line with
  | _ :: _ :: _ :: size :: word :: words =>
      match parseInt size with
      | Num s => Some {| filePath := join " " (word :: words);
                         fileSize := s;
                         sizeMB := toFixed 2 (Finite s (1024 * 1024)) |}
      | NaN => None
      end
  | _ => None
  end.

(** The files the tree listing tells of, in the order of its lines. *)
Definition treeEntries (output : string) : list TrackedFile :=
  flat_map (fun line => match treeEntry line with
                        | Some f => [f]
                        | None => []
                        end)
           (splitOn LF (trim output)).

Definition overLimit (maxSizeMB : quotient) (f : TrackedFile) : bool :=
  exceeds (fileSize f) maxSizeMB.

(** The files of one size. *)
Definition ofFileSize (s : Z) (files : list TrackedFile) : list TrackedFile :=
  filter (fun f => (fileSize f =? s)%Z) files.

(** A line of [git ls-tree -r -l]: mode, type and name of the object, the
    size field set to the right, a tabulation and the path. *)
Definition treeLine (mode kind sha : string) (pad : nat) (sizeField : string)
  (words : list string) : string :=
  (mode ++ " " ++ kind ++ " " ++ sha ++ String " " (spaces pad)
   ++ sizeField ++ String TAB (join " " words))%string.

(** A tree listing with a file of 60 MB, one of 20 MB, a submodule and a
    small file. *)
Definition sampleTree : string :=
  (treeLine "100644" "blob" "aaa" 0 "62914560" ["media/intro"; "clip.mov"] ++ NL
   ++ treeLine "100644" "blob" "bbb" 4 "512" ["README.md"] ++ NL
   ++ treeLine "160000" "commit" "ccc" 6 "-" ["deps"] ++ NL
   ++ treeLine "100644" "blob" "ddd" 0 "20971520" ["data.bin"] ++ NL)%string.

(** The checks the options ask for, in the order of the handler. *)
Definition requestedChecks (parseFloat : string -> quotient) (w : CiWorld)
  (options : CiOptions) : list (string * Check) :=
  (if failOnSecrets options then [("secrets", secretsCheck w)] else [])
  ++ (if failOnDuplicates options
      then [("duplicateAuthors", duplicatesCheck w)] else [])
  ++ (if failOnStaleFlags options
      then [("staleFlags", staleFlagsCheck w)] else [])
  ++ (if truthy (failOnBloat options)
      then [("largeFiles",
             largeFilesCheck w (parseFloat (orElse (failOnBloat options) "")))]
      else []).

(** The four checks, the large files over 50 MB. *)
Definition allChecks (w : CiWorld) : list (string * Check) :=
  [ ("secrets", secretsCheck w);
    ("duplicateAuthors", duplicatesCheck w);
    ("staleFlags", staleFlagsCheck w);
    ("largeFiles", largeFilesCheck w (Finite 50 1)) ].

(** The sum of the counts of the checks, and whether one is above 0. *)
Definition issuesOf (checks : list (string * Check)) : nat :=
  list_sum (map (fun kc => countOf (snd kc)) checks).

Definition anyIssue (checks : list (string * Check)) : bool :=
  existsb (fun kc => (0 <? countOf (snd kc))%nat) checks.

(** A limit given as a whole number of megabytes. *)
Definition wholeLimit (s : string) : quotient :=
  match parseInt s with
  | Num z => Finite z 1
  | NaN => NotANumber
  end.

(** A repository with one secret, a file of 60 MB and one of 20 MB. *)
Definition sampleCiWorld : CiWorld :=
  {| ciRepoPath := "/repo";
     ciIsGitRepo := true;
     secretsAvailable := true;
     secretFindings := ["aws-access-token"];
     shortlogAuthors := Some [];
     staleFlags := [];
     lsTreeHead := Ok sampleTree |}.

Definition noCiOptions : CiOptions :=
  {| failOnSecrets := false; failOnDuplicates := false;
     failOnStaleFlags := false; failOnBloat := None |}.

Definition bloatCiOptions (limit : string) : CiOptions :=
  {| failOnSecrets := false; failOnDuplicates := false;
     failOnStaleFlags := false; failOnBloat := Some limit |}.

(** The first author of a list whose key is [key]. *)
Definition firstWith (key : string) (authors : list Author) : option Author :=
  find (fun a => String.eqb (authorKey a) key) authors.

(** Two addresses of one person at two domains. *)
Definition adaFirst : Author :=
  {| commits := Num 40; name := "Ada"; email := "ada@example.com" |}.

Definition adaSecond : Author :=
  {| commits := Num 3; name := "Ada L"; email := "Ada@users.example.org" |}.

(** The string holds no at sign. *)
Definition noAt (s : string) : bool :=
  stringAll (fun c => negb (Ascii.eqb c "@")) s.

(** The width of a line of [n] columns: the columns and two spaces between
    neighbours. *)
Definition lineWidth (widths : list nat) (n : nat) : nat :=
  list_sum (map (widthAt widths) (seq 0 n)) + 2 * (n - 1).

(** The table of the largest files of a report, sizes to the right. *)
Definition sampleTable : Table :=
  printTable ["Path"; "Size"; "Category"]
             [ ["vendor/lib.tar.gz"; "1.91 MB"; "archive"];
               ["docs/copy.js"; "1000 B"; "code"] ]
             [1].

(* ===================================================================== *)
(** * Properties                                                          *)
(* ===================================================================== *)

(** ** Facts about the string primitives *)

Section StringFacts.

Lemma append_empty_r (s : string) : (s ++ "")%string = s.
Proof. induction s as [| a t IH]; simpl; [reflexivity | now rewrite IH]. Qed.

Lemma append_assoc (s t u : string) :
  ((s ++ t) ++ u)%string = (s ++ (t ++ u))%string.
Proof. induction s as [| a s IH]; simpl; [reflexivity | now rewrite IH]. Qed.

Lemma stringAll_app (p : ascii -> bool) (s t : string) :
  stringAll p (s ++ t) = stringAll p s && stringAll p t.
Proof.
  induction s as [| a s IH]; simpl; [reflexivity | ].
  rewrite IH. now rewrite andb_assoc.
Qed.

Lemma stringAll_impl (p q : ascii -> bool) (s : string) :
  (forall a, p a = true -> q a = true) ->
  stringAll p s = true -> stringAll q s = true.
Proof.
  intros Hpq. induction s as [| a s IH]; simpl; [reflexivity | ].
  intros H. apply andb_true_iff in H. destruct H as [Ha Hs].
  now rewrite (Hpq a Ha), (IH Hs).
Qed.

(** *** [split] on a character *)

Lemma splitOn_free (c : ascii) (s : string) :
  stringAll (fun a => negb (Ascii.eqb a c)) s = true -> splitOn c s = [s].
Proof.
  induction s as [| a s IH]; simpl; [reflexivity | ].
  intros H. apply andb_true_iff in H. destruct H as [Ha Hs].
  destruct (Ascii.eqb a c); [discriminate | ].
  now rewrite (IH Hs).
Qed.

Lemma splitOn_app_sep (c : ascii) (s t : string) :
  stringAll (fun a => negb (Ascii.eqb a c)) s = true ->
  splitOn c (s ++ String c t) = s :: splitOn c t.
Proof.
  induction s as [| a s IH]; simpl.
  - intros _. now rewrite Ascii.eqb_refl.
  - intros H. apply andb_true_iff in H. destruct H as [Ha Hs].
    destruct (Ascii.eqb a c); [discriminate | ].
    now rewrite (IH Hs).
Qed.

(** [join] followed by [split] on the separator gives the pieces back, when
    no piece holds the separator. *)
Lemma splitOn_join (c : ascii) (l : list string) :
  l <> [] ->
  Forall (fun x => stringAll (fun a => negb (Ascii.eqb a c)) x = true) l ->
  splitOn c (join (String c "") l) = l.
Proof.
  unfold join. induction l as [| x l IH]; [congruence | ].
  intros _ Hall. inversion Hall as [| ? ? Hx Hl]; subst.
  destruct l as [| y l].
  - simpl. now apply splitOn_free.
  - change (String.concat (String c "") (x :: y :: l))
      with (x ++ String c (String.concat (String c "") (y :: l)))%string.
    rewrite (splitOn_app_sep c x _ Hx).
    rewrite IH; [reflexivity | discriminate | assumption].
Qed.

Lemma splitOn_nonempty (c : ascii) (s : string) : splitOn c s <> [].
Proof.
  destruct s as [| a s]; simpl; [discriminate | ].
  destruct (Ascii.eqb a c); [discriminate | ].
  destruct (splitOn c s); discriminate.
Qed.

(** *** [split(/\s+/)] *)

Lemma splitWs_nonempty (s : string) : splitWs s <> [].
Proof.
  induction s as [| a s IH]; simpl; [discriminate | ].
  destruct (isSpace a).
  - destruct s as [| b s]; [discriminate | ].
    destruct (isSpace b); [assumption | discriminate].
  - destruct (splitWs s); discriminate.
Qed.

(** No piece of the split holds white space. *)
Lemma splitWs_noSpace (s : string) :
  Forall (fun x => noSpace x = true) (splitWs s).
Proof.
  induction s as [| a s IH]; simpl.
  - repeat constructor.
  - destruct (isSpace a) eqn:Ha.
    + destruct s as [| b s].
      * repeat constructor.
      * destruct (isSpace b); [assumption | now constructor].
    + destruct (splitWs s) as [| h r]; simpl.
      * constructor; [ | constructor]. unfold noSpace. simpl. now rewrite Ha.
      * inversion IH as [| ? ? Hh Hr]; subst. constructor; [ | assumption].
        unfold noSpace in *. simpl. now rewrite Ha, Hh.
Qed.

(** *** [trim] *)

Lemma trimEnd_spaces (s : string) :
  stringAll isSpace s = true -> trimEnd s = "".
Proof.
  induction s as [| a s IH]; simpl; [reflexivity | ].
  intros H. apply andb_true_iff in H. destruct H as [Ha Hs].
  now rewrite (IH Hs), Ha.
Qed.

Lemma trimEnd_app_spaces (s t : string) :
  stringAll isSpace t = true -> trimEnd (s ++ t) = trimEnd s.
Proof.
  intros Ht. induction s as [| a s IH]; simpl.
  - now apply trimEnd_spaces.
  - now rewrite IH.
Qed.

Lemma trimEnd_clean (s : string) : endsNonSpace s = true -> trimEnd s = s.
Proof.
  induction s as [| a s IH]; [reflexivity | ].
  destruct s as [| b s].
  - simpl. intros H. now destruct (isSpace a).
  - intros H. change (endsNonSpace (String a (String b s)))
      with (endsNonSpace (String b s)) in H.
    change (trimEnd (String a (String b s)))
      with (match trimEnd (String b s) with
            | EmptyString => if isSpace a then EmptyString else String a EmptyString
            | t' => String a t'
            end).
    now rewrite (IH H).
Qed.

Lemma endsNonSpace_app (s t : string) :
  t <> "" -> endsNonSpace (s ++ t) = endsNonSpace t.
Proof.
  intros Ht. induction s as [| a s IH]; [reflexivity | ].
  simpl. rewrite IH.
  destruct (s ++ t)%string eqn:Happ; [ | reflexivity].
  destruct s; simpl in Happ; [contradiction | discriminate].
Qed.

Lemma endsNonSpace_noSpace (s : string) :
  s <> "" -> noSpace s = true -> endsNonSpace s = true.
Proof.
  unfold noSpace. induction s as [| a s IH]; [congruence | ].
  intros _ H. simpl in H. apply andb_true_iff in H. destruct H as [Ha Hs].
  destruct s as [| b s]; [exact Ha | ].
  change (endsNonSpace (String b s) = true). apply IH; [discriminate | assumption].
Qed.

(** Text that starts and ends with something other than white space is
    what [trim] gives back when a line feed follows it. *)
Lemma trim_line_feed (a : ascii) (s : string) :
  isSpace a = false -> endsNonSpace (String a s) = true ->
  trim (String a s ++ NL) = String a s.
Proof.
  intros Ha Hend. unfold trim.
  change (String a s ++ NL)%string with (String a (s ++ NL)).
  simpl trimStart. rewrite Ha.
  change (String a (s ++ NL)) with (String a s ++ NL)%string.
  rewrite trimEnd_app_spaces by reflexivity.
  now apply trimEnd_clean.
Qed.

(** *** The primitives on small inputs *)

Example splitWs_runs : splitWs "a  b c " = ["a"; "b"; "c"; ""].
Proof. reflexivity. Qed.

Example splitWs_leading : splitWs " a" = [""; "a"].
Proof. reflexivity. Qed.

Example splitOn_empty : splitOn "." "" = [""].
Proof. reflexivity. Qed.

Example trim_both : trim ("  a b " ++ NL) = "a b".
Proof. reflexivity. Qed.

Example parseInt_prefix : parseInt " -12ab" = Num (-12).
Proof. reflexivity. Qed.

Example parseInt_none : parseInt "abc" = NaN.
Proof. reflexivity. Qed.

Example toFixed_third : toFixed 2 (divide (Num 2) (Num 3)) = "0.67".
Proof. reflexivity. Qed.

Example toFixed_zero_divisor : toFixed 2 (divide (Num 5) (Num 0)) = "Infinity".
Proof. reflexivity. Qed.

Example toFixed_of_the_double :
  toFixed 2 (divide (Num 205824) (Num 204800)) = "1.00".
Proof. reflexivity. Qed.

Example toFixed_share :
  toFixed 1 (scaleBy (divide (Num 1) (Num 3)) 100) = "33.3".
Proof. reflexivity. Qed.

Example slice_negative_end : slice [1; 2; 3] 0 (-1) = [1; 2].
Proof. reflexivity. Qed.

End StringFacts.

(** ** Classification *)

Section Classification.

Example categorizeFile_png : categorizeFile "assets/Logo.PNG" = "image".
Proof. reflexivity. Qed.

Example categorizeFile_tgz : categorizeFile "vendor/lib.tar.gz" = "archive".
Proof. reflexivity. Qed.

Example categorizeFile_js : categorizeFile "src/app.js" = "other".
Proof. reflexivity. Qed.

Example categorizeFile_directory : categorizeFile "node_modules" = "nodemodules".
Proof. reflexivity. Qed.

Lemma arrayIncludes_In (arr : list string) (x : string) :
  arrayIncludes arr x = true <-> In x arr.
Proof.
  unfold arrayIncludes. rewrite existsb_exists. split.
  - intros [y [Hy Heq]]. apply String.eqb_eq in Heq. now subst.
  - intros Hin. exists x. split; [assumption | apply String.eqb_refl].
Qed.

(** The loop answers with a name of the table or with the default. *)
Lemma firstMatch_in (ext p : string) (cats : list (string * list string)) :
  In (firstMatch ext p cats) (map fst cats ++ ["other"]).
Proof.
  induction cats as [| [category exts] rest IH]; simpl.
  - now left.
  - destruct (arrayIncludes exts ext || strIncludes p category).
    + now left.
    + now right.
Qed.

(** When no entry passes either test the default is returned. *)
Lemma firstMatch_none (ext p : string) (cats : list (string * list string)) :
  (forall c e, In (c, e) cats ->
     arrayIncludes e ext = false /\ strIncludes p c = false) ->
  firstMatch ext p cats = "other".
Proof.
  induction cats as [| [category exts] rest IH]; simpl; intros Hno.
  - reflexivity.
  - destruct (Hno category exts (or_introl eq_refl)) as [-> ->]. simpl.
    apply IH. intros c e Hin. apply Hno. now right.
Qed.

Lemma prefix_empty (s : string) : prefix "" s = true.
Proof. now destruct s. Qed.

(** Without a dot, [split('.')] leaves the path in one piece. *)
Lemma splitOn_dot_none (p : string) :
  noDot p -> splitOn "." p = [p].
Proof.
  unfold noDot. induction p as [| a t IH]; simpl; intros Hno.
  - reflexivity.
  - destruct (Ascii.eqb_spec a ".") as [-> | Hne].
    + simpl in Hno. rewrite prefix_empty in Hno. discriminate.
    + apply orb_false_iff in Hno. destruct Hno as [_ Hno].
      rewrite (IH Hno). reflexivity.
Qed.

Lemma extOf_no_dot (p : string) : noDot p -> extOf p = toLowerCase p.
Proof.
  intros Hno. unfold extOf. now rewrite (splitOn_dot_none p Hno).
Qed.

End Classification.

(** The loop returns the name of the first entry that passes. *)
Lemma firstMatch_find (p : string) (cats : list (string * list string)) :
  firstMatch (extOf p) p cats
  = match find (passes p) cats with
    | Some entry => fst entry
    | None => "other"
    end.
Proof.
  induction cats as [| [category exts] rest IH]; simpl; [reflexivity | ].
  unfold passes at 1. simpl.
  now destruct (arrayIncludes exts (extOf p) || strIncludes p category).
Qed.

(** C1, as amended: the classifier tries the categories in table order and
    takes the first one whose extension list holds the lower-cased
    extension or whose name occurs in the path, both tests being made on
    each category in turn.  So a path whose extension is listed gets that
    extension's category when no category placed earlier in the table
    occurs as a substring of the path. *)
Theorem categorizeFile_extension_unless_earlier_name
  (p cat : string) (exts : list string) :
  categorizeFile p
  = match find (passes p) categories with
    | Some entry => fst entry
    | None => "other"
    end
  /\ (In (cat, exts) categories ->
      arrayIncludes exts (extOf p) = true ->
      (forall c, In c (namesBefore cat categories) -> strIncludes p c = false) ->
      categorizeFile p = cat).
Proof.
  split; [apply firstMatch_find | ].
  intros Hentry Hext Hearlier. unfold categorizeFile.
  remember (extOf p) as ext eqn:Hdef. clear Hdef.
  apply arrayIncludes_In in Hext.
  simpl in Hentry.
  repeat (destruct Hentry as [Hentry | Hentry];
          [ injection Hentry as <- <-; simpl in Hext, Hearlier;
            repeat (destruct Hext as [<- | Hext];
                    [ cbn;
                      repeat (rewrite Hearlier by (simpl; tauto); cbn);
                      reflexivity | ]);
            contradiction | ]).
  contradiction.
Qed.

(** The rule on [data/photo.png]: the extension wins over the name [data],
    which comes later in the table. *)
Lemma categorizeFile_extension_unless_earlier_name_witness :
  categorizeFile "data/photo.png" = "image".
Proof.
  apply (proj2 (categorizeFile_extension_unless_earlier_name
                  "data/photo.png" "image"
                  ["jpg"; "jpeg"; "png"; "gif"; "bmp"; "tiff"; "psd"; "svg";
                   "webp"; "ico"])).
  - simpl. tauto.
  - reflexivity.
  - intros c Hc. simpl in Hc. destruct Hc as [<- | [<- | []]]; reflexivity.
Defined.

(** C1 as stated fails: [archive/logo.png] has the listed extension [png]
    of [image], and is classified [archive] because of its directory. *)
Lemma categorizeFile_extension_first_counterexample :
  ~ (forall (p cat : string) (exts : list string),
       In (cat, exts) categories ->
       arrayIncludes exts (extOf p) = true ->
       categorizeFile p = cat).
Proof.
  intros Hclaim.
  specialize (Hclaim "archive/logo.png" "image"
    ["jpg"; "jpeg"; "png"; "gif"; "bmp"; "tiff"; "psd"; "svg"; "webp"; "ico"]).
  assert (Hres : categorizeFile "archive/logo.png" = "archive") by reflexivity.
  rewrite Hres in Hclaim.
  discriminate Hclaim; [simpl; tauto | reflexivity].
Qed.

Section LastPiece.

Variable c : ascii.

(** A text holds no [c], or it has a last [c]. *)
Lemma free_or_last (s : string) :
  stringAll (fun a => negb (Ascii.eqb a c)) s = true
  \/ exists front tail,
       s = (front ++ String c tail)%string
       /\ stringAll (fun a => negb (Ascii.eqb a c)) tail = true.
Proof.
  induction s as [| a s IH]; [now left | ].
  destruct IH as [Hfree | [front [tail [-> Htail]]]].
  - destruct (Ascii.eqb_spec a c) as [-> | Hne].
    + right. exists "", s. now split.
    + left. simpl. rewrite Hfree.
      apply Ascii.eqb_neq in Hne. now rewrite Hne.
  - right. exists (String a front), tail. now split.
Qed.

Lemma splitOn_two (s t : string) :
  exists x y r, splitOn c (s ++ String c t) = x :: y :: r.
Proof.
  induction s as [| a s IH]; simpl.
  - rewrite Ascii.eqb_refl.
    pose proof (splitOn_nonempty c t) as Hne.
    destruct (splitOn c t) as [| y r]; [congruence | ]. now exists "", y, r.
  - destruct IH as [x [y [r ->]]].
    destruct (Ascii.eqb a c); simpl; eauto.
Qed.

(** The last piece of a split lies behind the last separator. *)
Lemma last_splitOn_app (s t : string) :
  last (splitOn c (s ++ String c t)) "" = last (splitOn c t) "".
Proof.
  induction s as [| a s IH]; simpl.
  - rewrite Ascii.eqb_refl.
    pose proof (splitOn_nonempty c t) as Hne.
    now destruct (splitOn c t).
  - destruct (splitOn_two s t) as [x [y [r Hsplit]]].
    rewrite Hsplit in *.
    destruct (Ascii.eqb a c); simpl; exact IH.
Qed.

Lemma last_piece (front tail : string) :
  stringAll (fun a => negb (Ascii.eqb a c)) tail = true ->
  last (splitOn c (front ++ String c tail)) "" = tail.
Proof.
  intros Hfree. now rewrite last_splitOn_app, (splitOn_free c tail Hfree).
Qed.

End LastPiece.

Section Extensions.

Lemma noDot_free (s : string) :
  noDot s <-> stringAll (fun a => negb (Ascii.eqb a ".")) s = true.
Proof.
  unfold noDot. induction s as [| a s IH]; [simpl; tauto | ].
  change (stringAll (fun a0 => negb (Ascii.eqb a0 ".")) (String a s))
    with (negb (Ascii.eqb a ".")
          && stringAll (fun a0 => negb (Ascii.eqb a0 ".")) s).
  change (strIncludes (String a s) ".")
    with (prefix "." (String a s) || strIncludes s ".").
  cbn [prefix]. rewrite prefix_empty.
  destruct (ascii_dec "." a) as [<- | Hne].
  - simpl. split; discriminate.
  - destruct (Ascii.eqb_spec a ".") as [-> | _]; [congruence | ].
    simpl. exact IH.
Qed.

(** The extension of a path is read behind its last dot. *)
Lemma extOf_last_dot (front tail : string) :
  noDot tail -> extOf (front ++ String "." tail) = toLowerCase tail.
Proof.
  intros Htail. unfold extOf.
  now rewrite (last_piece "." front tail (proj1 (noDot_free tail) Htail)).
Qed.

Lemma lowerChar_not_slash (a : ascii) :
  Ascii.eqb (lowerChar a) "/" = Ascii.eqb a "/".
Proof.
  unfold lowerChar. cbv zeta.
  destruct ((65 <=? nat_of_ascii a)%nat && (nat_of_ascii a <=? 90)%nat) eqn:Hup;
    [ | reflexivity].
  apply andb_true_iff in Hup. destruct Hup as [H1 H2].
  apply Nat.leb_le in H1. apply Nat.leb_le in H2.
  assert (Hslash : nat_of_ascii "/" = 47) by reflexivity.
  destruct (Ascii.eqb_spec a "/") as [-> | Hne].
  - rewrite Hslash in H1. lia.
  - apply Ascii.eqb_neq. intros Heq.
    apply (f_equal nat_of_ascii) in Heq.
    rewrite nat_ascii_embedding, Hslash in Heq by lia. lia.
Qed.

(** No word of the table holds a slash, so no text with a slash in it
    becomes one in lower case. *)
Lemma slash_not_tableWord (s t : string) :
  ~ In (toLowerCase (s ++ String "/" t)) tableWords.
Proof.
  intros Hin.
  assert (Hfree : stringAll (fun a => negb (Ascii.eqb a "/"))
                            (toLowerCase (s ++ String "/" t)) = true).
  { revert Hin. generalize (toLowerCase (s ++ String "/" t)). intros w Hin.
    vm_compute in Hin.
    repeat (destruct Hin as [<- | Hin]; [reflexivity | ]). contradiction. }
  clear Hin. induction s as [| a s IH]; simpl in Hfree.
  - discriminate.
  - rewrite lowerChar_not_slash in Hfree.
    apply andb_true_iff in Hfree. now apply IH.
Qed.

(** The default is returned exactly when no name occurs in the path and
    the extension is no word of the table. *)
Lemma categorizeFile_other (p : string) :
  categorizeFile p = "other"
  <-> namesFree p /\ ~ In (extOf p) tableWords.
Proof.
  unfold categorizeFile, namesFree, tableWords.
  generalize (extOf p) as ext. intros ext.
  assert (Hother : ~ In "other" (map fst categories)).
  { simpl. intros H.
    repeat (destruct H as [H | H]; [discriminate H | ]). contradiction. }
  revert Hother. induction categories as [| [c exts] rest IH]; simpl; intros Hother.
  - split; [intros _; split; [intros c [] | intros []] | reflexivity].
  - destruct (arrayIncludes exts ext) eqn:Hext; simpl.
    + split.
      * intros Heq. exfalso. apply Hother. now left.
      * intros [_ Hno]. exfalso. apply Hno. apply in_or_app. left.
        now apply arrayIncludes_In.
    + destruct (strIncludes p c) eqn:Hname.
      * split.
        -- intros Heq. exfalso. apply Hother. now left.
        -- intros [Hnames _]. rewrite (Hnames c (or_introl eq_refl)) in Hname.
           discriminate.
      * rewrite IH by tauto. split.
        -- intros [Hnames Hno]. split.
           ++ intros c' [<- | Hc']; [exact Hname | now apply Hnames].
           ++ intros Hin. apply in_app_or in Hin. destruct Hin as [Hin | Hin].
              ** apply arrayIncludes_In in Hin. congruence.
              ** now apply Hno.
        -- intros [Hnames Hno]. split.
           ++ intros c' Hc'. apply Hnames. now right.
           ++ intros Hin. apply Hno. apply in_or_app. now right.
Qed.

End Extensions.

(** C5, as amended: classification is total, with a result in the closed
    enumeration, and the empty path is [other].  A path without a file
    extension is not always [other]: for an ASCII path made of a directory
    part and a last segment, when the last segment holds no dot the path
    is [other] exactly when no category name occurs in it and, if there is
    no directory part, the segment in lower case is no word of the
    extension table; when the last segment is the name of a dot-file the
    path is [other] exactly when no category name occurs in it and the
    name behind the dot, in lower case, is no word of the table. *)
Theorem categorizeFile_total_default (p : string) :
  In (categorizeFile p) categoryNames
  /\ categorizeFile "" = "other"
  /\ (isAscii p = true ->
      forall dir base, lastSegment p dir base ->
        (noDot base ->
         (categorizeFile p = "other"
          <-> namesFree p
              /\ (dir = "" -> ~ In (toLowerCase base) tableWords)))
        /\ (forall nm, base = String "." nm -> noDot nm ->
            (categorizeFile p = "other"
             <-> namesFree p /\ ~ In (toLowerCase nm) tableWords))).
Proof.
  split; [apply firstMatch_in | split; [reflexivity | ]].
  intros _ dir base [-> [Hdir _]]. split.
  - intros Hbase. rewrite categorizeFile_other.
    destruct Hdir as [-> | [d ->]].
    + simpl append. rewrite (extOf_no_dot base Hbase). tauto.
    + assert (Hext : ~ In (extOf ((d ++ "/") ++ base)) tableWords).
      { rewrite append_assoc. simpl append.
        apply noDot_free in Hbase.
        destruct (free_or_last "." d) as [Hfree | [front [tail [-> Htail]]]].
        - rewrite extOf_no_dot.
          + apply slash_not_tableWord.
          + apply noDot_free. rewrite stringAll_app, Hfree. simpl.
            exact Hbase.
        - rewrite append_assoc. simpl append.
          rewrite extOf_last_dot.
          + apply slash_not_tableWord.
          + apply noDot_free. rewrite stringAll_app, Htail. simpl.
            exact Hbase. }
      split; [intros [Hnames _]; split; [exact Hnames | ] | ].
      * intros Hempty. destruct d; discriminate.
      * intros [Hnames _]. now split.
  - intros nm -> Hnm. rewrite categorizeFile_other.
    now rewrite (extOf_last_dot dir nm Hnm).
Qed.

(** A licence file in a directory whose name holds a dot, and a dot-file,
    have no file extension and are [other]. *)
Lemma categorizeFile_total_default_witness :
  hasNoExtension "v1.2/LICENSE" /\ categorizeFile "v1.2/LICENSE" = "other"
  /\ hasNoExtension ".gitignore" /\ categorizeFile ".gitignore" = "other".
Proof.
  assert (Hseg : lastSegment "v1.2/LICENSE" "v1.2/" "LICENSE").
  { split; [reflexivity | ]. split; [ | reflexivity].
    right. now exists "v1.2". }
  assert (Hdot : lastSegment ".gitignore" "" ".gitignore").
  { split; [reflexivity | ]. split; [now left | reflexivity]. }
  assert (Hnames : forall p,
             forallb (fun c => negb (strIncludes p c)) (map fst categories)
             = true -> namesFree p).
  { intros p Hall c Hc. rewrite forallb_forall in Hall.
    specialize (Hall c Hc). now apply negb_true_iff in Hall. }
  split; [exists "v1.2/", "LICENSE"; split; [exact Hseg | now left] | ].
  split.
  - apply (proj1 (proj2 (proj2 (categorizeFile_total_default "v1.2/LICENSE"))
                    eq_refl "v1.2/" "LICENSE" Hseg) eq_refl).
    split; [now apply Hnames | discriminate].
  - split; [exists "", ".gitignore"; split; [exact Hdot | right];
            now exists "gitignore" | ].
    apply (proj2 (proj2 (proj2 (categorizeFile_total_default ".gitignore"))
                    eq_refl "" ".gitignore" Hdot) "gitignore" eq_refl eq_refl).
    split; [now apply Hnames | ].
    intros Hin. vm_compute in Hin.
    repeat (destruct Hin as [Hin | Hin]; [discriminate Hin | ]). contradiction.
Defined.

(** C5 as stated fails: [data/README] has no file extension and is
    classified [data], by the substring test on the category name. *)
Lemma categorizeFile_no_extension_counterexample :
  ~ (forall p : string, hasNoExtension p -> categorizeFile p = "other").
Proof.
  intros Hclaim.
  assert (Hno : hasNoExtension "data/README").
  { exists "data/", "README". split; [ | now left].
    split; [reflexivity | ]. split; [ | reflexivity].
    right. now exists "data". }
  specialize (Hclaim "data/README" Hno).
  assert (Hres : categorizeFile "data/README" = "data") by reflexivity.
  rewrite Hres in Hclaim. discriminate Hclaim.
Qed.

(** ** Advisory rules *)

Section Recommendations.

Lemma In_pushIf (x : string) (cond : bool) (items r : list string) :
  In x (pushIf cond items r) <-> In x r \/ (cond = true /\ In x items).
Proof.
  unfold pushIf. destruct cond.
  - rewrite in_app_iff. intuition congruence.
  - intuition congruence.
Qed.

Lemma adviceStoreBloat_not_manyLarge (count : nat) :
  adviceStoreBloat <> adviceManyLarge count.
Proof. unfold adviceStoreBloat, adviceManyLarge. simpl. discriminate. Qed.

(** The store-bloat advisory is in the list exactly when its own test
    passes: no other rule pushes that string. *)
Lemma generateRecommendations_storeBloat
  (objects : list GitObject) (gitDir workingDir : number) :
  In adviceStoreBloat (generateRecommendations objects gitDir workingDir)
  <-> gt gitDir (times workingDir 3) = true.
Proof.
  unfold generateRecommendations. cbv zeta.
  repeat rewrite In_pushIf. simpl In.
  pose proof (adviceStoreBloat_not_manyLarge
                (List.length (filter (fun o => (10 * MB <? size o)%Z) objects))).
  split.
  - intros H1.
    repeat match goal with
           | H : _ \/ _ |- _ => destruct H
           | H : _ /\ _ |- _ => destruct H
           | H : False |- _ => contradiction
           | H : _ = adviceStoreBloat |- _ =>
               first [ discriminate H | symmetry in H; contradiction ]
           end; assumption.
  - intros Hgt. do 2 left. right. split; [assumption | now left].
Qed.

End Recommendations.

(** ** The command handler *)

Section Handler.

(** What a JSON report is made of. *)
Lemma bloatCommand_json (w : World) (options : Options) (r : JsonReport) :
  bloatCommand w options = PrintedJson r ->
  exists objects,
    getAllObjects w (scopeOf options) = Returns objects
    /\ stats r =
         {| gitDirSize := getGitDirSize w;
            workingDirSize := getWorkingDirSize w;
            totalObjectSize := sumSizes objects;
            objectCount := List.length objects;
            largeObjectCount := List.length (atLeast (minSizeOf options) objects);
            ratio := toFixed 2 (divide (getGitDirSize w) (getWorkingDirSize w)) |}
    /\ largestFiles r =
         map (fun o => {| object := o; category := categorizeFile (path o) |})
             (sliceTo (atLeast (minSizeOf options) objects) (limitOf options))
    /\ recommendations r =
         generateRecommendations objects (getGitDirSize w) (getWorkingDirSize w).
Proof.
  unfold bloatCommand, scopeOf, minSizeOf, limitOf, atLeast.
  destruct (isGitRepo w); simpl; [ | discriminate].
  destruct (getAllObjects w _) as [objects | message]; [ | discriminate].
  destruct (match output options with Some o => _ | None => false end);
    [ | discriminate].
  intros Heq. injection Heq as <-. exists objects. simpl. auto.
Qed.

End Handler.

(** C2, as amended: the store-bloat advisory is issued exactly when the
    reported size of the history store exceeds three times the reported
    size of the working tree.  A working tree reported as 0, which is what
    an unavailable measurement gives, is not told apart: the advisory is
    then issued exactly when the history store is not empty, and the ratio
    is the unguarded quotient, printed [Infinity] (or [NaN] for 0 / 0). *)
Theorem storeBloat_rule_as_reported
  (w : World) (options : Options) (r : JsonReport) (g d : Z) :
  bloatCommand w options = PrintedJson r ->
  getGitDirSize w = Num g ->
  getWorkingDirSize w = Num d ->
  (In adviceStoreBloat (recommendations r) <-> (3 * d < g)%Z)
  /\ (d = 0%Z ->
      (In adviceStoreBloat (recommendations r) <-> (0 < g)%Z)
      /\ ratio (stats r) =
           if (0 <? g)%Z then "Infinity"
           else if (g <? 0)%Z then "-Infinity" else "NaN").
Proof.
  intros Hrun Hg Hd.
  destruct (bloatCommand_json w options r Hrun)
    as [objects [_ [Hstats [_ Hrec]]]].
  rewrite Hrec, Hstats, Hg, Hd. cbn [ratio].
  rewrite generateRecommendations_storeBloat.
  unfold gt, times, divide. rewrite Z.ltb_lt.
  split; [lia | ].
  intros ->. split; [lia | ].
  rewrite Z.eqb_refl.
  destruct (0 <? g)%Z; [reflexivity | ].
  destruct (g <? 0)%Z; reflexivity.
Qed.

(** The rule on a repository whose working tree could not be measured:
    4 KB of history store against a reported 0. *)
Lemma storeBloat_rule_as_reported_witness :
  exists r,
    bloatCommand unmeasuredWorld jsonOptions = PrintedJson r
    /\ In adviceStoreBloat (recommendations r)
    /\ ratio (stats r) = "Infinity".
Proof.
  eexists. split; [reflexivity | ].
  destruct (storeBloat_rule_as_reported unmeasuredWorld jsonOptions _ 4096 0
              eq_refl eq_refl eq_refl) as [_ Hzero].
  destruct (Hzero eq_refl) as [Hfires Hratio].
  split; [apply Hfires; reflexivity | exact Hratio].
Defined.

(** C2 as stated fails on a repository whose working tree cannot be
    measured ([find] throws, so 0 is reported) and whose history store
    takes 4 KB: the advisory is issued all the same, and the ratio is the
    result of a division by zero. *)
Lemma storeBloat_unavailable_counterexample :
  getWorkingDirSize unmeasuredWorld = Num 0
  /\ ~ (forall (w : World) (options : Options) (r : JsonReport),
          bloatCommand w options = PrintedJson r ->
          getWorkingDirSize w = Num 0 ->
          ~ In adviceStoreBloat (recommendations r))
  /\ ~ (forall (w : World) (options : Options) (r : JsonReport),
          bloatCommand w options = PrintedJson r ->
          getWorkingDirSize w = Num 0 ->
          ratio (stats r) <> "Infinity").
Proof.
  split; [reflexivity | split]; intros Hclaim.
  - apply (Hclaim unmeasuredWorld jsonOptions _ eq_refl eq_refl).
    apply generateRecommendations_storeBloat. reflexivity.
  - apply (Hclaim unmeasuredWorld jsonOptions _ eq_refl eq_refl).
    reflexivity.
Qed.

(** ** Facts about numerals *)

Section Numerals.

Lemma digit_char (d : N) :
  (d < 10)%N ->
  isDigit (ascii_of_N (48 + d)) = true
  /\ Z.of_nat (nat_of_ascii (ascii_of_N (48 + d)) - 48) = Z.of_N d.
Proof.
  intros Hd.
  assert (Hcases : In d [0; 1; 2; 3; 4; 5; 6; 7; 8; 9]%N).
  { simpl. lia. }
  simpl in Hcases.
  repeat (destruct Hcases as [<- | Hcases]; [split; reflexivity | ]).
  contradiction.
Qed.

Lemma isDigit_not_space (a : ascii) : isDigit a = true -> isSpace a = false.
Proof.
  unfold isDigit, isSpace. cbv zeta. intros H.
  apply andb_true_iff in H. destruct H as [H1 H2].
  apply Nat.leb_le in H1. apply Nat.leb_le in H2.
  apply orb_false_iff. split.
  - apply andb_false_iff. right. apply Nat.leb_gt. lia.
  - apply Nat.eqb_neq. lia.
Qed.

Lemma isDigit_not_char (a c : ascii) :
  isDigit c = false -> isDigit a = true -> Ascii.eqb a c = false.
Proof.
  intros Hc Ha. destruct (Ascii.eqb_spec a c) as [-> | Hne]; congruence.
Qed.

Lemma digitsValue_snoc (s : string) (d : ascii) :
  stringAll isDigit s = true -> isDigit d = true ->
  forall acc seen,
    digitsValue acc seen (s ++ String d "")
    = ((fst (digitsValue acc seen s) * 10
        + Z.of_nat (nat_of_ascii d - 48))%Z, true).
Proof.
  intros Hs Hd. induction s as [| a s IH]; intros acc seen; simpl.
  - now rewrite Hd.
  - simpl in Hs. apply andb_true_iff in Hs. destruct Hs as [Ha Hs].
    rewrite Ha. now apply IH.
Qed.

Lemma decimalFuel_value (f : nat) :
  forall n : N,
    (n < 2 ^ N.of_nat f)%N ->
    stringAll isDigit (decimalFuel (S f) n) = true
    /\ digitsValue 0 false (decimalFuel (S f) n) = (Z.of_N n, true).
Proof.
  induction f as [| f IH]; intros n Hn.
  - assert (n = 0%N) as -> by (simpl in Hn; lia). split; reflexivity.
  - change (decimalFuel (S (S f)) n)
      with ((if (n <? 10)%N then "" else decimalFuel (S f) (n / 10))
            ++ String (ascii_of_N (48 + n mod 10)) "")%string.
    assert (Hmod : (n mod 10 < 10)%N) by (apply N.mod_lt; lia).
    destruct (digit_char _ Hmod) as [Hdig Hval].
    destruct (N.ltb_spec n 10) as [Hsmall | Hbig].
    + cbn [String.append stringAll digitsValue].
      rewrite Hdig, Hval. rewrite N.mod_small by assumption.
      split; reflexivity.
    + assert (Hq : (n / 10 < 2 ^ N.of_nat f)%N).
      { apply N.Div0.div_lt_upper_bound.
        rewrite Nat2N.inj_succ, N.pow_succ_r' in Hn. lia. }
      destruct (IH _ Hq) as [Hall Hv]. split.
      * rewrite stringAll_app, Hall. cbn [stringAll]. now rewrite Hdig.
      * rewrite (digitsValue_snoc _ _ Hall Hdig), Hv, Hval. simpl fst.
        f_equal. pose proof (N.div_mod n 10). lia.
Qed.

Lemma decimal_digits (n : N) : stringAll isDigit (decimal n) = true.
Proof.
  unfold decimal. apply decimalFuel_value.
  rewrite N2Nat.id. apply N.size_gt.
Qed.

Lemma decimal_value (n : N) :
  digitsValue 0 false (decimal n) = (Z.of_N n, true).
Proof.
  unfold decimal. apply decimalFuel_value.
  rewrite N2Nat.id. apply N.size_gt.
Qed.

(** A numeral starts with a digit. *)
Lemma decimal_head (n : N) :
  exists a t, decimal n = String a t /\ isDigit a = true.
Proof.
  pose proof (decimal_digits n) as Hall.
  pose proof (decimal_value n) as Hval.
  destruct (decimal n) as [| a t]; [discriminate | ].
  exists a, t. split; [reflexivity | ].
  simpl in Hall. now apply andb_true_iff in Hall.
Qed.

(** [parseInt] reads a numeral back. *)
Lemma parseInt_decimal (n : N) : parseInt (decimal n) = Num (Z.of_N n).
Proof.
  destruct (decimal_head n) as [a [t [Heq Ha]]].
  unfold parseInt. pose proof (decimal_value n) as Hval.
  rewrite Heq in *. simpl trimStart.
  rewrite (isDigit_not_space a Ha).
  rewrite (isDigit_not_char a "-" eq_refl Ha).
  rewrite (isDigit_not_char a "+" eq_refl Ha).
  simpl orb. cbv iota. now rewrite Hval.
Qed.

End Numerals.

(** ** The size resolver against the object store *)

Section Resolver.

Variable store : string -> option N.
Variable hashToPath : list (string * string).

Lemma goodName_nonempty (h : string) : goodName store h -> h <> "".
Proof.
  intros [_ Hsize] ->. apply Hsize. reflexivity.
Qed.

Lemma noSpace_free (c : ascii) (s : string) :
  isSpace c = true -> noSpace s = true ->
  stringAll (fun a => negb (Ascii.eqb a c)) s = true.
Proof.
  intros Hc. apply stringAll_impl. intros a Ha.
  destruct (Ascii.eqb_spec a c) as [-> | _]; [ | reflexivity].
  now rewrite Hc in Ha.
Qed.

Lemma digits_free (c : ascii) (s : string) :
  isDigit c = false -> stringAll isDigit s = true ->
  stringAll (fun a => negb (Ascii.eqb a c)) s = true.
Proof.
  intros Hc. apply stringAll_impl. intros a Ha.
  now rewrite (isDigit_not_char a c Hc Ha).
Qed.

Lemma objectLine_resolved (h : string) (n : N) :
  objectSize store h = Some n ->
  objectLine store h = (decimal n ++ String " " h)%string.
Proof. unfold objectLine. now intros ->. Qed.

(** The line of a resolved name is read back as its object. *)
Lemma readSizeLine_objectLine (h : string) (objects : list GitObject) :
  goodName store h ->
  readSizeLine hashToPath objects (objectLine store h)
  = objects ++ [entryOf hashToPath store h].
Proof.
  intros Hgood. pose proof (goodName_nonempty h Hgood) as Hne.
  destruct Hgood as [Hns Hsize].
  destruct (objectSize store h) as [n | ] eqn:Hn; [ | congruence].
  rewrite (objectLine_resolved h n Hn). unfold readSizeLine.
  rewrite splitOn_app_sep
    by (apply digits_free; [reflexivity | apply decimal_digits]).
  rewrite splitOn_free by (now apply noSpace_free).
  cbn [hd nth_error]. rewrite parseInt_decimal.
  destruct (String.eqb_spec h "") as [-> | _]; [congruence | ].
  unfold entryOf. now rewrite Hn.
Qed.

Lemma objectLine_free (h : string) :
  goodName store h ->
  stringAll (fun a => negb (Ascii.eqb a LF)) (objectLine store h) = true.
Proof.
  intros [Hns Hsize].
  destruct (objectSize store h) as [n | ] eqn:Hn; [ | congruence].
  rewrite (objectLine_resolved h n Hn), stringAll_app.
  rewrite digits_free by (reflexivity || apply decimal_digits).
  cbn [stringAll]. rewrite noSpace_free by (reflexivity || assumption).
  reflexivity.
Qed.

Lemma objectLine_head (h : string) :
  goodName store h ->
  exists a t, objectLine store h = String a t /\ isSpace a = false.
Proof.
  intros [Hns Hsize].
  destruct (objectSize store h) as [n | ] eqn:Hn; [ | congruence].
  rewrite (objectLine_resolved h n Hn).
  destruct (decimal_head n) as [a [t [-> Ha]]].
  exists a, (t ++ String " " h)%string. split; [reflexivity | ].
  now apply isDigit_not_space.
Qed.

Lemma objectLine_end (h : string) :
  goodName store h -> endsNonSpace (objectLine store h) = true.
Proof.
  intros Hgood. pose proof (goodName_nonempty h Hgood) as Hne.
  destruct Hgood as [Hns Hsize].
  destruct (objectSize store h) as [n | ] eqn:Hn; [ | congruence].
  rewrite (objectLine_resolved h n Hn).
  rewrite endsNonSpace_app by discriminate.
  destruct h as [| b h]; [congruence | ].
  change (endsNonSpace (String b h) = true).
  apply endsNonSpace_noSpace; [discriminate | assumption].
Qed.

(** Lines that start and end with something other than white space, once
    joined, start and end so. *)
Lemma join_lines_clean (lines : list string) :
  lines <> [] ->
  Forall (fun x => (exists a t, x = String a t /\ isSpace a = false)
                   /\ endsNonSpace x = true) lines ->
  exists a t, join NL lines = String a t
              /\ isSpace a = false
              /\ endsNonSpace (String a t) = true.
Proof.
  unfold join. induction lines as [| x lines IH]; [congruence | ].
  intros _ Hall. inversion Hall as [| ? ? [[a [t [Hx Ha]]] Hend] Hrest]; subst.
  destruct lines as [| y lines].
  - exists a, t. auto.
  - destruct IH as [b [u [Hjoin [Hb Hu]]]]; [discriminate | assumption | ].
    change (String.concat NL (String a t :: y :: lines))
      with (String a t ++ NL ++ String.concat NL (y :: lines))%string.
    rewrite Hjoin.
    exists a, (t ++ NL ++ String b u)%string. repeat split; try assumption.
    change (String a (t ++ NL ++ String b u))
      with (String a t ++ String LF (String b u))%string.
    rewrite endsNonSpace_app by discriminate. exact Hu.
Qed.

Lemma concat_lines {A} (f : A -> string) (l : list A) :
  l <> [] ->
  String.concat "" (map (fun x => (f x ++ NL)%string) l)
  = (join NL (map f l) ++ NL)%string.
Proof.
  unfold join. induction l as [| x l IH]; [congruence | ]. intros _.
  destruct l as [| y l]; [reflexivity | ].
  change (String.concat "" (map (fun x => (f x ++ NL)%string) (x :: y :: l)))
    with ((f x ++ NL) ++ "" ++
          String.concat "" (map (fun x => (f x ++ NL)%string) (y :: l)))%string.
  rewrite IH by discriminate.
  change (String.concat NL (map f (x :: y :: l)))
    with (f x ++ NL ++ String.concat NL (map f (y :: l)))%string.
  cbn [String.append]. now rewrite !append_assoc.
Qed.

Lemma last_in {A} (l : list A) (d : A) : l <> [] -> In (last l d) l.
Proof.
  induction l as [| x l IH]; [congruence | ]. intros _.
  destruct l as [| y l]; [now left | ].
  right. apply IH. discriminate.
Qed.

(** git reads the names of a batch back from its standard input. *)
Lemma stdinLines_join (batch : list string) :
  batch <> [] -> Forall (goodName store) batch ->
  stdinLines (join NL batch) = batch.
Proof.
  intros Hne Hall. unfold stdinLines, NL.
  rewrite splitOn_join; [ | assumption | ].
  - destruct (String.eqb_spec (last batch "") "") as [Hlast | _];
      [ | reflexivity].
    exfalso. rewrite Forall_forall in Hall.
    apply (goodName_nonempty (last batch "")); [ | assumption].
    apply Hall. now apply last_in.
  - eapply Forall_impl; [ | exact Hall].
    intros h [Hns _]. now apply noSpace_free.
Qed.

(** The answer to a batch of good names, read by the loop body, is one
    object per name, in the order of the batch. *)
Lemma readBatchAnswer (batch : list string) (objects : list GitObject) :
  batch <> [] -> Forall (goodName store) batch ->
  fold_left (readSizeLine hashToPath)
            (splitOn LF (trim (batchCheck store (join NL batch)))) objects
  = objects ++ map (entryOf hashToPath store) batch.
Proof.
  intros Hne Hall. unfold batchCheck.
  rewrite (stdinLines_join batch Hne Hall).
  rewrite (concat_lines (objectLine store) batch Hne).
  destruct (join_lines_clean (map (objectLine store) batch))
    as [a [t [Hjoin [Ha Hend]]]].
  { destruct batch; [congruence | discriminate]. }
  { apply Forall_map. eapply Forall_impl; [ | exact Hall].
    intros h Hh. split; [now apply objectLine_head | now apply objectLine_end]. }
  rewrite Hjoin, (trim_line_feed a t Ha Hend), <- Hjoin.
  unfold NL. rewrite splitOn_join.
  - clear Hne Hjoin. revert objects.
    induction Hall as [| h batch Hh Hall IH]; intros objects.
    + simpl. now rewrite app_nil_r.
    + simpl. rewrite (readSizeLine_objectLine h objects Hh), IH.
      now rewrite <- app_assoc.
  - destruct batch; [congruence | discriminate].
  - apply Forall_map. eapply Forall_impl; [ | exact Hall].
    intros h Hh. now apply objectLine_free.
Qed.

End Resolver.

(** A name the store does not know is answered [name missing]; the loop
    body then takes the digits the name starts with for a size and
    [missing] for the name.  The statements about the resolver are made for
    stores that know every listed name, as the store of a repository knows
    the names its own listing gives. *)
Example missing_name_line :
  readSizeLine [] [] (objectLine sampleStore "123abc")
  = [ {| hash := "missing"; path := "(unknown)"; size := 123 |} ].
Proof. reflexivity. Qed.

(** ** The batch loop *)

Section BatchLoop.

Lemma clampIndex_nat (len k : nat) : clampIndex len (Z.of_nat k) = Nat.min k len.
Proof.
  unfold clampIndex. destruct (Z.ltb_spec (Z.of_nat k) 0) as [Hneg | _];
    [lia | ]. now rewrite Nat2Z.id.
Qed.

(** Inside the array a slice of [b] elements from [i] is a [firstn] of a
    [skipn]; at the end it is shorter. *)
Lemma slice_batch {A} (l : list A) (i b : nat) :
  slice l (Z.of_nat i) (Z.of_nat (i + b)) = firstn b (skipn i l).
Proof.
  unfold slice. rewrite !clampIndex_nat.
  destruct (Nat.le_gt_cases (List.length l) i) as [Hout | Hin].
  - rewrite (skipn_all2 l) by lia. rewrite skipn_all2 by lia.
    now rewrite !firstn_nil.
  - rewrite (Nat.min_l i) by lia.
    destruct (Nat.le_gt_cases (i + b) (List.length l)) as [Hfit | Hcut].
    + rewrite Nat.min_l by lia. f_equal. lia.
    + rewrite Nat.min_r by lia.
      rewrite (firstn_all2 (n := b)) by (rewrite length_skipn; lia).
      apply firstn_all2. rewrite length_skipn. lia.
Qed.

Lemma slice_tail {A} (x : A) (l : list A) :
  slice (x :: l) 1 (Z.of_nat (List.length (x :: l))) = l.
Proof.
  change 1%Z with (Z.of_nat 1).
  replace (List.length (x :: l)) with (1 + List.length l) by reflexivity.
  rewrite slice_batch. simpl skipn. apply firstn_all.
Qed.

Lemma firstn_skipn_step {A} (l : list A) (i k : nat) :
  firstn k (skipn i l) ++ skipn (i + k) l = skipn i l.
Proof.
  replace (skipn (i + k) l) with (skipn k (skipn i l))
    by (rewrite skipn_skipn; f_equal; lia).
  apply firstn_skipn.
Qed.

(** The loop is a fold of its body over the batches. *)
Lemma batchLoop_fold (w : World) (hashToPath : list (string * string))
  (b : positive) (hashes : list string) (i : nat) (objects : list GitObject) :
  batchLoop w hashToPath b hashes i objects
  = fold_left (fun acc batch => resolveBatch w hashToPath batch acc)
              (batchesFrom b hashes i) objects.
Proof.
  funelim (batchLoop w hashToPath b hashes i objects);
    rewrite batchesFrom_equation_1, Heq; simpl.
  - match goal with IH : batchLoop _ _ _ _ _ _ = fold_left _ _ _ |- _ =>
      exact IH end.
  - reflexivity.
Qed.

(** The batches, put end to end, are the names from [i] on. *)
Lemma batchesFrom_concat (b : positive) (hashes : list string) (i : nat) :
  List.concat (batchesFrom b hashes i) = skipn i hashes.
Proof.
  funelim (batchesFrom b hashes i); simpl.
  - match goal with IH : List.concat _ = _ |- _ => rewrite IH end.
    rewrite slice_batch. apply firstn_skipn_step.
  - symmetry. apply skipn_all2. lia.
Qed.

(** No batch is empty. *)
Lemma batchesFrom_nonempty (b : positive) (hashes : list string) (i : nat) :
  Forall (fun batch => batch <> []) (batchesFrom b hashes i).
Proof.
  funelim (batchesFrom b hashes i); [ | constructor].
  constructor; [ | assumption].
  rewrite slice_batch. intros Hnil.
  apply (f_equal (@List.length string)) in Hnil.
  rewrite length_firstn, length_skipn in Hnil. simpl in Hnil. lia.
Qed.

Lemma batchesFrom_incl (b : positive) (hashes : list string) (i : nat)
  (batch : list string) (h : string) :
  In batch (batchesFrom b hashes i) -> In h batch -> In h hashes.
Proof.
  intros Hbatch Hh.
  assert (Hin : In h (List.concat (batchesFrom b hashes i))).
  { apply in_concat. now exists batch. }
  rewrite batchesFrom_concat in Hin.
  rewrite <- (firstn_skipn i hashes). apply in_or_app. now right.
Qed.

End BatchLoop.

(** ** The [hashToPath] map *)

Section Listing.

Lemma get_set (k h v : string) (m : list (string * string)) :
  Map.get h (Map.set k v m) = if String.eqb k h then Some v else Map.get h m.
Proof.
  induction m as [| [k' v'] m IH]; simpl; [reflexivity | ].
  destruct (String.eqb_spec k' k) as [-> | Hne]; simpl.
  - destruct (String.eqb_spec k h); reflexivity.
  - rewrite IH. destruct (String.eqb_spec k' h) as [-> | Hne'];
      [ | reflexivity].
    destruct (String.eqb_spec k h); [congruence | reflexivity].
Qed.

Lemma keys_set_in {V} (k h : string) (v : V) (m : list (string * V)) :
  In h (Map.keys (Map.set k v m)) <-> h = k \/ In h (Map.keys m).
Proof.
  unfold Map.keys. induction m as [| [k' v'] m IH]; simpl.
  - intuition congruence.
  - destruct (String.eqb_spec k' k) as [-> | Hne]; simpl.
    + intuition congruence.
    + rewrite IH. intuition congruence.
Qed.

Lemma keys_set_nodup {V} (k : string) (v : V) (m : list (string * V)) :
  NoDup (Map.keys m) -> NoDup (Map.keys (Map.set k v m)).
Proof.
  induction m as [| [k' v'] m IH]; simpl; intros Hnd.
  - constructor; [intros [] | constructor].
  - inversion Hnd as [| ? ? Hnotin Hrest]; subst.
    destruct (String.eqb_spec k' k) as [-> | Hne]; simpl.
    + now constructor.
    + constructor; [ | now apply IH].
      intros Hin. apply (keys_set_in k k' v m) in Hin.
      destruct Hin as [-> | Hin]; [congruence | contradiction].
Qed.

(** One turn of the listing loop sets the entry of the line. *)
Lemma recordLine_entry (m : list (string * string)) (line : string) :
  recordLine m line = Map.set (fst (lineEntry line)) (snd (lineEntry line)) m.
Proof.
  unfold recordLine, lineEntry. cbv zeta. simpl fst. simpl snd.
  pose proof (splitWs_nonempty line) as Hne.
  destruct (splitWs line) as [| x [| y r]]; [congruence | reflexivity | ].
  rewrite slice_tail. reflexivity.
Qed.

Lemma readListing_fold (output : string) :
  readListing output = fold_left setEntry (listingEntries output) [].
Proof.
  unfold readListing, listingEntries.
  generalize (@nil (string * string)) as m.
  induction (splitOn LF (trim output)) as [| line lines IH]; intros m;
    [reflexivity | ].
  simpl. rewrite recordLine_entry. apply IH.
Qed.

Lemma lastValue_snoc (h : string) (entries : list (string * string))
  (e : string * string) :
  lastValue h (entries ++ [e])
  = if String.eqb (fst e) h then Some (snd e) else lastValue h entries.
Proof. unfold lastValue. now rewrite fold_left_app. Qed.

(** After the loop a name is mapped to the path of its last line. *)
Lemma get_fold (h : string) (entries : list (string * string)) :
  Map.get h (fold_left setEntry entries []) = lastValue h entries.
Proof.
  induction entries as [| e entries IH] using rev_ind; [reflexivity | ].
  rewrite fold_left_app, lastValue_snoc. simpl. unfold setEntry at 1.
  now rewrite get_set, IH.
Qed.

Lemma keys_fold_in (h : string) (entries : list (string * string)) :
  In h (Map.keys (fold_left setEntry entries [])) <-> In h (map fst entries).
Proof.
  induction entries as [| e entries IH] using rev_ind; [reflexivity | ].
  rewrite fold_left_app, map_app, in_app_iff. simpl. unfold setEntry at 1.
  rewrite keys_set_in, IH. intuition congruence.
Qed.

Lemma keys_fold_nodup (entries : list (string * string)) :
  NoDup (Map.keys (fold_left setEntry entries [])).
Proof.
  induction entries as [| e entries IH] using rev_ind; [constructor | ].
  rewrite fold_left_app. simpl. now apply keys_set_nodup.
Qed.

Lemma keys_set {V} (k : string) (v : V) (m : list (string * V)) :
  Map.keys (Map.set k v m)
  = if arrayIncludes (Map.keys m) k then Map.keys m else Map.keys m ++ [k].
Proof.
  unfold Map.keys, arrayIncludes.
  induction m as [| [k' v'] m IH]; simpl; [reflexivity | ].
  rewrite (String.eqb_sym k k').
  destruct (String.eqb_spec k' k) as [-> | Hne]; simpl; [reflexivity | ].
  rewrite IH. now destruct (existsb (String.eqb k) (map fst m)).
Qed.

(** The keys of the map are the names of the listing, each at the place
    of its first line. *)
Lemma keys_fold_firstSeen (entries m : list (string * string)) :
  Map.keys (fold_left setEntry entries m)
  = firstSeen (Map.keys m) (map fst entries).
Proof.
  revert m. induction entries as [| e entries IH]; intros m; [reflexivity | ].
  simpl. rewrite IH. unfold setEntry at 1. rewrite keys_set.
  unfold firstSeen. simpl. reflexivity.
Qed.

Lemma readListing_firstSeen (output : string) :
  Map.keys (readListing output) = firstSeen [] (listedNames output).
Proof. rewrite readListing_fold. apply keys_fold_firstSeen. Qed.

Lemma readListing_get (output h : string) :
  Map.get h (readListing output) = lastListedPath output h.
Proof. rewrite readListing_fold. apply get_fold. Qed.

Lemma readListing_keys (output h : string) :
  In h (Map.keys (readListing output)) <-> In h (listedNames output).
Proof. rewrite readListing_fold. apply keys_fold_in. Qed.

(** The map has one entry for each name of the listing. *)
Lemma readListing_nodup (output : string) :
  NoDup (Map.keys (readListing output)).
Proof. rewrite readListing_fold. apply keys_fold_nodup. Qed.

(** A name of the listing holds no white space. *)
Lemma listedNames_noSpace (output h : string) :
  In h (listedNames output) -> noSpace h = true.
Proof.
  unfold listedNames, listingEntries. rewrite map_map, in_map_iff.
  intros [line [<- _]]. unfold lineEntry. simpl.
  pose proof (splitWs_noSpace line) as Hall.
  destruct (splitWs line) as [| x r]; [reflexivity | ].
  now inversion Hall.
Qed.

End Listing.

(** ** The sort of the inventory *)

Section SortFacts.

Lemma insertBy_perm {A} (cmp : A -> A -> Z) (x : A) (l : list A) :
  Permutation (insertBy cmp x l) (x :: l).
Proof.
  induction l as [| y l IH]; simpl; [reflexivity | ].
  destruct (cmp x y <=? 0)%Z; [reflexivity | ].
  rewrite IH. apply perm_swap.
Qed.

(** The sort rearranges the array. *)
Lemma sort_perm {A} (cmp : A -> A -> Z) (l : list A) :
  Permutation (sort cmp l) l.
Proof.
  induction l as [| x l IH]; simpl; [reflexivity | ].
  rewrite insertBy_perm. now constructor.
Qed.

Lemma insertBy_sorted (x : GitObject) (l : list GitObject) :
  Sorted notSmaller l -> Sorted notSmaller (insertBy bySizeDesc x l).
Proof.
  induction l as [| y l IH]; simpl; intros Hs.
  - repeat constructor.
  - unfold bySizeDesc at 1.
    destruct (Z.leb_spec (size y - size x) 0) as [Hle | Hgt].
    + constructor; [assumption | ]. constructor. unfold notSmaller. lia.
    + inversion Hs as [| ? ? Hl Hhd]; subst.
      constructor; [now apply IH | ].
      destruct l as [| z l]; simpl.
      * constructor. unfold notSmaller. lia.
      * unfold bySizeDesc at 1.
        destruct (Z.leb_spec (size z - size x) 0).
        -- constructor. unfold notSmaller. lia.
        -- constructor. now inversion Hhd.
Qed.

Lemma sort_sorted (l : list GitObject) : Sorted notSmaller (sort bySizeDesc l).
Proof.
  induction l as [| x l IH]; simpl; [constructor | now apply insertBy_sorted].
Qed.

(** In a sorted array each element is not smaller than the next one. *)
Lemma sorted_adjacent (l : list GitObject) :
  Sorted notSmaller l ->
  forall (i : nat) (a b : GitObject),
    nth_error l i = Some a -> nth_error l (S i) = Some b ->
    (size b <= size a)%Z.
Proof.
  induction 1 as [| x l Hl IH Hhd]; intros i a b Ha Hb.
  - destruct i; discriminate.
  - destruct i as [| i].
    + simpl in Ha, Hb. injection Ha as <-.
      destruct l as [| y l]; [discriminate | ].
      simpl in Hb. injection Hb as <-. now inversion Hhd.
    + simpl in Ha. apply (IH i a b Ha Hb).
Qed.

(** Insertion puts the new element in front of those of its size. *)
Lemma ofSize_insertBy (s : Z) (x : GitObject) (l : list GitObject) :
  ofSize s (insertBy bySizeDesc x l) = ofSize s (x :: l).
Proof.
  unfold ofSize. induction l as [| y l IH]; simpl; [reflexivity | ].
  unfold bySizeDesc at 1.
  destruct (Z.leb_spec (size y - size x) 0) as [Hle | Hgt]; [reflexivity | ].
  simpl. rewrite IH. simpl.
  destruct (Z.eqb_spec (size x) s) as [Hx | Hx]; [ | reflexivity].
  destruct (Z.eqb_spec (size y) s) as [Hy | Hy]; [lia | reflexivity].
Qed.

(** The sort is stable: the objects of one size keep their order. *)
Lemma sort_stable (s : Z) (l : list GitObject) :
  ofSize s (sort bySizeDesc l) = ofSize s l.
Proof.
  induction l as [| x l IH]; simpl; [reflexivity | ].
  rewrite ofSize_insertBy. unfold ofSize in *. simpl. now rewrite IH.
Qed.

Lemma ofSize_in (s : Z) (x : GitObject) (l : list GitObject) :
  In x (ofSize s l) <-> In x l /\ size x = s.
Proof.
  unfold ofSize. rewrite filter_In. now rewrite Z.eqb_eq.
Qed.

Lemma sorted_head_largest (x y : GitObject) (l : list GitObject) :
  Sorted notSmaller (x :: l) -> In y l -> (size y <= size x)%Z.
Proof.
  intros Hs Hin. apply Sorted_StronglySorted in Hs.
  - inversion Hs as [| ? ? _ Hall]; subst.
    rewrite Forall_forall in Hall. exact (Hall y Hin).
  - intros a b c Hab Hbc. unfold notSmaller in *. lia.
Qed.

(** Two sorted arrays that hold the objects of every size in the same
    order are the same array: what a stable sort returns is determined. *)
Lemma stable_sort_unique (l1 : list GitObject) :
  forall l2 : list GitObject,
    Sorted notSmaller l1 -> Sorted notSmaller l2 ->
    (forall s, ofSize s l1 = ofSize s l2) ->
    l1 = l2.
Proof.
  induction l1 as [| x l1 IH]; intros l2 Hs1 Hs2 Hsame.
  - destruct l2 as [| y l2]; [reflexivity | ].
    specialize (Hsame (size y)). unfold ofSize in Hsame. simpl in Hsame.
    rewrite Z.eqb_refl in Hsame. discriminate.
  - destruct l2 as [| y l2].
    + specialize (Hsame (size x)). unfold ofSize in Hsame. simpl in Hsame.
      rewrite Z.eqb_refl in Hsame. discriminate.
    + assert (Hxy : size x = size y).
      { destruct (Z.eq_dec (size x) (size y)) as [Heq | Hne]; [assumption | ].
        assert (Hx : In x (y :: l2)).
        { apply (ofSize_in (size x)). rewrite <- Hsame. apply ofSize_in.
          split; [now left | reflexivity]. }
        assert (Hy : In y (x :: l1)).
        { apply (ofSize_in (size y)). rewrite Hsame. apply ofSize_in.
          split; [now left | reflexivity]. }
        destruct Hx as [Hx | Hx]; [now subst | ].
        destruct Hy as [Hy | Hy]; [now subst | ].
        pose proof (sorted_head_largest y x l2 Hs2 Hx).
        pose proof (sorted_head_largest x y l1 Hs1 Hy). lia. }
      assert (Hhead : x = y).
      { specialize (Hsame (size x)). unfold ofSize in Hsame. simpl in Hsame.
        rewrite <- Hxy, Z.eqb_refl in Hsame. now injection Hsame. }
      subst y. f_equal. apply IH.
      * now inversion Hs1.
      * now inversion Hs2.
      * intros s. specialize (Hsame s). unfold ofSize in *. simpl in Hsame.
        destruct (size x =? s)%Z; [now injection Hsame | assumption].
Qed.

(** Whatever stable sort the engine runs, it returns what [sort] does. *)
Lemma sort_determined (l r : list GitObject) :
  Sorted notSmaller r -> (forall s, ofSize s r = ofSize s l) ->
  r = sort bySizeDesc l.
Proof.
  intros Hsorted Hsame. apply stable_sort_unique.
  - assumption.
  - apply sort_sorted.
  - intros s. now rewrite Hsame, sort_stable.
Qed.

End SortFacts.

(** C4: the inventory is in non-increasing order of size, each entry being
    at least as large as the next one, and the entries of one size stand in
    the order in which the batch loop pushed them: the sort is stable. *)
Theorem inventory_descending_stable
  (w : World) (b : positive) (incl : bool) (output : string)
  (objects : list GitObject) :
  revList w incl = Ok output ->
  getAllObjectsWith b w incl = Returns objects ->
  (forall (i : nat) (x y : GitObject),
      nth_error objects i = Some x -> nth_error objects (S i) = Some y ->
      (size x >= size y)%Z)
  /\ (forall s : Z, ofSize s objects = ofSize s (pushedObjects b w output))
  /\ Permutation objects (pushedObjects b w output).
Proof.
  intros Hlist Hrun. unfold getAllObjectsWith in Hrun. rewrite Hlist in Hrun.
  injection Hrun as <-. fold (pushedObjects b w output).
  split; [ | split].
  - intros i x y Hx Hy. apply Z.le_ge.
    exact (sorted_adjacent _ (sort_sorted _) i x y Hx Hy).
  - intros s. apply sort_stable.
  - apply sort_perm.
Qed.

(** ** The inventory over an object store *)

Section GitModel.

Variable w : World.
Variable store : string -> option N.
Variable failure : string -> option string.

(** The resolver is git over [store], failing as [failure] says. *)
Hypothesis catFile_git :
  forall input, catFile w input = gitCatFile store failure input.

Variable hashToPath : list (string * string).

(** A failed batch leaves [objects] as it is; another batch adds one object
    per name. *)
Lemma resolveBatch_git (batch : list string) (objects : list GitObject) :
  batch <> [] -> Forall (goodName store) batch ->
  resolveBatch w hashToPath batch objects
  = objects ++ (if batchFails failure batch then []
                else map (entryOf hashToPath store) batch).
Proof.
  intros Hne Hall. unfold resolveBatch, batchFails. cbv zeta.
  rewrite catFile_git. unfold gitCatFile.
  destruct (failure (join NL batch)) as [message | ].
  - now rewrite app_nil_r.
  - now apply readBatchAnswer.
Qed.

Lemma fold_batches_git (batches : list (list string)) :
  Forall (fun batch => batch <> [] /\ Forall (goodName store) batch) batches ->
  forall objects,
    fold_left (fun acc batch => resolveBatch w hashToPath batch acc)
              batches objects
    = objects ++ map (entryOf hashToPath store)
                     (List.concat (survivors failure batches)).
Proof.
  induction 1 as [| batch batches [Hne Hall] _ IH]; intros objects; simpl.
  - now rewrite app_nil_r.
  - rewrite IH, (resolveBatch_git batch objects Hne Hall), <- app_assoc.
    f_equal. destruct (batchFails failure batch); simpl; [reflexivity | ].
    now rewrite map_app.
Qed.

(** The loop pushes the objects of the names of the surviving batches, in
    the order of the names. *)
Lemma batchLoop_git (b : positive) (hashes : list string) :
  Forall (goodName store) hashes ->
  batchLoop w hashToPath b hashes 0 []
  = map (entryOf hashToPath store)
        (List.concat (survivors failure (batchesFrom b hashes 0))).
Proof.
  intros Hall. rewrite batchLoop_fold, fold_batches_git; [reflexivity | ].
  pose proof (batchesFrom_nonempty b hashes 0) as Hne.
  rewrite Forall_forall in *. intros batch Hbatch. split; [now apply Hne | ].
  rewrite Forall_forall. intros h Hh. apply Hall.
  now apply (batchesFrom_incl b hashes 0 batch).
Qed.

End GitModel.

Section Inventory.

Variable w : World.
Variable store : string -> option N.
Variable failure : string -> option string.
Variable incl : bool.
Variable output : string.

Hypothesis listing : revList w incl = Ok output.
Hypothesis catFile_git :
  forall input, catFile w input = gitCatFile store failure input.
Hypothesis listed_resolve :
  forall h, In h (listedNames output) -> objectSize store h <> None.

Lemma keys_good : Forall (goodName store) (Map.keys (readListing output)).
Proof.
  rewrite Forall_forall. intros h Hh. apply readListing_keys in Hh.
  split; [now apply (listedNames_noSpace output) | now apply listed_resolve].
Qed.

(** The inventory, written out. *)
Lemma inventory_git (b : positive) :
  getAllObjectsWith b w incl
  = Returns (sort bySizeDesc
               (map (entryOf (readListing output) store)
                    (List.concat
                       (survivors failure
                          (batchesFrom b (Map.keys (readListing output)) 0))))).
Proof.
  unfold getAllObjectsWith. rewrite listing. cbv zeta.
  now rewrite (batchLoop_git w store failure catFile_git _ b _ keys_good).
Qed.

(** When no batch fails: one object for each name of the listing, in the
    order of the first lines of the names, then sorted. *)
Lemma inventory_first_seen (b : positive) :
  (forall input, failure input = None) ->
  getAllObjectsWith b w incl
  = Returns (sort bySizeDesc
               (map (entryOf (readListing output) store)
                    (firstSeen [] (listedNames output)))).
Proof.
  intros Hnone. rewrite inventory_git. do 3 f_equal.
  rewrite <- readListing_firstSeen.
  assert (Hall : forall batches, survivors failure batches = batches).
  { intros batches. unfold survivors. apply forallb_filter_id.
    apply forallb_forall. intros batch _. unfold batchFails.
    now rewrite Hnone. }
  rewrite Hall. apply batchesFrom_concat.
Qed.

End Inventory.

Example sample_inventory :
  getAllObjects sampleWorld true = Returns sampleInventory.
Proof. reflexivity. Qed.

Lemma sample_names_resolve (name : string) :
  In name (listedNames sampleListing) -> objectSize sampleStore name <> None.
Proof.
  intros Hname. vm_compute in Hname.
  repeat (destruct Hname as [<- | Hname]; [discriminate | ]). contradiction.
Qed.

(** On the sample, [bbb] and [ccc] have one size and keep the order in
    which they were pushed. *)
Lemma inventory_descending_stable_witness :
  map hash (ofSize 1000 (pushedObjects 2 sampleWorld sampleListing))
  = ["bbb"; "ccc"]
  /\ (forall s, ofSize s sampleInventory
                = ofSize s (pushedObjects 2 sampleWorld sampleListing)).
Proof.
  split; [reflexivity | ].
  apply (inventory_descending_stable sampleWorld 2 true sampleListing
           sampleInventory); reflexivity.
Defined.

Section InventoryFacts.





(** With no failure every batch survives. *)
Lemma survivors_noFailure (batches : list (list string)) :
  survivors noFailure batches = batches.
Proof.
  unfold survivors. induction batches as [| batch batches IH];
    simpl; [reflexivity | f_equal; exact IH].
Qed.

Lemma batches_all (b : positive) (hashes : list string) :
  List.concat (survivors noFailure (batchesFrom b hashes 0)) = hashes.
Proof. rewrite survivors_noFailure. apply batchesFrom_concat. Qed.

(** Two batches of names without repetition share no name. *)
Lemma batches_disjoint (batches : list (list string)) :
  NoDup (List.concat batches) ->
  forall (b1 b2 : list string) (h : string),
    In b1 batches -> In b2 batches -> In h b1 -> In h b2 -> b1 = b2.
Proof.
  induction batches as [| batch batches IH]; simpl; intros Hnd b1 b2 h H1 H2 Hh1 Hh2;
    [contradiction | ].
  assert (Hsplit : forall x, In x batch -> ~ In x (List.concat batches)).
  { intros x Hx Hc. revert Hnd Hx Hc. clear.
    induction batch as [| y batch IHb]; simpl; intros Hnd Hx Hc; [contradiction | ].
    inversion Hnd as [| ? ? Hnot Hrest]; subst.
    destruct Hx as [-> | Hx]; [ | now apply IHb].
    apply Hnot. apply in_or_app. now right. }
  assert (Hrest : NoDup (List.concat batches)).
  { revert Hnd. clear. induction batch as [| y batch IHb]; simpl; [auto | ].
    intros Hnd. inversion Hnd; subst. auto. }
  destruct H1 as [<- | H1], H2 as [<- | H2].
  - reflexivity.
  - exfalso. apply (Hsplit h Hh1). apply in_concat. now exists b2.
  - exfalso. apply (Hsplit h Hh2). apply in_concat. now exists b1.
  - now apply (IH Hrest b1 b2 h).
Qed.

(** Every object the loop pushes carries the path the map gives its name,
    or the place holder. *)
Lemma readSizeLine_paths (m : list (string * string))
  (objects : list GitObject) (line : string) :
  Forall (fun o => path o = pathOf m (hash o)) objects ->
  Forall (fun o => path o = pathOf m (hash o)) (readSizeLine m objects line).
Proof.
  intros Hall. unfold readSizeLine. cbv zeta.
  destruct (parseInt _) as [sizeNum | ]; [ | assumption].
  destruct (nth_error _ 1) as [h | ]; [ | assumption].
  destruct (String.eqb h ""); [assumption | ].
  apply Forall_app. split; [assumption | ]. now repeat constructor.
Qed.

Lemma resolveBatch_paths (w : World) (m : list (string * string))
  (batch : list string) (objects : list GitObject) :
  Forall (fun o => path o = pathOf m (hash o)) objects ->
  Forall (fun o => path o = pathOf m (hash o)) (resolveBatch w m batch objects).
Proof.
  intros Hall. unfold resolveBatch. cbv zeta.
  destruct (catFile w _) as [sizeOutput | message]; [ | assumption].
  revert objects Hall.
  induction (splitOn LF (trim sizeOutput)) as [| line lines IH];
    intros objects Hall; simpl; [assumption | ].
  apply IH. now apply readSizeLine_paths.
Qed.

Lemma pushedObjects_paths (b : positive) (w : World) (output : string) :
  Forall (fun o => path o = pathOf (readListing output) (hash o))
         (pushedObjects b w output).
Proof.
  unfold pushedObjects. rewrite batchLoop_fold.
  generalize (@nil GitObject) (Forall_nil
    (fun o => path o = pathOf (readListing output) (hash o))).
  induction (batchesFrom b (Map.keys (readListing output)) 0)
    as [| batch batches IH]; intros objects Hall; simpl; [assumption | ].
  apply IH. now apply resolveBatch_paths.
Qed.

Lemma pathOf_nonempty (m : list (string * string)) (h : string) :
  pathOf m h <> "".
Proof.
  unfold pathOf, orElse. destruct (Map.get h m) as [p | ]; [ | discriminate].
  destruct (String.eqb_spec p ""); [discriminate | assumption].
Qed.

End InventoryFacts.

(** C7: when every size lookup succeeds (the resolver does not fail and
    the store knows every listed name), the inventory is the same for every
    batch size, the default of 500 included. *)
Theorem batch_size_irrelevant
  (w : World) (store : string -> option N) (incl : bool) (b1 b2 : positive) :
  (forall input, catFile w input = gitCatFile store noFailure input) ->
  (forall output name,
      revList w incl = Ok output ->
      In name (listedNames output) -> objectSize store name <> None) ->
  getAllObjectsWith b1 w incl = getAllObjectsWith b2 w incl
  /\ getAllObjectsWith b1 w incl = getAllObjects w incl.
Proof.
  intros Hcat Hres.
  assert (Hany : forall b b',
             getAllObjectsWith b w incl = getAllObjectsWith b' w incl).
  { intros b b'. destruct (revList w incl) as [output | message] eqn:Hlist.
    - rewrite (inventory_git w store noFailure incl output Hlist Hcat
                 (fun name => Hres output name eq_refl) b).
      rewrite (inventory_git w store noFailure incl output Hlist Hcat
                 (fun name => Hres output name eq_refl) b').
      now rewrite !batches_all.
    - unfold getAllObjectsWith. now rewrite Hlist. }
  split; [apply Hany | apply Hany].
Qed.

(** One name per batch, or all names in one batch of 500: the sample
    inventory is the same. *)
Lemma batch_size_irrelevant_witness :
  getAllObjectsWith 1 sampleWorld true = getAllObjectsWith 500 sampleWorld true.
Proof.
  apply (batch_size_irrelevant sampleWorld sampleStore true 1 500).
  - intros input. reflexivity.
  - intros output name Hlist. injection Hlist as <-.
    apply sample_names_resolve.
Defined.

(** C6: over an object store that knows every listed name, a failed batch
    contributes nothing: the run still returns; no object of the inventory
    bears a name of a failed batch; the inventory is made of one object
    for each name of every other batch; and [objectCount] is the number
    of those objects. *)
Theorem failed_batch_dropped
  (w : World) (store : string -> option N) (failure : string -> option string)
  (b : positive) (incl : bool) (output : string) :
  revList w incl = Ok output ->
  (forall input, catFile w input = gitCatFile store failure input) ->
  (forall name, In name (listedNames output) -> objectSize store name <> None) ->
  let batches := batchesFrom b (Map.keys (readListing output)) 0 in
  let resolved := List.concat (survivors failure batches) in
  exists objects : list GitObject,
    getAllObjectsWith b w incl = Returns objects
    /\ (forall batch h o,
           In batch batches -> batchFails failure batch = true ->
           In h batch -> In o objects -> hash o <> h)
    /\ Permutation objects (map (entryOf (readListing output) store) resolved)
    /\ List.length objects = List.length resolved
    /\ (forall options r,
           b = batchSize -> scopeOf options = incl ->
           bloatCommand w options = PrintedJson r ->
           objectCount (stats r) = List.length resolved).
Proof.
  intros Hlist Hcat Hres batches resolved.
  pose proof (inventory_git w store failure incl output Hlist Hcat Hres b)
    as Hrun. fold batches in Hrun. fold resolved in Hrun.
  eexists. split; [exact Hrun | ].
  assert (Hperm : Permutation
            (sort bySizeDesc (map (entryOf (readListing output) store) resolved))
            (map (entryOf (readListing output) store) resolved))
    by apply sort_perm.
  assert (Hlen : List.length
            (sort bySizeDesc (map (entryOf (readListing output) store) resolved))
            = List.length resolved).
  { rewrite (Permutation_length Hperm). apply length_map. }
  split; [ | split; [exact Hperm | split; [exact Hlen | ]]].
  - intros batch h o Hbatch Hfails Hh Ho Heq.
    apply (Permutation_in _ Hperm) in Ho. apply in_map_iff in Ho.
    destruct Ho as [name [<- Hname]]. cbn [hash entryOf] in Heq. subst name.
    unfold resolved in Hname. apply in_concat in Hname.
    destruct Hname as [batch' [Hbatch' Hh']].
    unfold survivors in Hbatch'. apply filter_In in Hbatch'.
    destruct Hbatch' as [Hbatch' Hlives].
    assert (Hsame : batch = batch').
    { apply (batches_disjoint batches) with (h := h); try assumption.
      unfold batches. rewrite batchesFrom_concat. simpl.
      apply readListing_nodup. }
    subst batch'. rewrite Hfails in Hlives. discriminate.
  - intros options r -> Hscope Hjson.
    destruct (bloatCommand_json w options r Hjson)
      as [objects [Hobjects [Hstats _]]].
    rewrite Hstats. cbn [objectCount]. rewrite Hscope in Hobjects.
    unfold getAllObjects in Hobjects. rewrite Hrun in Hobjects.
    injection Hobjects as <-. exact Hlen.
Qed.

(** The batch of [bbb] and [ccc] fails, the batch of [aaa] does not: the
    inventory is [aaa] alone. *)
Lemma failed_batch_dropped_witness :
  exists objects : list GitObject,
    getAllObjectsWith 2 flakyWorld true = Returns objects
    /\ List.length objects = 1
    /\ (forall o, In o objects -> hash o <> "bbb").
Proof.
  destruct (failed_batch_dropped flakyWorld sampleStore flakyFailure 2 true
              sampleListing eq_refl (fun _ => eq_refl) sample_names_resolve)
    as [objects [Hrun [Hnone [_ [Hlen _]]]]].
  exists objects. split; [exact Hrun | ]. split; [exact Hlen | ].
  intros o Ho. apply (Hnone ["bbb"; "ccc"] "bbb" o).
  - vm_compute. tauto.
  - reflexivity.
  - simpl. tauto.
  - exact Ho.
Defined.

(** C10: no object of the inventory has an empty path.  An object whose
    name the listing gives no path, on its last line or on none,
    has the path ['(unknown)'], which is classified [other]. *)
Theorem unknown_path_placeholder
  (w : World) (b : positive) (incl : bool) (output : string)
  (objects : list GitObject) (o : GitObject) :
  revList w incl = Ok output ->
  getAllObjectsWith b w incl = Returns objects ->
  In o objects ->
  path o <> ""
  /\ (lastListedPath output (hash o) = Some ""
      \/ lastListedPath output (hash o) = None ->
      path o = "(unknown)" /\ categorizeFile (path o) = "other").
Proof.
  intros Hlist Hrun Ho. unfold getAllObjectsWith in Hrun.
  rewrite Hlist in Hrun. injection Hrun as <-.
  fold (pushedObjects b w output) in Ho.
  apply (Permutation_in _ (sort_perm bySizeDesc _)) in Ho.
  pose proof (pushedObjects_paths b w output) as Hall.
  rewrite Forall_forall in Hall. specialize (Hall o Ho).
  rewrite Hall. split; [apply pathOf_nonempty | ].
  unfold pathOf. rewrite readListing_get.
  intros [-> | ->]; split; reflexivity.
Qed.

(** [ccc] is listed without a path. *)
Lemma unknown_path_placeholder_witness :
  lastListedPath sampleListing "ccc" = Some ""
  /\ path {| hash := "ccc"; path := "(unknown)"; size := 1000 |} <> ""
  /\ categorizeFile "(unknown)" = "other".
Proof.
  split; [reflexivity | ].
  destruct (unknown_path_placeholder sampleWorld 2 true sampleListing
              sampleInventory
              {| hash := "ccc"; path := "(unknown)"; size := 1000 |}
              eq_refl eq_refl) as [Hne Hunknown].
  - simpl. tauto.
  - split; [exact Hne | ].
    exact (proj2 (Hunknown (or_introl eq_refl))).
Defined.

(** ** Totals and the size filter *)

Section Totals.

Lemma sumSizes_from (objects : list GitObject) (start : Z) :
  fold_left (fun sum o => sum + size o)%Z objects start
  = (start + totalOf objects)%Z.
Proof.
  revert start. induction objects as [| o objects IH]; intros start; simpl.
  - lia.
  - rewrite IH. lia.
Qed.

(** [reduce] adds up the sizes. *)
Lemma sumSizes_total (objects : list GitObject) :
  sumSizes objects = totalOf objects.
Proof. unfold sumSizes. now rewrite sumSizes_from. Qed.

(** Adding a size to the total of a category adds it to the sum. *)
Lemma sumValues_set (k : string) (z : Z) (m : list (string * Z)) :
  sumValues
    (Map.set k ((match Map.get k m with Some t => t | None => 0 end) + z)%Z m)
  = (sumValues m + z)%Z.
Proof.
  unfold sumValues, Map.values.
  induction m as [| [k' v'] m IH]; simpl; [lia | ].
  destruct (String.eqb_spec k' k) as [-> | Hne]; simpl; [lia | ].
  rewrite IH. lia.
Qed.

Lemma categorize_from (objects : list GitObject) (m : list (string * Z)) :
  sumValues (fold_left addToCategory objects m)
  = (sumValues m + totalOf objects)%Z.
Proof.
  revert m. induction objects as [| o objects IH]; intros m; simpl.
  - lia.
  - rewrite IH. unfold addToCategory. rewrite sumValues_set. lia.
Qed.

Lemma categorize_keys (objects : list GitObject) (m : list (string * Z)) :
  NoDup (Map.keys m) ->
  (forall c, In c (Map.keys m) -> In c categoryNames) ->
  NoDup (Map.keys (fold_left addToCategory objects m))
  /\ (forall c, In c (Map.keys (fold_left addToCategory objects m)) ->
                In c categoryNames).
Proof.
  revert m. induction objects as [| o objects IH]; intros m Hnd Hin; simpl.
  - now split.
  - apply IH.
    + unfold addToCategory. now apply keys_set_nodup.
    + intros c Hc. unfold addToCategory in Hc. apply keys_set_in in Hc.
      destruct Hc as [-> | Hc]; [apply firstMatch_in | now apply Hin].
Qed.

(** What a text report is made of. *)
Lemma bloatCommand_text (w : World) (options : Options) (r : TextReport) :
  bloatCommand w options = PrintedText r ->
  exists objects,
    getAllObjects w (scopeOf options) = Returns objects
    /\ categoryTotals r = categorize objects
    /\ summaryTotalObjects r = List.length objects.
Proof.
  unfold bloatCommand, scopeOf.
  destruct (isGitRepo w); simpl; [ | discriminate].
  destruct (getAllObjects w _) as [objects | message]; [ | discriminate].
  destruct (match output options with Some o => _ | None => false end);
    [discriminate | ].
  intros Heq. injection Heq as <-. exists objects. simpl. auto.
Qed.

Lemma clampIndex_le (len : nat) (k : Z) : clampIndex len k <= len.
Proof. unfold clampIndex. destruct (Z.ltb_spec k 0); lia. Qed.

Lemma slice_incl {A} (l : list A) (start stop : Z) (x : A) :
  In x (slice l start stop) -> In x l.
Proof.
  unfold slice. intros Hin.
  set (k := clampIndex (List.length l) start) in *.
  set (n := clampIndex (List.length l) stop - k) in *.
  rewrite <- (firstn_skipn k l). apply in_or_app. right.
  rewrite <- (firstn_skipn n (skipn k l)). apply in_or_app. now left.
Qed.

Lemma sliceTo_incl {A} (l : list A) (stop : number) (x : A) :
  In x (sliceTo l stop) -> In x l.
Proof. destruct stop; apply slice_incl. Qed.

(** [slice(0, limit)] keeps at most [limit] elements, for a limit that is
    not negative. *)
Lemma sliceTo_length {A} (l : list A) (stop : Z) :
  (0 <= stop)%Z -> (Z.of_nat (List.length (sliceTo l (Num stop))) <= stop)%Z.
Proof.
  intros Hstop. unfold sliceTo, slice, clampIndex.
  destruct (Z.ltb_spec stop 0) as [Hneg | _]; [lia | ].
  simpl (0 <? 0)%Z. cbv iota. rewrite length_firstn. lia.
Qed.

Lemma sliceTo_nil {A} (stop : number) : sliceTo (@nil A) stop = [].
Proof.
  destruct stop; unfold sliceTo, slice; now rewrite skipn_nil, firstn_nil.
Qed.

(** Nothing passes a threshold that is above every size. *)
Lemma atLeast_none (threshold : Z) (objects : list GitObject) :
  (forall o, In o objects -> (size o < threshold)%Z) ->
  atLeast (Num threshold) objects = [].
Proof.
  unfold atLeast. induction objects as [| o objects IH]; intros Hbelow;
    [reflexivity | ].
  simpl. destruct (Z.leb_spec threshold (size o)) as [Hle | _].
  - specialize (Hbelow o (or_introl eq_refl)). lia.
  - apply IH. intros o' Ho'. apply Hbelow. now right.
Qed.

End Totals.

(** C8: every entry of [largestFiles] is at least as large as the
    threshold, and there are no more of them than the limit (a count, so
    not negative); when every object is below the threshold the list is
    empty and the count of large objects is 0, while [totalObjectSize]
    is the sum of the sizes of the whole inventory. *)
Theorem threshold_filter
  (w : World) (options : Options) (r : JsonReport) (threshold : Z) :
  bloatCommand w options = PrintedJson r ->
  minSizeOf options = Num threshold ->
  (forall f, In f (largestFiles r) -> (size (object f) >= threshold)%Z)
  /\ (forall l, limitOf options = Num l -> (0 <= l)%Z ->
                (Z.of_nat (List.length (largestFiles r)) <= l)%Z)
  /\ exists objects,
       getAllObjects w (scopeOf options) = Returns objects
       /\ totalObjectSize (stats r) = totalOf objects
       /\ ((forall o, In o objects -> (size o < threshold)%Z) ->
           largestFiles r = [] /\ largeObjectCount (stats r) = 0).
Proof.
  intros Hrun Hmin.
  destruct (bloatCommand_json w options r Hrun)
    as [objects [Hobjects [Hstats [Hfiles _]]]].
  rewrite Hfiles, Hstats, Hmin. cbn [totalObjectSize largeObjectCount].
  split; [ | split].
  - intros f Hf. apply in_map_iff in Hf. destruct Hf as [o [<- Ho]].
    apply sliceTo_incl in Ho. unfold atLeast in Ho.
    apply filter_In in Ho. destruct Ho as [_ Hge].
    cbn [object]. unfold ge in Hge. apply Z.leb_le in Hge. lia.
  - intros l -> Hl. rewrite length_map. now apply sliceTo_length.
  - exists objects. split; [exact Hobjects | ].
    split; [apply sumSizes_total | ].
    intros Hbelow.
    rewrite (atLeast_none threshold objects Hbelow), sliceTo_nil.
    split; reflexivity.
Qed.

(** All three objects of the sample are below 5 MB: nothing is listed, and
    the total is still the sum of the three sizes. *)
Lemma threshold_filter_witness :
  exists r,
    bloatCommand sampleWorld highThresholdOptions = PrintedJson r
    /\ largestFiles r = []
    /\ largeObjectCount (stats r) = 0
    /\ totalObjectSize (stats r) = 2002000%Z.
Proof.
  eexists. split; [reflexivity | ].
  destruct (threshold_filter sampleWorld highThresholdOptions _ 5000000
              eq_refl eq_refl) as [_ [_ [objects [Hobjects [Htotal Hnone]]]]].
  assert (Hsample : getAllObjects sampleWorld (scopeOf highThresholdOptions)
                    = Returns sampleInventory) by reflexivity.
  rewrite Hsample in Hobjects. injection Hobjects as <-.
  destruct Hnone as [Hfiles Hcount].
  - intros o Ho. simpl in Ho.
    destruct Ho as [<- | [<- | [<- | []]]]; simpl; lia.
  - split; [exact Hfiles | ]. split; [exact Hcount | ].
    rewrite Htotal. reflexivity.
Defined.

(** C9: the totals of the categories add up to [totalObjectSize]: each
    object of the unfiltered inventory is counted under one category, a
    name of the closed enumeration, and under no other.  The text report
    holds these totals. *)
Theorem category_totals_conserved (objects : list GitObject) :
  sumValues (categorize objects) = sumSizes objects
  /\ NoDup (Map.keys (categorize objects))
  /\ (forall c, In c (Map.keys (categorize objects)) -> In c categoryNames)
  /\ (forall w options r,
         bloatCommand w options = PrintedText r ->
         getAllObjects w (scopeOf options) = Returns objects ->
         sumValues (categoryTotals r) = sumSizes objects).
Proof.
  assert (Hsum : sumValues (categorize objects) = sumSizes objects).
  { unfold categorize. rewrite categorize_from, sumSizes_total.
    reflexivity. }
  destruct (categorize_keys objects [] (NoDup_nil _) (fun c Hc => match Hc with end))
    as [Hnd Hin].
  split; [exact Hsum | ]. split; [exact Hnd | ]. split; [exact Hin | ].
  intros w options r Hrun Hobjects.
  destruct (bloatCommand_text w options r Hrun)
    as [objects' [Hobjects' [Htotals _]]].
  rewrite Hobjects in Hobjects'. injection Hobjects' as <-.
  now rewrite Htotals.
Qed.

(** The text report of the sample: 2000000 bytes of [archive], 1000 of
    [other] twice. *)
Lemma category_totals_conserved_witness :
  exists r,
    bloatCommand sampleWorld textOptions = PrintedText r
    /\ categoryTotals r = [("archive", 2000000%Z); ("other", 2000%Z)]
    /\ sumValues (categoryTotals r) = sumSizes sampleInventory.
Proof.
  eexists. split; [reflexivity | ]. split; [reflexivity | ].
  destruct (category_totals_conserved sampleInventory) as [_ [_ [_ Hreport]]].
  apply (Hreport sampleWorld textOptions); reflexivity.
Defined.

(* ===================================================================== *)
(** * More of the command                                                 *)
(* ===================================================================== *)

(** ** Classification, in full *)

Section ClassificationMore.

Lemma find_first {A} (f : A -> bool) (l : list A) (x : A) :
  find f l = Some x ->
  exists before after,
    l = before ++ x :: after
    /\ f x = true
    /\ (forall y, In y before -> f y = false).
Proof.
  induction l as [| y l IH]; simpl; [discriminate | ].
  destruct (f y) eqn:Hy.
  - intros Heq. injection Heq as <-. exists [], l. now repeat split.
  - intros Hfind. destruct (IH Hfind) as [before [after [-> [Hx Hbefore]]]].
    exists (y :: before), after. repeat split; [assumption | ].
    intros z [<- | Hz]; [assumption | now apply Hbefore].
Qed.

Lemma other_not_in_table : ~ In "other" (map fst categories).
Proof.
  simpl. intros H.
  repeat (destruct H as [H | H]; [discriminate H | ]). contradiction.
Qed.

End ClassificationMore.

(** X1: a category other than [other] is returned only for a path that
    passes the test of that category, and of no category placed before
    it; [other] is returned exactly when the path passes no test. *)
Theorem categorizeFile_characterised (p c : string) :
  (categorizeFile p = c -> c <> "other" ->
   exists before exts after,
     categories = before ++ (c, exts) :: after
     /\ passes p (c, exts) = true
     /\ (forall entry, In entry before -> passes p entry = false))
  /\ (categorizeFile p = "other"
      <-> forall entry, In entry categories -> passes p entry = false).
Proof.
  unfold categorizeFile. rewrite firstMatch_find. split.
  - destruct (find (passes p) categories) as [[c' exts] | ] eqn:Hfind;
      [ | congruence].
    simpl. intros <- _.
    destruct (find_first _ _ _ Hfind) as [before [after [Heq [Hpass Hbefore]]]].
    now exists before, exts, after.
  - destruct (find (passes p) categories) as [[c' exts] | ] eqn:Hfind.
    + simpl. split.
      * intros ->. exfalso. apply other_not_in_table.
        apply find_some in Hfind. destruct Hfind as [Hin _].
        change "other" with (fst ("other", exts)). now apply in_map.
      * intros Hnone. apply find_some in Hfind. destruct Hfind as [Hin Hpass].
        rewrite (Hnone _ Hin) in Hpass. discriminate.
    + split; [ | reflexivity]. intros _ entry Hin.
      now apply (find_none _ _ Hfind).
Qed.

(** [src/Movie.MP4] is a [video] because of its extension, and passes no
    earlier test. *)
Lemma categorizeFile_characterised_witness :
  exists before exts after,
    categories = before ++ ("video", exts) :: after
    /\ passes "src/Movie.MP4" ("video", exts) = true
    /\ (forall entry, In entry before -> passes "src/Movie.MP4" entry = false).
Proof.
  apply (proj1 (categorizeFile_characterised "src/Movie.MP4" "video"));
    [reflexivity | discriminate].
Defined.

Section LetterCase.

Lemma lowerChar_not_dot (a : ascii) :
  Ascii.eqb (lowerChar a) "." = Ascii.eqb a ".".
Proof.
  unfold lowerChar. cbv zeta.
  destruct ((65 <=? nat_of_ascii a)%nat && (nat_of_ascii a <=? 90)%nat) eqn:Hup;
    [ | reflexivity].
  apply andb_true_iff in Hup. destruct Hup as [H1 H2].
  apply Nat.leb_le in H1. apply Nat.leb_le in H2.
  assert (Hdot : nat_of_ascii "." = 46) by reflexivity.
  destruct (Ascii.eqb_spec a ".") as [-> | Hne].
  - rewrite Hdot in H1. lia.
  - apply Ascii.eqb_neq. intros Heq.
    apply (f_equal nat_of_ascii) in Heq.
    rewrite nat_ascii_embedding, Hdot in Heq by lia. lia.
Qed.

Lemma toLowerCase_consHead (a : ascii) (pieces : list string) :
  map toLowerCase (consHead a pieces)
  = consHead (lowerChar a) (map toLowerCase pieces).
Proof. now destruct pieces. Qed.

(** Lower-casing goes through [split('.')]. *)
Lemma splitOn_dot_lower (s : string) :
  splitOn "." (toLowerCase s) = map toLowerCase (splitOn "." s).
Proof.
  induction s as [| a s IH]; simpl; [reflexivity | ].
  rewrite lowerChar_not_dot. destruct (Ascii.eqb a ".").
  - simpl. now rewrite IH.
  - now rewrite IH, toLowerCase_consHead.
Qed.

Lemma last_map_lower (l : list string) :
  last (map toLowerCase l) "" = toLowerCase (last l "").
Proof.
  induction l as [| x l IH]; [reflexivity | ].
  destruct l as [| y l]; [reflexivity | ].
  exact IH.
Qed.

Lemma lowerChar_idempotent (a : ascii) : lowerChar (lowerChar a) = lowerChar a.
Proof.
  unfold lowerChar at 2 3. cbv zeta.
  destruct ((65 <=? nat_of_ascii a)%nat && (nat_of_ascii a <=? 90)%nat) eqn:Hup.
  - apply andb_true_iff in Hup. destruct Hup as [H1 H2].
    apply Nat.leb_le in H1. apply Nat.leb_le in H2.
    unfold lowerChar. cbv zeta.
    rewrite nat_ascii_embedding by lia.
    replace (nat_of_ascii a + 32 <=? 90)%nat with false
      by (symmetry; apply Nat.leb_gt; lia).
    rewrite andb_false_r. reflexivity.
  - unfold lowerChar. cbv zeta. now rewrite Hup.
Qed.

Lemma toLowerCase_idempotent (s : string) :
  toLowerCase (toLowerCase s) = toLowerCase s.
Proof.
  induction s as [| a s IH]; simpl; [reflexivity | ].
  now rewrite lowerChar_idempotent, IH.
Qed.

(** The extension is read off the lower-cased path. *)
Lemma extOf_lower (p : string) : extOf p = extOf (toLowerCase p).
Proof.
  unfold extOf. rewrite splitOn_dot_lower, last_map_lower.
  now rewrite toLowerCase_idempotent.
Qed.

End LetterCase.

(** X2: the extension test does not see letter case, the name test does.
    Two paths that are equal up to letter case and in which the same
    category names occur are classified alike. *)
Theorem categorizeFile_letter_case (p q : string) :
  toLowerCase p = toLowerCase q ->
  (forall c, In c (map fst categories) -> strIncludes p c = strIncludes q c) ->
  extOf p = extOf q /\ categorizeFile p = categorizeFile q.
Proof.
  intros Hcase Hnames.
  assert (Hext : extOf p = extOf q).
  { now rewrite (extOf_lower p), (extOf_lower q), Hcase. }
  split; [exact Hext | ].
  unfold categorizeFile. rewrite Hext.
  assert (Hgen : forall cats,
             (forall c, In c (map fst cats) -> strIncludes p c = strIncludes q c) ->
             firstMatch (extOf q) p cats = firstMatch (extOf q) q cats).
  { induction cats as [| [category exts] rest IH]; simpl; intros Hn;
      [reflexivity | ].
    rewrite (Hn category (or_introl eq_refl)), IH; [reflexivity | ].
    intros c Hc. apply Hn. now right. }
  now apply Hgen.
Qed.

(** [photos/IMG_1.JPG] and [photos/img_1.jpg] are both images. *)
Lemma categorizeFile_letter_case_witness :
  categorizeFile "photos/IMG_1.JPG" = categorizeFile "photos/img_1.jpg".
Proof.
  apply (categorizeFile_letter_case "photos/IMG_1.JPG" "photos/img_1.jpg").
  - reflexivity.
  - intros c Hc. simpl in Hc.
    repeat (destruct Hc as [<- | Hc]; [reflexivity | ]). contradiction.
Defined.

(** ** The advisory rules, in full *)

Section RecommendationsMore.

Lemma generateRecommendations_assemble
  (objects : list GitObject) (gitDir workingDir : number) :
  generateRecommendations objects gitDir workingDir
  = assemble (hasNodeModules objects) (hasVendor objects)
             (hasLargeMedia objects) (hasPackages objects)
             (gt gitDir (times workingDir 3))
             (10 <? List.length (largeObjects objects))%nat
             (adviceManyLarge (List.length (largeObjects objects))).
Proof. reflexivity. Qed.

(** The advisory about many large objects starts with its own sign: it is
    none of the other advisories. *)
Lemma adviceManyLarge_head (count : nat) :
  exists rest, adviceManyLarge count = String "240" rest.
Proof. unfold adviceManyLarge. simpl. eexists. reflexivity. Qed.

Ltac refute_member H :=
  cbn in H;
  repeat (destruct H as [H | H]; [try discriminate H | ]);
  try contradiction.

Lemma assemble_nonempty (c1 c2 c3 c4 c5 c6 : bool) (many : string) :
  assemble c1 c2 c3 c4 c5 c6 many <> [].
Proof. destruct c1, c2, c3, c4, c5, c6; cbn; discriminate. Qed.

Lemma assemble_nodup (c1 c2 c3 c4 c5 c6 : bool) (rest : string) :
  NoDup (assemble c1 c2 c3 c4 c5 c6 (String "240" rest)).
Proof.
  destruct c1, c2, c3, c4, c5, c6; cbn;
    repeat (constructor; [intros H; refute_member H | ]); constructor.
Qed.

Lemma assemble_healthy_alone (c1 c2 c3 c4 c5 c6 : bool) (rest : string) :
  In adviceHealthy (assemble c1 c2 c3 c4 c5 c6 (String "240" rest))
  <-> assemble c1 c2 c3 c4 c5 c6 (String "240" rest) = [adviceHealthy].
Proof.
  destruct c1, c2, c3, c4, c5, c6; cbn; split; intros H;
    try discriminate H; try reflexivity; try (now left);
    refute_member H.
Qed.

Lemma assemble_healthy_none (c1 c2 c3 c4 c5 c6 : bool) (rest : string) :
  In adviceHealthy (assemble c1 c2 c3 c4 c5 c6 (String "240" rest))
  <-> c1 = false /\ c2 = false /\ c3 = false /\ c4 = false
      /\ c5 = false /\ c6 = false.
Proof.
  destruct c1, c2, c3, c4, c5, c6; cbn; split; intros H;
    try (now left); try (now repeat split);
    try (destruct H as (H1 & H2 & H3 & H4 & H5 & H6); discriminate);
    refute_member H.
Qed.

Lemma assemble_members (c1 c2 c3 c4 c5 c6 : bool) (rest : string) :
  let recs := assemble c1 c2 c3 c4 c5 c6 (String "240" rest) in
  (In adviceNodeModules recs <-> c1 = true)
  /\ (In adviceVendor recs <-> c2 = true)
  /\ (In adviceLargeMedia recs <-> c3 = true)
  /\ (In advicePackages recs <-> c4 = true)
  /\ (In adviceStoreBloat recs <-> c5 = true)
  /\ (In adviceRunGc recs <-> c5 = true)
  /\ (In (String "240" rest) recs <-> c6 = true).
Proof.
  destruct c1, c2, c3, c4, c5, c6; cbn; repeat split; intros H;
    try reflexivity; try discriminate H; try (cbn; tauto);
    refute_member H.
Qed.

End RecommendationsMore.

(** X3: the list of recommendations is never empty and holds no advisory
    twice; the healthy affirmation is in it exactly when it is the whole
    list, which is exactly when none of the six tests passes. *)
Theorem recommendations_healthy_alone
  (objects : list GitObject) (gitDir workingDir : number) :
  let recs := generateRecommendations objects gitDir workingDir in
  recs <> []
  /\ NoDup recs
  /\ (In adviceHealthy recs <-> recs = [adviceHealthy])
  /\ (In adviceHealthy recs
      <-> hasNodeModules objects = false
          /\ hasVendor objects = false
          /\ hasLargeMedia objects = false
          /\ hasPackages objects = false
          /\ gt gitDir (times workingDir 3) = false
          /\ (List.length (largeObjects objects) <= 10)%nat).
Proof.
  cbv zeta. rewrite generateRecommendations_assemble.
  destruct (adviceManyLarge_head (List.length (largeObjects objects)))
    as [rest ->].
  split; [apply assemble_nonempty | ].
  split; [apply assemble_nodup | ].
  split; [apply assemble_healthy_alone | ].
  rewrite assemble_healthy_none, Nat.ltb_ge. reflexivity.
Qed.

(** X4: each advisory is issued exactly when its own test passes, whatever
    the other tests give: a path that holds [node_modules], a path that
    holds [vendor/], a media file above 5 MB, a package or archive above
    1 MB, more than ten objects above 10 MB (with their number); and the
    hint to run [git gc] comes exactly with the store-bloat advisory. *)
Theorem recommendations_rule_by_rule
  (objects : list GitObject) (gitDir workingDir : number) :
  let recs := generateRecommendations objects gitDir workingDir in
  (In adviceNodeModules recs
   <-> exists o, In o objects /\ strIncludes (path o) "node_modules" = true)
  /\ (In adviceVendor recs
      <-> exists o, In o objects /\ strIncludes (path o) "vendor/" = true)
  /\ (In adviceLargeMedia recs
      <-> exists o, In o objects /\ (5 * MB < size o)%Z
                    /\ In (categorizeFile (path o)) ["image"; "video"; "audio"])
  /\ (In advicePackages recs
      <-> exists o, In o objects /\ (MB < size o)%Z
                    /\ In (categorizeFile (path o)) ["package"; "archive"])
  /\ (In adviceRunGc recs <-> In adviceStoreBloat recs)
  /\ (In (adviceManyLarge (List.length (largeObjects objects))) recs
      <-> (10 < List.length (largeObjects objects))%nat).
Proof.
  cbv zeta. rewrite generateRecommendations_assemble.
  destruct (adviceManyLarge_head (List.length (largeObjects objects)))
    as [rest ->].
  destruct (assemble_members (hasNodeModules objects) (hasVendor objects)
              (hasLargeMedia objects) (hasPackages objects)
              (gt gitDir (times workingDir 3))
              (10 <? List.length (largeObjects objects))%nat rest)
    as (H1 & H2 & H3 & H4 & H5 & H6 & H7).
  rewrite H1, H2, H3, H4, H5, H6, H7, Nat.ltb_lt.
  unfold hasNodeModules, hasVendor, hasLargeMedia, hasPackages.
  rewrite !existsb_exists.
  repeat split; try tauto.
  - intros [o [Ho Ht]]. apply andb_true_iff in Ht. destruct Ht as [Hs Hc].
    exists o. rewrite <- arrayIncludes_In. apply Z.ltb_lt in Hs. tauto.
  - intros [o [Ho [Hs Hc]]]. exists o. split; [assumption | ].
    apply andb_true_iff. rewrite arrayIncludes_In. apply Z.ltb_lt in Hs. tauto.
  - intros [o [Ho Ht]]. apply andb_true_iff in Ht. destruct Ht as [Hs Hc].
    exists o. rewrite <- arrayIncludes_In. apply Z.ltb_lt in Hs. tauto.
  - intros [o [Ho [Hs Hc]]]. exists o. split; [assumption | ].
    apply andb_true_iff. rewrite arrayIncludes_In. apply Z.ltb_lt in Hs. tauto.
Qed.

(** ** The directory measurements *)

Section Measurements.

Lemma digits_end (s : string) :
  s <> "" -> stringAll isDigit s = true -> endsNonSpace s = true.
Proof.
  intros Hne Hall. apply endsNonSpace_noSpace; [assumption | ].
  unfold noSpace. apply (stringAll_impl isDigit); [ | assumption].
  intros a Ha. now rewrite (isDigit_not_space a Ha).
Qed.

(** A numeral followed by a line feed is trimmed to the numeral. *)
Lemma trim_decimal_line (n : N) : trim (decimal n ++ NL) = decimal n.
Proof.
  destruct (decimal_head n) as [a [t [Heq Ha]]].
  pose proof (decimal_digits n) as Hall. rewrite Heq in *.
  apply trim_line_feed; [now apply isDigit_not_space | ].
  apply digits_end; [discriminate | assumption].
Qed.

Lemma decimal_nonempty (n : N) : decimal n <> "".
Proof.
  destruct (decimal_head n) as [a [t [Heq _]]]. rewrite Heq. discriminate.
Qed.

End Measurements.

(** X5: [getGitDirSize] reads the count of kilobytes that [du -sk] prints
    in front of the tab and returns 1024 times that count; when [du]
    throws it returns 0. *)
Theorem getGitDirSize_kilobytes (w : World) :
  (forall (n : N) (rest : string),
      duGit w = Ok (decimal n ++ String TAB rest) ->
      getGitDirSize w = Num (Z.of_N n * 1024))
  /\ (forall message, duGit w = Throws message -> getGitDirSize w = Num 0).
Proof.
  unfold getGitDirSize. split.
  - intros n rest ->.
    rewrite splitOn_app_sep
      by (apply digits_free; [reflexivity | apply decimal_digits]).
    cbn [hd]. now rewrite parseInt_decimal.
  - now intros message ->.
Qed.

(** The sample: 6144 KB of [.git]. *)
Lemma getGitDirSize_kilobytes_witness :
  getGitDirSize sampleWorld = Num (6144 * 1024).
Proof.
  apply (proj1 (getGitDirSize_kilobytes sampleWorld) 6144%N
           (".git" ++ NL)%string).
  reflexivity.
Defined.

(** X6: [getWorkingDirSize] returns the sum that the pipeline prints;
    it returns 0 when the pipeline prints nothing but white space (no
    file, or a [stat] that fails on every file) and when it throws: a
    measured 0 and a failed measurement come out the same. *)
Theorem getWorkingDirSize_sum_or_zero (w : World) :
  (forall n : N,
      findSizes w = Ok (decimal n ++ NL) ->
      getWorkingDirSize w = Num (Z.of_N n))
  /\ (forall output,
         findSizes w = Ok output -> trim output = "" ->
         getWorkingDirSize w = Num 0)
  /\ (forall message,
         findSizes w = Throws message -> getWorkingDirSize w = Num 0).
Proof.
  unfold getWorkingDirSize. split; [ | split].
  - intros n ->. rewrite trim_decimal_line.
    destruct (String.eqb_spec (decimal n) "") as [Hempty | _].
    + now elim (decimal_nonempty n).
    + apply parseInt_decimal.
  - intros output -> ->. reflexivity.
  - now intros message ->.
Qed.

(** The sample: a working tree of 1 MB; and an awk that prints an empty
    line. *)
Lemma getWorkingDirSize_sum_or_zero_witness :
  getWorkingDirSize sampleWorld = Num 1048576
  /\ (forall w, findSizes w = Ok NL -> getWorkingDirSize w = Num 0).
Proof.
  split.
  - apply (proj1 (getWorkingDirSize_sum_or_zero sampleWorld) 1048576%N).
    reflexivity.
  - intros w Hw.
    apply (proj1 (proj2 (getWorkingDirSize_sum_or_zero w)) NL Hw).
    reflexivity.
Defined.

(** X7: a measurement that is not a number ([du] or the pipeline printed
    something that does not start with digits) never issues the
    store-bloat advisory, and the ratio of the report is [NaN]. *)
Theorem measurement_not_a_number
  (w : World) (options : Options) (r : JsonReport) :
  bloatCommand w options = PrintedJson r ->
  getGitDirSize w = NaN \/ getWorkingDirSize w = NaN ->
  ~ In adviceStoreBloat (recommendations r)
  /\ ~ In adviceRunGc (recommendations r)
  /\ ratio (stats r) = "NaN".
Proof.
  intros Hrun Hnan.
  destruct (bloatCommand_json w options r Hrun)
    as [objects [_ [Hstats [_ Hrec]]]].
  rewrite Hrec, Hstats. cbn [ratio].
  rewrite generateRecommendations_assemble.
  destruct (adviceManyLarge_head (List.length (largeObjects objects)))
    as [rest ->].
  destruct (assemble_members (hasNodeModules objects) (hasVendor objects)
              (hasLargeMedia objects) (hasPackages objects)
              (gt (getGitDirSize w) (times (getWorkingDirSize w) 3))
              (10 <? List.length (largeObjects objects))%nat rest)
    as (_ & _ & _ & _ & Hbloat & Hgc & _).
  cbv zeta in Hbloat, Hgc. rewrite Hbloat, Hgc.
  destruct Hnan as [-> | ->].
  - repeat split; try (intros H; discriminate H).
  - destruct (getGitDirSize w);
      repeat split; try (intros H; discriminate H).
Qed.

(** The store cannot be measured: [du] prints nothing. *)
Lemma measurement_not_a_number_witness :
  exists r,
    bloatCommand unmeasuredStoreWorld jsonOptions = PrintedJson r
    /\ ~ In adviceStoreBloat (recommendations r)
    /\ ratio (stats r) = "NaN".
Proof.
  assert (Hrun : exists r,
             bloatCommand unmeasuredStoreWorld jsonOptions = PrintedJson r)
    by (eexists; reflexivity).
  destruct Hrun as [r Hrun]. exists r.
  destruct (measurement_not_a_number unmeasuredStoreWorld jsonOptions r Hrun
              (or_introl eq_refl)) as [Hbloat [_ Hratio]].
  split; [exact Hrun | ]. split; [exact Hbloat | exact Hratio].
Defined.

(** ** The command handler, in full *)

(** X8: the command exits with code 1 in two cases only: the path is not
    a git repository, or the listing of the objects throws.  A failure of
    the size resolver or of a directory measurement never ends the run. *)
Theorem bloatCommand_exit (w : World) (options : Options) (e : string) :
  bloatCommand w options = Exit1 e
  <-> (isGitRepo w = false
       /\ e = ("Not a git repository: " ++ repoPath w)%string)
      \/ (isGitRepo w = true
          /\ exists message,
               revList w (scopeOf options) = Throws message
               /\ e = ("Failed to analyze repository: "
                       ++ ("Failed to get objects: " ++ message))%string).
Proof.
  unfold bloatCommand, getAllObjects, getAllObjectsWith.
  fold (scopeOf options).
  destruct (isGitRepo w); cbn [negb].
  - destruct (revList w (scopeOf options)) as [output | message].
    + split.
      * match goal with
        | |- context [if ?c then PrintedJson _ else _] => destruct c
        end; discriminate.
      * intros [[Hno _] | [_ [message [Hm _]]]]; discriminate.
    + split.
      * intros Heq. injection Heq as <-. right. split; [reflexivity | ].
        now exists message.
      * intros [[Hno _] | [_ [m [Hm ->]]]]; [discriminate | ].
        now injection Hm as ->.
  - split.
    + intros Heq. injection Heq as <-. now left.
    + intros [[_ ->] | [Hyes _]]; [reflexivity | discriminate].
Qed.

Section SortByKey.

Context {A : Type} (key : A -> Z).

Lemma insertBy_key_sorted (x : A) (l : list A) :
  Sorted (keyNotSmaller key) l -> Sorted (keyNotSmaller key) (insertBy (byKeyDesc key) x l).
Proof.
  induction l as [| y l IH]; simpl; intros Hs.
  - repeat constructor.
  - unfold byKeyDesc at 1.
    destruct (Z.leb_spec (key y - key x) 0) as [Hle | Hgt].
    + constructor; [assumption | ]. constructor. unfold keyNotSmaller. lia.
    + inversion Hs as [| ? ? Hl Hhd]; subst.
      constructor; [now apply IH | ].
      destruct l as [| z l]; simpl.
      * constructor. unfold keyNotSmaller. lia.
      * unfold byKeyDesc at 1.
        destruct (Z.leb_spec (key z - key x) 0).
        -- constructor. unfold keyNotSmaller. lia.
        -- constructor. now inversion Hhd.
Qed.

Lemma sort_key_sorted (l : list A) :
  StronglySorted (keyNotSmaller key) (sort (byKeyDesc key) l).
Proof.
  apply Sorted_StronglySorted.
  - intros a b c Hab Hbc. unfold keyNotSmaller in *. lia.
  - induction l as [| x l IH]; simpl;
      [constructor | now apply insertBy_key_sorted].
Qed.

Lemma filter_strongly_sorted (f : A -> bool) (l : list A) :
  StronglySorted (keyNotSmaller key) l -> StronglySorted (keyNotSmaller key) (filter f l).
Proof.
  induction 1 as [| x l Hl IH Hall]; simpl; [constructor | ].
  destruct (f x); [ | assumption].
  constructor; [assumption | ].
  rewrite Forall_forall in *. intros y Hy. apply Hall.
  apply filter_In in Hy. tauto.
Qed.

Lemma firstn_strongly_sorted (k : nat) (l : list A) :
  StronglySorted (keyNotSmaller key) l -> StronglySorted (keyNotSmaller key) (firstn k l).
Proof.
  intros Hs. revert k. induction Hs as [| x l Hl IH Hall]; intros k.
  - rewrite firstn_nil. constructor.
  - destruct k as [| k]; simpl; [constructor | ].
    constructor; [apply IH | ].
    rewrite Forall_forall in *. intros y Hy. apply Hall.
    rewrite <- (firstn_skipn k l). apply in_or_app. now left.
Qed.

(** In a sorted array what is kept in front is not smaller than what is
    cut off. *)
Lemma firstn_above_rest (k : nat) (l : list A) (x y : A) :
  StronglySorted (keyNotSmaller key) l ->
  In x (firstn k l) -> In y (skipn k l) -> (key y <= key x)%Z.
Proof.
  intros Hs. revert k. induction Hs as [| z l Hl IH Hall]; intros k Hx Hy.
  - rewrite firstn_nil in Hx. contradiction.
  - destruct k as [| k]; simpl in Hx, Hy; [contradiction | ].
    destruct Hx as [<- | Hx].
    + rewrite Forall_forall in Hall. apply Hall.
      rewrite <- (firstn_skipn k l). apply in_or_app. now right.
    + now apply (IH k).
Qed.

Lemma strongly_sorted_adjacent (l : list A) :
  StronglySorted (keyNotSmaller key) l ->
  forall (i : nat) (a b : A),
    nth_error l i = Some a -> nth_error l (S i) = Some b ->
    (key b <= key a)%Z.
Proof.
  induction 1 as [| x l Hl IH Hall]; intros i a b Ha Hb.
  - destruct i; discriminate.
  - destruct i as [| i].
    + simpl in Ha, Hb. injection Ha as <-.
      rewrite Forall_forall in Hall. apply Hall.
      destruct l as [| y l]; [discriminate | ].
      simpl in Hb. injection Hb as <-. now left.
    + simpl in Ha. apply (IH i a b Ha Hb).
Qed.

End SortByKey.

Section Prefixes.

(** [slice(0, end)] keeps a prefix of the array. *)
Lemma sliceTo_prefix {A} (l : list A) (stop : number) :
  exists k, sliceTo l stop = firstn k l.
Proof.
  assert (Hzero : clampIndex (List.length l) 0 = 0).
  { unfold clampIndex. simpl. reflexivity. }
  destruct stop as [e | ]; unfold sliceTo, slice; rewrite Hzero; simpl skipn.
  - eexists. rewrite Nat.sub_0_r. reflexivity.
  - exists 0. reflexivity.
Qed.

Lemma sliceTo_count {A} (l : list A) (stop : Z) :
  (0 <= stop)%Z ->
  List.length (sliceTo l (Num stop)) = Nat.min (Z.to_nat stop) (List.length l).
Proof.
  intros Hstop. unfold sliceTo, slice, clampIndex.
  destruct (Z.ltb_spec stop 0) as [Hneg | _]; [lia | ].
  simpl (0 <? 0)%Z. cbv iota. rewrite length_firstn. simpl. lia.
Qed.

Lemma sliceTo_le {A} (l : list A) (stop : number) :
  List.length (sliceTo l stop) <= List.length l.
Proof.
  destruct (sliceTo_prefix l stop) as [k ->]. rewrite length_firstn. lia.
Qed.

End Prefixes.

Section Reports.

(** The inventory is sorted, whatever the outside world answers. *)
Lemma getAllObjects_sorted (w : World) (incl : bool)
  (objects : list GitObject) :
  getAllObjects w incl = Returns objects ->
  StronglySorted (keyNotSmaller size) objects.
Proof.
  unfold getAllObjects, getAllObjectsWith.
  destruct (revList w incl) as [output | message]; [ | discriminate].
  intros Heq. injection Heq as <-. apply (sort_key_sorted size).
Qed.

Lemma atLeast_upward (threshold : number) (x o : GitObject) :
  ge (Num (size x)) threshold = true -> (size x < size o)%Z ->
  ge (Num (size o)) threshold = true.
Proof.
  destruct threshold as [m | ]; simpl; [ | discriminate].
  rewrite !Z.leb_le. lia.
Qed.

Lemma map_object_files (l : list GitObject) :
  map object
      (map (fun o => {| object := o; category := categorizeFile (path o) |}) l)
  = l.
Proof. rewrite map_map. simpl. apply map_id. Qed.

End Reports.

(** X9: the files of the JSON report are the largest of the inventory at
    or above the threshold: they come in non-increasing order of size,
    every object of the inventory that is larger than one of them is one
    of them, and there are no more of them than [largeObjectCount], which
    is no more than [objectCount]. *)
Theorem largestFiles_are_largest
  (w : World) (options : Options) (r : JsonReport)
  (objects : list GitObject) :
  bloatCommand w options = PrintedJson r ->
  getAllObjects w (scopeOf options) = Returns objects ->
  (forall (i : nat) (f g : LargeFile),
      nth_error (largestFiles r) i = Some f ->
      nth_error (largestFiles r) (S i) = Some g ->
      (size (object g) <= size (object f))%Z)
  /\ (forall (f : LargeFile) (o : GitObject),
         In f (largestFiles r) -> In o objects ->
         (size (object f) < size o)%Z ->
         In o (map object (largestFiles r)))
  /\ (List.length (largestFiles r) <= largeObjectCount (stats r)
      <= objectCount (stats r))%nat.
Proof.
  intros Hrun Hobjects.
  destruct (bloatCommand_json w options r Hrun)
    as [objects' [Hobjects' [Hstats [Hfiles _]]]].
  rewrite Hobjects in Hobjects'. injection Hobjects' as <-.
  pose proof (getAllObjects_sorted w _ objects Hobjects) as Hsorted.
  set (filtered := atLeast (minSizeOf options) objects) in *.
  assert (Hfsorted : StronglySorted (keyNotSmaller size) filtered)
    by (apply filter_strongly_sorted; exact Hsorted).
  destruct (sliceTo_prefix filtered (limitOf options)) as [k Hk].
  assert (Hshown : map object (largestFiles r) = firstn k filtered).
  { rewrite Hfiles, Hk. apply map_object_files. }
  split; [ | split].
  - intros i f g Hf Hg.
    apply (strongly_sorted_adjacent size (firstn k filtered)
             (firstn_strongly_sorted size k filtered Hfsorted) i).
    + rewrite <- Hshown, nth_error_map, Hf. reflexivity.
    + rewrite <- Hshown, nth_error_map, Hg. reflexivity.
  - intros f o Hf Ho Hlarger. rewrite Hshown.
    assert (Hx : In (object f) (firstn k filtered)).
    { rewrite <- Hshown. now apply in_map. }
    assert (Hxf : In (object f) filtered).
    { rewrite <- (firstn_skipn k filtered). apply in_or_app. now left. }
    assert (Hof : In o filtered).
    { unfold filtered, atLeast in *. apply filter_In in Hxf.
      apply filter_In. split; [assumption | ].
      now apply (atLeast_upward _ (object f)). }
    rewrite <- (firstn_skipn k filtered) in Hof. apply in_app_or in Hof.
    destruct Hof as [Hfront | Hrest]; [assumption | ].
    pose proof (firstn_above_rest size k filtered (object f) o
                  Hfsorted Hx Hrest). lia.
  - rewrite Hstats. cbn [largeObjectCount objectCount]. fold filtered.
    rewrite Hfiles, length_map. split; [apply sliceTo_le | ].
    unfold filtered, atLeast. apply filter_length_le.
Qed.

(** The sample with a threshold of 100 bytes and a limit of 2: [aaa] and
    [bbb] are listed, [ccc], which is not larger than either, is not. *)
Lemma largestFiles_are_largest_witness :
  exists r,
    bloatCommand sampleWorld topTwoOptions = PrintedJson r
    /\ map (fun f => hash (object f)) (largestFiles r) = ["aaa"; "bbb"]
    /\ (forall f o, In f (largestFiles r) -> In o sampleInventory ->
                    (size (object f) < size o)%Z ->
                    In o (map object (largestFiles r))).
Proof.
  eexists. split; [reflexivity | ]. split; [reflexivity | ].
  apply (largestFiles_are_largest sampleWorld topTwoOptions _ sampleInventory);
    reflexivity.
Defined.

Section TextReport.

(** What a text report is made of. *)
Lemma bloatCommand_text_fields (w : World) (options : Options)
  (r : TextReport) :
  bloatCommand w options = PrintedText r ->
  exists objects,
    getAllObjects w (scopeOf options) = Returns objects
    /\ summaryGitDir r = getGitDirSize w
    /\ summaryWorkingDir r = getWorkingDirSize w
    /\ summaryTotalObjects r = List.length objects
    /\ summaryOverMinSize r
       = List.length (atLeast (minSizeOf options) objects)
    /\ largestRows r
       = map (fun o => (shownPath (path o), size o, categorizeFile (path o)))
             (sliceTo (atLeast (minSizeOf options) objects) (limitOf options))
    /\ moreLargeFiles r
       = match limitOf options with
         | Num l =>
             if (0 <? List.length (atLeast (minSizeOf options) objects))%nat
                && (l <? Z.of_nat
                           (List.length (atLeast (minSizeOf options) objects)))%Z
             then Some (Z.of_nat
                          (List.length (atLeast (minSizeOf options) objects))
                        - l)%Z
             else None
         | NaN => None
         end
    /\ categoryTotals r = categorize objects
    /\ categoryRows r
       = map (fun e =>
                (fst e, snd e,
                 (toFixed 1 (scaleBy (divide (Num (snd e)) (Num (sumSizes objects))) 100)
                  ++ "%")%string))
             (filter (fun e => (MB <? snd e)%Z)
                     (sort (byKeyDesc snd) (categorize objects)))
    /\ advice r
       = generateRecommendations objects (getGitDirSize w)
                                 (getWorkingDirSize w).
Proof.
  unfold bloatCommand, scopeOf, minSizeOf, limitOf, atLeast.
  destruct (isGitRepo w); simpl; [ | discriminate].
  destruct (getAllObjects w _) as [objects | message]; [ | discriminate].
  destruct (match output options with Some o => _ | None => false end);
    [discriminate | ].
  intros Heq. injection Heq as <-. exists objects. simpl.
  repeat split.
  destruct (0 <? List.length _)%nat eqn:Hany; [reflexivity | ].
  apply Nat.ltb_ge in Hany.
  destruct (filter _ objects); [ | simpl in Hany; lia].
  now rewrite sliceTo_nil.
Qed.

End TextReport.

(** X10: the two output modes report the same analysis.  For options
    that differ in [output] only, the text report shows the sizes, the
    counts and the recommendations of the JSON report, and its rows are
    the files of the JSON report with their paths shortened. *)
Theorem report_modes_agree
  (w : World) (json text : Options) (rj : JsonReport) :
  includeDeleted text = includeDeleted json ->
  limit text = limit json ->
  minSize text = minSize json ->
  output json = Some "json" ->
  output text <> Some "json" ->
  bloatCommand w json = PrintedJson rj ->
  exists rt,
    bloatCommand w text = PrintedText rt
    /\ summaryGitDir rt = gitDirSize (stats rj)
    /\ summaryWorkingDir rt = workingDirSize (stats rj)
    /\ summaryTotalObjects rt = objectCount (stats rj)
    /\ summaryOverMinSize rt = largeObjectCount (stats rj)
    /\ sumValues (categoryTotals rt) = totalObjectSize (stats rj)
    /\ advice rt = recommendations rj
    /\ largestRows rt
       = map (fun f => (shownPath (path (object f)), size (object f),
                        category f))
             (largestFiles rj).
Proof.
  intros Hincl Hlimit Hmin Hjson Htext Hrun.
  destruct (bloatCommand_json w json rj Hrun)
    as [objects [Hobjects [Hstats [Hfiles Hrec]]]].
  assert (Hscope : scopeOf text = scopeOf json)
    by (unfold scopeOf; now rewrite Hincl).
  assert (Hm : minSizeOf text = minSizeOf json)
    by (unfold minSizeOf; now rewrite Hmin).
  assert (Hl : limitOf text = limitOf json)
    by (unfold limitOf; now rewrite Hlimit).
  assert (Hrepo : isGitRepo w = true).
  { unfold bloatCommand in Hrun. destruct (isGitRepo w);
      [reflexivity | discriminate]. }
  assert (Hprints : exists rt, bloatCommand w text = PrintedText rt).
  { unfold bloatCommand. rewrite Hrepo. cbn [negb].
    fold (scopeOf text). rewrite Hscope, Hobjects.
    destruct (output text) as [o | ].
    - destruct (String.eqb_spec o "json") as [-> | _]; [congruence | ].
      eexists. reflexivity.
    - eexists. reflexivity. }
  destruct Hprints as [rt Hrt]. exists rt. split; [exact Hrt | ].
  destruct (bloatCommand_text_fields w text rt Hrt)
    as (objects' & Hobjects' & Hg & Hw & Hn & Hover & Hrows & _ & Htotals
        & _ & Hadvice).
  rewrite Hscope, Hobjects in Hobjects'. injection Hobjects' as <-.
  rewrite Hstats, Hrec, Hfiles.
  cbn [gitDirSize workingDirSize objectCount largeObjectCount totalObjectSize].
  rewrite Hg, Hw, Hn, Hover, Hrows, Htotals, Hadvice, Hm, Hl.
  repeat split.
  - unfold categorize. rewrite categorize_from, sumSizes_total.
    reflexivity.
  - now rewrite map_map.
Qed.

(** The two reports of the sample. *)
Lemma report_modes_agree_witness :
  exists rj rt,
    bloatCommand sampleWorld jsonOptions = PrintedJson rj
    /\ bloatCommand sampleWorld textOptions = PrintedText rt
    /\ advice rt = recommendations rj
    /\ summaryTotalObjects rt = objectCount (stats rj).
Proof.
  assert (Hj : exists rj, bloatCommand sampleWorld jsonOptions = PrintedJson rj)
    by (eexists; reflexivity).
  destruct Hj as [rj Hj].
  destruct (report_modes_agree sampleWorld jsonOptions textOptions rj
              eq_refl eq_refl eq_refl eq_refl) as (rt & Hrt & H);
    [discriminate | exact Hj | ].
  exists rj, rt. tauto.
Defined.

(** X11: with a limit that is not negative, the line that announces more
    large files is printed exactly when some are not shown, and the
    number it gives is the number of those: the rows shown and the
    number announced add up to the count above the threshold. *)
Theorem more_large_files_counted
  (w : World) (options : Options) (r : TextReport) (l : Z) :
  bloatCommand w options = PrintedText r ->
  limitOf options = Num l ->
  (0 <= l)%Z ->
  match moreLargeFiles r with
  | Some more =>
      (0 < more)%Z
      /\ Z.of_nat (List.length (largestRows r)) = l
      /\ (Z.of_nat (List.length (largestRows r)) + more
          = Z.of_nat (summaryOverMinSize r))%Z
  | None => List.length (largestRows r) = summaryOverMinSize r
  end.
Proof.
  intros Hrun Hlimit Hl.
  destruct (bloatCommand_text_fields w options r Hrun)
    as (objects & _ & _ & _ & _ & Hover & Hrows & Hmore & _).
  rewrite Hmore, Hrows, Hover, Hlimit, length_map, sliceTo_count by assumption.
  set (n := List.length (atLeast (minSizeOf options) objects)).
  destruct (Nat.ltb_spec 0 n) as [Hany | Hnone];
    destruct (Z.ltb_spec l (Z.of_nat n)) as [Hcut | Hall]; simpl; lia.
Qed.

(** Three objects above 100 bytes, a limit of 2: one more is announced. *)
Lemma more_large_files_counted_witness :
  exists r,
    bloatCommand sampleWorld topTwoTextOptions = PrintedText r
    /\ match moreLargeFiles r with
       | Some more =>
           (0 < more)%Z
           /\ Z.of_nat (List.length (largestRows r)) = 2%Z
           /\ (Z.of_nat (List.length (largestRows r)) + more
               = Z.of_nat (summaryOverMinSize r))%Z
       | None => List.length (largestRows r) = summaryOverMinSize r
       end.
Proof.
  assert (Hr : exists r,
             bloatCommand sampleWorld topTwoTextOptions = PrintedText r)
    by (eexists; reflexivity).
  destruct Hr as [r Hr]. exists r. split; [exact Hr | ].
  apply (more_large_files_counted sampleWorld topTwoTextOptions r 2 Hr);
    [reflexivity | lia].
Defined.

Section ShownPath.

Lemma length_append (s t : string) :
  String.length (s ++ t) = String.length s + String.length t.
Proof. induction s as [| a s IH]; simpl; [reflexivity | now rewrite IH]. Qed.

Lemma substring_all (s : string) : substring 0 (String.length s) s = s.
Proof. induction s as [| a s IH]; simpl; [reflexivity | now rewrite IH]. Qed.

(** The characters of a string from position [n] on are what is left when
    a front of [n] characters is taken away. *)
Lemma substring_tail (n : nat) :
  forall s : string,
    n <= String.length s ->
    exists front,
      s = (front ++ substring n (String.length s - n) s)%string
      /\ String.length front = n.
Proof.
  induction n as [| n IH]; intros s Hn.
  - exists "". rewrite Nat.sub_0_r, substring_all. now split.
  - destruct s as [| a s]; simpl in Hn; [lia | ].
    destruct (IH s) as [front [Heq Hlen]]; [lia | ].
    exists (String a front). simpl. rewrite <- Heq. now rewrite Hlen.
Qed.

End ShownPath.

(** X12: the path shown in a row of the text report takes at most 50
    characters: a path of up to 50 characters is shown as it is, a longer
    one as three dots followed by its last 47 characters. *)
Theorem shownPath_fits (p : string) :
  String.length (shownPath p) <= 50
  /\ (String.length p <= 50 -> shownPath p = p)
  /\ (50 < String.length p ->
      exists front,
        p = (front ++ lastChars 47 p)%string
        /\ String.length (lastChars 47 p) = 47
        /\ shownPath p = ("..." ++ lastChars 47 p)%string).
Proof.
  unfold shownPath, lastChars.
  destruct (Nat.ltb_spec 50 (String.length p)) as [Hlong | Hshort].
  - destruct (substring_tail (String.length p - 47) p) as [front [Heq Hlen]];
      [lia | ].
    replace (String.length p - (String.length p - 47)) with 47 in Heq by lia.
    assert (Hsuffix : String.length
                        (substring (String.length p - 47) 47 p) = 47).
    { apply (f_equal String.length) in Heq.
      rewrite length_append, Hlen in Heq. lia. }
    split; [ | split].
    + rewrite length_append, Hsuffix. simpl. lia.
    + lia.
    + intros _. now exists front.
  - split; [assumption | split]; [reflexivity | lia].
Qed.

(** A path of 61 characters. *)
Lemma shownPath_fits_witness :
  shownPath "src/components/dashboard/widgets/charts/assets/background.png"
  = ".../dashboard/widgets/charts/assets/background.png".
Proof.
  destruct (proj2 (proj2 (shownPath_fits
    "src/components/dashboard/widgets/charts/assets/background.png")))
    as [front [_ [_ Hshown]]].
  - simpl. lia.
  - rewrite Hshown. reflexivity.
Defined.

Section CategoryRows.

(** Dropping totals leaves the categories without repetition. *)
Lemma kept_categories_nodup (keep : string * Z -> bool)
  (totals : list (string * Z)) :
  NoDup (map fst totals) -> NoDup (map fst (filter keep totals)).
Proof.
  induction totals as [| [c total] totals IH]; simpl; intros Hnd;
    [constructor | ].
  inversion Hnd as [| ? ? Hnot Hrest]; subst.
  destruct (keep (c, total)); simpl; [ | now apply IH].
  constructor; [ | now apply IH].
  intros Hin. apply Hnot. apply in_map_iff in Hin.
  destruct Hin as [entry [Hentry Hin]]. apply filter_In in Hin.
  apply in_map_iff. exists entry. tauto.
Qed.

End CategoryRows.

(** X13: the rows of 'Size by Category' are the categories whose total
    is above 1 MB, each once, with that total, in non-increasing order of
    total. *)
Theorem category_rows_above_one_megabyte
  (w : World) (options : Options) (r : TextReport) :
  bloatCommand w options = PrintedText r ->
  (forall c total, (exists share, In (c, total, share) (categoryRows r))
                   <-> In (c, total) (categoryTotals r) /\ (MB < total)%Z)
  /\ NoDup (map (fun row => fst (fst row)) (categoryRows r))
  /\ (forall (i : nat) (row next : string * Z * string),
         nth_error (categoryRows r) i = Some row ->
         nth_error (categoryRows r) (S i) = Some next ->
         (snd (fst next) <= snd (fst row))%Z).
Proof.
  intros Hrun.
  destruct (bloatCommand_text_fields w options r Hrun)
    as (objects & _ & _ & _ & _ & _ & _ & _ & Htotals & Hrows & _).
  rewrite Hrows, Htotals.
  set (totals := categorize objects).
  set (kept := filter (fun e => (MB <? snd e)%Z) (sort (byKeyDesc snd) totals)).
  set (row := fun e : string * Z =>
                (fst e, snd e,
                 (toFixed 1 (scaleBy (divide (Num (snd e)) (Num (sumSizes objects))) 100)
                  ++ "%")%string)).
  assert (Hkept : forall e, In e kept <-> In e totals /\ (MB < snd e)%Z).
  { intros e. unfold kept. rewrite filter_In, Z.ltb_lt.
    split; intros [Hin Hs]; (split; [ | assumption]).
    - now apply (Permutation_in _ (sort_perm (byKeyDesc snd) totals)).
    - now apply (Permutation_in _
                   (Permutation_sym (sort_perm (byKeyDesc snd) totals))). }
  split; [ | split].
  - intros c total. split.
    + intros [share Hin]. apply in_map_iff in Hin.
      destruct Hin as [[c' t'] [Heq Hin]]. unfold row in Heq. simpl in Heq.
      injection Heq as -> -> _. now apply (Hkept (c, total)).
    + intros Hin. apply (Hkept (c, total)) in Hin.
      exists (snd (row (c, total))).
      change (c, total, snd (row (c, total))) with (row (c, total)).
      now apply in_map.
  - rewrite map_map. simpl. change (fun x : string * Z => fst x) with (@fst string Z).
    unfold kept. apply kept_categories_nodup.
    apply (Permutation_NoDup
             (Permutation_map fst
                (Permutation_sym (sort_perm (byKeyDesc snd) totals)))).
    destruct (categorize_keys objects [] (NoDup_nil _)
                (fun c Hc => match Hc with end)) as [Hnd _].
    exact Hnd.
  - intros i this next Hthis Hnext.
    rewrite nth_error_map in Hthis, Hnext.
    destruct (nth_error kept i) as [e | ] eqn:He; [ | discriminate].
    destruct (nth_error kept (S i)) as [e' | ] eqn:He'; [ | discriminate].
    injection Hthis as <-. injection Hnext as <-. simpl.
    apply (strongly_sorted_adjacent snd kept) with (i := i);
      [ | assumption | assumption].
    unfold kept. apply filter_strongly_sorted. apply sort_key_sorted.
Qed.

(** The sample: only [archive] is above 1 MB. *)
Lemma category_rows_above_one_megabyte_witness :
  exists r,
    bloatCommand sampleWorld textOptions = PrintedText r
    /\ map (fun row => fst row) (categoryRows r) = [("archive", 2000000%Z)]
    /\ NoDup (map (fun row => fst (fst row)) (categoryRows r)).
Proof.
  assert (Hr : exists r, bloatCommand sampleWorld textOptions = PrintedText r)
    by (eexists; reflexivity).
  destruct Hr as [r Hr]. exists r. split; [exact Hr | ].
  split.
  - pose proof Hr as Hrows. vm_compute in Hrows.
    injection Hrows as <-. reflexivity.
  - apply (category_rows_above_one_megabyte sampleWorld textOptions r Hr).
Defined.

(** ** The inventory, in full *)

Section KeptBatches.

Context {A : Type}.

Lemma nodup_app_apart (l1 l2 : list A) (x : A) :
  NoDup (l1 ++ l2) -> In x l1 -> ~ In x l2.
Proof.
  induction l1 as [| y l1 IH]; simpl; intros Hnd Hx Hc; [contradiction | ].
  inversion Hnd as [| ? ? Hnot Hrest]; subst.
  destruct Hx as [-> | Hx]; [ | now apply (IH Hrest Hx)].
  apply Hnot. apply in_or_app. now right.
Qed.

(** Dropping whole batches leaves the names without repetition. *)
Lemma nodup_concat_filter (keep : list A -> bool) (batches : list (list A)) :
  NoDup (List.concat batches) -> NoDup (List.concat (filter keep batches)).
Proof.
  induction batches as [| batch batches IH]; simpl; intros Hnd; [constructor | ].
  pose proof (NoDup_app_remove_l _ _ Hnd) as Hrest.
  destruct (keep batch); simpl; [ | now apply IH].
  apply NoDup_app; [now apply NoDup_app_remove_r in Hnd | now apply IH | ].
  intros x Hx Hin. apply (nodup_app_apart _ _ x Hnd Hx).
  apply in_concat in Hin. destruct Hin as [batch' [Hb Hx']].
  apply filter_In in Hb. apply in_concat. exists batch'. tauto.
Qed.

End KeptBatches.

(** ** Reading the listing *)

Section BlankListing.

Lemma batchesFrom_single (b : positive) (x : string) :
  batchesFrom b [x] 0 = [[x]].
Proof.
  pose proof (batchesFrom_concat b [x] 0) as Hconcat.
  pose proof (batchesFrom_nonempty b [x] 0) as Hne.
  simpl in Hconcat.
  destruct (batchesFrom b [x] 0) as [| batch batches]; [discriminate | ].
  inversion Hne as [| ? ? Hbatch Hrest]; subst.
  destruct batch as [| y batch]; [congruence | ].
  simpl in Hconcat. injection Hconcat as -> Happ.
  apply app_eq_nil in Happ. destruct Happ as [-> Hnil].
  destruct batches as [| batch2 batches]; [reflexivity | ].
  inversion Hrest as [| ? ? Hbatch2 _]; subst.
  simpl in Hnil. apply app_eq_nil in Hnil. destruct Hnil. congruence.
Qed.

End BlankListing.

(** X15: when the listing is blank (an empty repository listed with all its
    references), the map holds the empty name alone, the resolver is asked
    about no object, and the inventory is empty, whatever the store holds
    and whether the resolver fails or not. *)
Theorem blank_listing_empty_inventory
  (w : World) (store : string -> option N) (failure : string -> option string)
  (b : positive) (incl : bool) (output : string) :
  revList w incl = Ok output ->
  trim output = "" ->
  (forall input, catFile w input = gitCatFile store failure input) ->
  readListing output = [("", "")]
  /\ getAllObjectsWith b w incl = Returns [].
Proof.
  intros Hlist Hblank Hcat.
  assert (Hmap : readListing output = [("", "")])
    by (unfold readListing; now rewrite Hblank).
  split; [exact Hmap | ].
  unfold getAllObjectsWith. rewrite Hlist. cbv zeta. rewrite Hmap.
  rewrite batchLoop_fold. change (Map.keys [("", "")]) with [""].
  rewrite batchesFrom_single. simpl. unfold resolveBatch.
  rewrite Hcat. unfold gitCatFile. simpl.
  destruct (failure ""); reflexivity.
Qed.

Lemma blank_listing_empty_inventory_witness :
  getAllObjectsWith 500 blankWorld true = Returns [].
Proof.
  apply (blank_listing_empty_inventory blankWorld sampleStore noFailure
           500 true NL eq_refl eq_refl (fun _ => eq_refl)).
Defined.

Section ListingRoundTrip.

Lemma splitWs_word (s : string) : noSpace s = true -> splitWs s = [s].
Proof.
  unfold noSpace. induction s as [| a s IH]; simpl; [reflexivity | ].
  intros H. apply andb_true_iff in H. destruct H as [Ha Hs].
  apply negb_true_iff in Ha. rewrite Ha, (IH Hs). reflexivity.
Qed.

Lemma splitWs_word_then (h rest : string) (b : ascii) :
  noSpace h = true -> isSpace b = false ->
  splitWs (h ++ String " " (String b rest)) = h :: splitWs (String b rest).
Proof.
  unfold noSpace. intros Hh Hb. induction h as [| a h IH].
  - change (splitWs (String " " (String b rest))
            = "" :: splitWs (String b rest)).
    cbn [splitWs]. change (isSpace " ") with true. cbv iota. now rewrite Hb.
  - simpl in Hh. apply andb_true_iff in Hh. destruct Hh as [Ha Hs].
    apply negb_true_iff in Ha.
    change (splitWs (String a (h ++ String " " (String b rest)))
            = String a h :: splitWs (String b rest)).
    cbn [splitWs]. rewrite Ha. fold splitWs. rewrite (IH Hs). reflexivity.
Qed.

Lemma join_cons2 (sep x y : string) (l : list string) :
  join sep (x :: y :: l) = (x ++ sep ++ join sep (y :: l))%string.
Proof. reflexivity. Qed.

Lemma word_head (s : string) :
  isWord s -> exists a t, s = String a t /\ isSpace a = false.
Proof.
  intros [Hs Hne]. destruct s as [| a t]; [congruence | ].
  exists a, t. split; [reflexivity | ].
  unfold noSpace in Hs. simpl in Hs. apply andb_true_iff in Hs.
  now apply negb_true_iff.
Qed.

(** The words of a line are read back. *)
Lemma splitWs_words (h : string) (words : list string) :
  noSpace h = true -> Forall isWord words ->
  splitWs (join " " (h :: words)) = h :: words.
Proof.
  intros Hh Hall. revert h Hh.
  induction Hall as [| x words Hx Hwords IH]; intros h Hh.
  - now apply splitWs_word.
  - rewrite join_cons2.
    destruct (word_head x Hx) as [a [t [Hxa Ha]]].
    assert (Hrest : exists rest, join " " (x :: words) = String a rest).
    { destruct words as [| y words]; subst x.
      - now exists t.
      - rewrite join_cons2. now eexists. }
    destruct Hrest as [rest Hrest].
    change (" " ++ join " " (x :: words))%string
      with (String " " (join " " (x :: words))).
    rewrite Hrest, (splitWs_word_then h rest a Hh Ha), <- Hrest.
    now rewrite (IH x (proj1 Hx)).
Qed.

Lemma stringAll_join (p : ascii -> bool) (sep : string) (l : list string) :
  stringAll p sep = true -> Forall (fun x => stringAll p x = true) l ->
  stringAll p (join sep l) = true.
Proof.
  intros Hsep Hall. induction Hall as [| x l Hx Hl IH]; [reflexivity | ].
  destruct l as [| y l]; [exact Hx | ].
  rewrite join_cons2, !stringAll_app, Hx, Hsep. exact IH.
Qed.

Lemma join_last (sep : string) (l : list string) (d : string) :
  l <> [] -> last l d <> "" ->
  exists front, join sep l = (front ++ last l d)%string.
Proof.
  induction l as [| x l IH]; [congruence | ].
  intros _ Hlast. destruct l as [| y l].
  - now exists "".
  - destruct (IH ltac:(discriminate) Hlast) as [front Hfront].
    exists (x ++ sep ++ front)%string.
    rewrite join_cons2, Hfront.
    change (last (x :: y :: l) d) with (last (y :: l) d).
    now rewrite <- !append_assoc.
Qed.

Lemma set_fresh {V} (k : string) (v : V) (m : list (string * V)) :
  ~ In k (Map.keys m) -> Map.set k v m = m ++ [(k, v)].
Proof.
  induction m as [| [k' v'] m IH]; simpl; intros Hk; [reflexivity | ].
  destruct (String.eqb_spec k' k) as [-> | _]; [tauto | ].
  rewrite IH; [reflexivity | tauto].
Qed.

Lemma fold_set_distinct (entries m : list (string * string)) :
  NoDup (Map.keys m ++ map fst entries) ->
  fold_left setEntry entries m = m ++ entries.
Proof.
  revert m. induction entries as [| [k v] entries IH]; intros m Hnd; simpl.
  - now rewrite app_nil_r.
  - unfold setEntry at 2. simpl fst. simpl snd.
    assert (Hfresh : ~ In k (Map.keys m)).
    { intros Hin. apply (nodup_app_apart _ _ k Hnd Hin). now left. }
    rewrite (set_fresh k v m Hfresh), IH.
    + now rewrite <- app_assoc.
    + unfold Map.keys. rewrite map_app, <- app_assoc. exact Hnd.
Qed.

End ListingRoundTrip.

Section ListedLines.

Lemma splitWs_word_space (h : string) :
  noSpace h = true -> splitWs (h ++ " ") = [h; ""].
Proof.
  unfold noSpace. induction h as [| a h IH]; [reflexivity | ].
  simpl. intros H. apply andb_true_iff in H. destruct H as [Ha Hs].
  apply negb_true_iff in Ha. rewrite Ha, (IH Hs). reflexivity.
Qed.

Lemma plainWords_words (words : list string) :
  Forall plainWord words -> Forall isWord words.
Proof. apply Forall_impl. intros w Hw. apply Hw. Qed.

(** A line with a path is the name and the words of the path, one space
    between them. *)
Lemma listedLine_words (name w : string) (ws : list string) :
  (name ++ " " ++ join " " (w :: ws))%string = join " " (name :: w :: ws).
Proof. reflexivity. Qed.

(** What the loop reads on a line. *)
Lemma lineEntry_listed (e : Listed) :
  wellListed e -> lineEntry (listedLine e) = readEntry e.
Proof.
  destruct e as [name [p | ]]; unfold wellListed, listedLine, readEntry,
    pathText, lineEntry; cbn [listedName listedPath];
    intros [[[Hname _] _] Hpath].
  - destruct Hpath as [[| w ws] [Hwords ->]].
    + change (name ++ " " ++ join " " [])%string with (name ++ " ")%string.
      now rewrite (splitWs_word_space name Hname).
    + rewrite listedLine_words.
      now rewrite (splitWs_words name (w :: ws) Hname (plainWords_words _ Hwords)).
  - now rewrite (splitWs_word name Hname).
Qed.

Lemma listedLine_free (e : Listed) :
  wellListed e ->
  stringAll (fun a => negb (Ascii.eqb a LF)) (listedLine e) = true.
Proof.
  destruct e as [name [p | ]]; unfold wellListed, listedLine;
    cbn [listedName listedPath]; intros [[[Hname _] _] Hpath].
  - destruct Hpath as [words [Hwords ->]].
    rewrite !stringAll_app, (noSpace_free LF name eq_refl Hname).
    simpl. apply stringAll_join; [reflexivity | ].
    rewrite Forall_forall in *. intros w Hw.
    apply noSpace_free; [reflexivity | apply (Hwords w Hw)].
  - now apply noSpace_free.
Qed.

(** A line is a text that begins and ends with a character that is no
    white space, followed by one space at most; the loop reads the same on
    the line and on that text. *)
Lemma listedLine_parts (e : Listed) :
  wellListed e ->
  exists (a : ascii) (clean tail : string),
    listedLine e = (String a clean ++ tail)%string
    /\ isSpace a = false
    /\ endsNonSpace (String a clean) = true
    /\ stringAll isSpace tail = true
    /\ stringAll (fun x => negb (Ascii.eqb x LF)) (String a clean) = true
    /\ lineEntry (String a clean) = readEntry e.
Proof.
  intros Hwell. pose proof (lineEntry_listed e Hwell) as Hentry.
  pose proof (listedLine_free e Hwell) as Hfree.
  destruct e as [name [p | ]]; unfold wellListed, listedLine in *;
    cbn [listedName listedPath] in *; destruct Hwell as [[Hname _] Hpath];
    destruct (word_head name Hname) as [a [t [-> Ha]]].
  - destruct Hpath as [[| w ws] [Hwords ->]].
    + exists a, t, " ". split; [reflexivity | ]. split; [exact Ha | ].
      split; [apply endsNonSpace_noSpace; [discriminate | apply Hname] | ].
      split; [reflexivity | ]. split.
      * apply noSpace_free; [reflexivity | apply Hname].
      * unfold lineEntry, readEntry, pathText. cbn [listedName listedPath].
        now rewrite (splitWs_word _ (proj1 Hname)).
    + exists a, (t ++ " " ++ join " " (w :: ws))%string, "".
      rewrite append_empty_r.
      split; [reflexivity | ]. split; [exact Ha | ].
      split; [ | split; [reflexivity | split; [exact Hfree | exact Hentry]]].
      change (String a (t ++ " " ++ join " " (w :: ws)))
        with (String a t ++ " " ++ join " " (w :: ws))%string.
      rewrite listedLine_words.
      assert (Hlast : isWord (last (String a t :: w :: ws) "")).
      { assert (Hall : Forall isWord (String a t :: w :: ws))
          by (constructor; [exact Hname | now apply plainWords_words]).
        rewrite Forall_forall in Hall. apply Hall.
        apply last_in. discriminate. }
      destruct (join_last " " (String a t :: w :: ws) ""
                  ltac:(discriminate) (proj2 Hlast)) as [front Hfront].
      rewrite Hfront, endsNonSpace_app by exact (proj2 Hlast).
      apply endsNonSpace_noSpace; apply Hlast.
  - exists a, t, "". rewrite append_empty_r.
    split; [reflexivity | ]. split; [exact Ha | ].
    split; [apply endsNonSpace_noSpace; [discriminate | apply Hname] | ].
    split; [reflexivity | split; [exact Hfree | exact Hentry]].
Qed.

Lemma trim_clean_app (a : ascii) (s t : string) :
  isSpace a = false -> endsNonSpace (String a s) = true ->
  stringAll isSpace t = true ->
  trim (String a s ++ t) = String a s.
Proof.
  intros Ha Hend Ht. unfold trim.
  change (String a s ++ t)%string with (String a (s ++ t)).
  simpl trimStart. rewrite Ha.
  change (String a (s ++ t)) with (String a s ++ t)%string.
  rewrite trimEnd_app_spaces by exact Ht.
  now apply trimEnd_clean.
Qed.

Lemma join_snoc_app (sep x t : string) (l : list string) :
  join sep (l ++ [(x ++ t)%string]) = (join sep (l ++ [x]) ++ t)%string.
Proof.
  induction l as [| y l IH]; [reflexivity | ].
  destruct l as [| z l].
  - simpl app. rewrite !join_cons2. simpl join at 1 2.
    now rewrite !append_assoc.
  - change ((y :: z :: l) ++ [(x ++ t)%string])
      with (y :: (z :: l) ++ [(x ++ t)%string]).
    change ((y :: z :: l) ++ [x]) with (y :: (z :: l) ++ [x]).
    simpl app in *. rewrite !join_cons2, IH. now rewrite !append_assoc.
Qed.

Lemma join_head (sep : string) (a : ascii) (r : string) (l : list string) :
  exists rest, join sep (String a r :: l) = String a rest.
Proof.
  destruct l as [| y l]; [now exists r | ].
  rewrite join_cons2. now eexists.
Qed.

(** The entries the loop reads on a listing are the entries listed. *)
Lemma listingEntries_listing (entries : list Listed) :
  entries <> [] -> Forall wellListed entries ->
  listingEntries (listingText entries) = map readEntry entries.
Proof.
  intros Hne Hall.
  destruct (exists_last Hne) as [front [e ->]].
  apply Forall_app in Hall. destruct Hall as [Hfront He].
  inversion He as [| ? ? Hlast _]; subst.
  destruct (listedLine_parts e Hlast)
    as [a [clean [tail [Hline [Ha [Hend [Htail [Hfree Hentry]]]]]]]].
  unfold listingEntries, listingText. rewrite map_app. simpl map.
  rewrite Hline, join_snoc_app, append_assoc.
  set (ls := map listedLine front).
  assert (Hstart : exists b rest,
             join NL (ls ++ [String a clean]) = String b rest
             /\ isSpace b = false).
  { unfold ls. destruct front as [| e1 front]; simpl map; simpl app.
    - exists a, clean. now split.
    - inversion Hfront as [| ? ? Hfirst _]; subst.
      destruct (listedLine_parts e1 Hfirst)
        as [b [c1 [t1 [Hl1 [Hb _]]]]].
      rewrite Hl1.
      change (String b c1 ++ t1)%string with (String b (c1 ++ t1)).
      destruct (join_head NL b (c1 ++ t1)
                  (map listedLine front ++ [String a clean])) as [rest Hrest].
      exists b, rest. now split. }
  destruct Hstart as [b [rest [Hjoin Hb]]].
  assert (Hclean : endsNonSpace (join NL (ls ++ [String a clean])) = true).
  { destruct (join_last NL (ls ++ [String a clean]) "") as [fr Hfr].
    - destruct ls; discriminate.
    - rewrite last_last. discriminate.
    - rewrite last_last in Hfr.
      rewrite Hfr, endsNonSpace_app by discriminate. exact Hend. }
  rewrite Hjoin in Hclean |- *.
  rewrite (trim_clean_app b rest (tail ++ NL) Hb Hclean)
    by (rewrite stringAll_app, Htail; reflexivity).
  rewrite <- Hjoin. change NL with (String LF "").
  rewrite splitOn_join.
  - rewrite !map_app. simpl map. rewrite Hentry. f_equal.
    unfold ls. rewrite map_map. apply map_ext_in. intros e1 Hin.
    apply lineEntry_listed. rewrite Forall_forall in Hfront. now apply Hfront.
  - destruct ls; discriminate.
  - apply Forall_app. split; [ | now repeat constructor].
    unfold ls. rewrite Forall_forall in *. intros line Hin.
    apply in_map_iff in Hin. destruct Hin as [e1 [<- Hin]].
    apply listedLine_free. now apply Hfront.
Qed.

(** The map read from a listing without repeated names holds the entries
    listed, in their order. *)
Lemma readListing_listing (entries : list Listed) :
  entries <> [] -> Forall wellListed entries ->
  NoDup (map listedName entries) ->
  readListing (listingText entries) = map readEntry entries.
Proof.
  intros Hne Hall Hnd.
  rewrite readListing_fold, (listingEntries_listing entries Hne Hall).
  rewrite (fold_set_distinct (map readEntry entries) []); [reflexivity | ].
  simpl. rewrite map_map. exact Hnd.
Qed.

Lemma get_readEntry (entries : list Listed) (e : Listed) :
  NoDup (map listedName entries) -> In e entries ->
  Map.get (listedName e) (map readEntry entries) = Some (pathText e).
Proof.
  induction entries as [| x entries IH]; [contradiction | ].
  intros Hnd Hin. inversion Hnd as [| ? ? Hfresh Hrest]; subst.
  simpl. destruct (String.eqb_spec (listedName x) (listedName e)) as [Heq | Hne].
  - destruct Hin as [-> | Hin]; [reflexivity | ].
    exfalso. apply Hfresh. rewrite Heq. now apply in_map.
  - destruct Hin as [-> | Hin]; [congruence | now apply IH].
Qed.

(** The path of the object of a listed name. *)
Lemma pathOf_listed (entries : list Listed) (e : Listed) :
  NoDup (map listedName entries) -> In e entries ->
  pathOf (map readEntry entries) (listedName e) = pathOrUnknown e.
Proof.
  intros Hnd Hin. unfold pathOf. now rewrite (get_readEntry entries e Hnd Hin).
Qed.

End ListedLines.

(** X16: a listing as [git rev-list --objects] prints it, in ASCII, with
    paths whose words are one space apart and no name on two lines, is
    read back entry for entry: the map holds the names in the order of the
    lines, each with the path text of its line; the line of a commit (a
    name alone) and the line of the tree of a commit (a name and a space)
    give the empty path. *)
Theorem listing_read_back (entries : list Listed) :
  entries <> [] ->
  Forall wellListed entries ->
  NoDup (map listedName entries) ->
  readListing (listingText entries) = map readEntry entries
  /\ Map.keys (readListing (listingText entries)) = map listedName entries
  /\ (forall e, In e entries ->
        Map.get (listedName e) (readListing (listingText entries))
        = Some (pathText e)).
Proof.
  intros Hne Hall Hnd.
  rewrite (readListing_listing entries Hne Hall Hnd).
  split; [reflexivity | ]. split.
  - unfold Map.keys. now rewrite map_map.
  - intros e Hin. now apply get_readEntry.
Qed.

(** A commit, its tree, and a file whose path holds a space. *)
Lemma listing_read_back_witness :
  readListing ("c0ffee" ++ NL ++ "7ee " ++ NL ++ "beef my notes.txt" ++ NL)
  = [("c0ffee", ""); ("7ee", ""); ("beef", "my notes.txt")].
Proof.
  assert (Hword : forall s,
             noSpace s && negb (String.eqb s "") && isAscii s = true ->
             plainWord s).
  { intros s H. apply andb_true_iff in H. destruct H as [H Hascii].
    apply andb_true_iff in H. destruct H as [Hspace Hne].
    apply negb_true_iff in Hne. apply String.eqb_neq in Hne.
    repeat split; assumption. }
  apply (listing_read_back
           [ {| listedName := "c0ffee"; listedPath := None |};
             {| listedName := "7ee"; listedPath := Some "" |};
             {| listedName := "beef"; listedPath := Some "my notes.txt" |} ]).
  - discriminate.
  - repeat apply Forall_cons; [ | | | constructor].
    + split; [now apply Hword | exact I].
    + split; [now apply Hword | now exists []].
    + split; [now apply Hword | ]. exists ["my"; "notes.txt"].
      split; [ | reflexivity].
      repeat apply Forall_cons; [now apply Hword | now apply Hword | constructor].
  - repeat constructor; simpl; intuition discriminate.
Defined.

Section ListedInventory.

Variable w : World.
Variable store : string -> option N.
Variable failure : string -> option string.
Variable incl : bool.
Variable entries : list Listed.

Hypothesis listed : entries <> [].
Hypothesis well : Forall wellListed entries.
Hypothesis once : NoDup (map listedName entries).
Hypothesis listing : revList w incl = Ok (listingText entries).
Hypothesis catFile_git :
  forall input, catFile w input = gitCatFile store failure input.
Hypothesis resolve :
  forall e, In e entries -> objectSize store (listedName e) <> None.

Lemma listedNames_listing :
  listedNames (listingText entries) = map listedName entries.
Proof.
  unfold listedNames. rewrite (listingEntries_listing entries listed well).
  now rewrite map_map.
Qed.

Lemma listed_resolve_all (h : string) :
  In h (listedNames (listingText entries)) -> objectSize store h <> None.
Proof.
  rewrite listedNames_listing, in_map_iff. intros [e [<- He]].
  now apply resolve.
Qed.

(** The inventory, written out on the entries listed. *)
Lemma inventory_listed (b : positive) :
  getAllObjectsWith b w incl
  = Returns (sort bySizeDesc
               (map (entryOf (map readEntry entries) store)
                    (List.concat
                       (survivors failure
                          (batchesFrom b (map listedName entries) 0))))).
Proof.
  rewrite (inventory_git w store failure incl (listingText entries)
             listing catFile_git listed_resolve_all b).
  rewrite (readListing_listing entries listed well once).
  unfold Map.keys. now rewrite map_map.
Qed.

End ListedInventory.

(** ** The walk of the history *)

Section Walk.

Lemma firstVisits_in (visits : list Listed) (seen : list string) (e : Listed) :
  In e (firstVisits seen visits) -> In e visits.
Proof.
  revert seen. induction visits as [| v rest IH]; intros seen; simpl;
    [tauto | ].
  destruct (arrayIncludes seen (listedName v)).
  - intros Hin. right. now apply (IH seen).
  - intros [<- | Hin]; [now left | right; now apply (IH _ Hin)].
Qed.

Lemma firstVisits_fresh (visits : list Listed) (seen : list string)
  (e : Listed) :
  In e (firstVisits seen visits) -> ~ In (listedName e) seen.
Proof.
  revert seen. induction visits as [| v rest IH]; intros seen; simpl;
    [tauto | ].
  destruct (arrayIncludes seen (listedName v)) eqn:Hseen.
  - apply IH.
  - intros [<- | Hin].
    + intros Hin. apply arrayIncludes_In in Hin. congruence.
    + intros Hs. apply (IH _ Hin). now right.
Qed.

(** The command prints no name twice. *)
Lemma firstVisits_nodup (visits : list Listed) (seen : list string) :
  NoDup (map listedName (firstVisits seen visits)).
Proof.
  revert seen. induction visits as [| v rest IH]; intros seen; simpl;
    [constructor | ].
  destruct (arrayIncludes seen (listedName v)); [apply IH | ].
  simpl. constructor; [ | apply IH].
  intros Hin. apply in_map_iff in Hin. destruct Hin as [e [Heq He]].
  apply (firstVisits_fresh _ _ _ He). left. now symmetry.
Qed.



Lemma firstVisits_nonempty (visits : list Listed) :
  visits <> [] -> firstVisits [] visits <> [].
Proof. destruct visits; [congruence | discriminate]. Qed.

End Walk.

Section Samples.

Lemma plainWord_check (s : string) :
  noSpace s && negb (String.eqb s "") && isAscii s = true -> plainWord s.
Proof.
  intros H. apply andb_true_iff in H. destruct H as [H Hascii].
  apply andb_true_iff in H. destruct H as [Hspace Hne].
  apply negb_true_iff in Hne. apply String.eqb_neq in Hne.
  repeat split; assumption.
Qed.

Lemma plainWords_check (words : list string) :
  forallb (fun s => noSpace s && negb (String.eqb s "") && isAscii s) words
  = true ->
  Forall plainWord words.
Proof.
  intros H. rewrite forallb_forall in H. rewrite Forall_forall.
  intros s Hs. apply plainWord_check. now apply H.
Qed.

Lemma wellListed_commit (name : string) :
  plainWord name -> wellListed {| listedName := name; listedPath := None |}.
Proof. intros Hname. now split. Qed.

Lemma wellListed_path (name : string) (words : list string) :
  plainWord name -> Forall plainWord words ->
  wellListed {| listedName := name; listedPath := Some (join " " words) |}.
Proof. intros Hname Hwords. split; [exact Hname | now exists words]. Qed.

Lemma sampleVisits_well : Forall wellListed sampleVisits.
Proof.
  unfold sampleVisits. repeat apply Forall_cons; [ | | | | | constructor].
  - apply wellListed_commit. now apply plainWord_check.
  - apply (wellListed_path "ddd" []); [now apply plainWord_check | constructor].
  - apply (wellListed_path "bbb" ["src/app.js"]);
      [now apply plainWord_check | now apply plainWords_check].
  - apply (wellListed_path "aaa" ["vendor/my"; "lib.tar.gz"]);
      [now apply plainWord_check | now apply plainWords_check].
  - apply (wellListed_path "bbb" ["docs/copy.js"]);
      [now apply plainWord_check | now apply plainWords_check].
Qed.

Lemma sampleVisits_resolve (v : Listed) :
  In v sampleVisits -> objectSize historyStore (listedName v) <> None.
Proof.
  intros Hv. simpl in Hv.
  repeat (destruct Hv as [<- | Hv]; [discriminate | ]). contradiction.
Qed.

End Samples.

(** ** The inventory of a listing *)

(** X14: on a listing as [git rev-list --objects] prints it (ASCII, paths
    with single spaces, every name on one line), over an object store that
    knows every listed name, and whichever batches fail, the inventory
    keeps name, path and size together: no name occurs twice, and every
    object bears the name of a line, the path text of that line as it is
    listed (the place holder when the line has none) and the size the
    store has for that name. *)
Theorem inventory_joins_name_path_size
  (w : World) (store : string -> option N) (failure : string -> option string)
  (b : positive) (incl : bool) (entries : list Listed)
  (objects : list GitObject) :
  entries <> [] ->
  Forall wellListed entries ->
  NoDup (map listedName entries) ->
  revList w incl = Ok (listingText entries) ->
  (forall input, catFile w input = gitCatFile store failure input) ->
  (forall e, In e entries -> objectSize store (listedName e) <> None) ->
  getAllObjectsWith b w incl = Returns objects ->
  NoDup (map hash objects)
  /\ (forall o, In o objects ->
        exists e,
          In e entries
          /\ hash o = listedName e
          /\ path o = pathOrUnknown e
          /\ objectSize store (hash o) = Some (Z.to_N (size o))
          /\ (0 <= size o)%Z).
Proof.
  intros Hne Hwell Hnd Hlist Hcat Hres Hrun.
  rewrite (inventory_listed w store failure incl entries Hne Hwell Hnd
             Hlist Hcat Hres b) in Hrun.
  injection Hrun as <-.
  set (m := map readEntry entries).
  set (names := List.concat
                  (survivors failure
                     (batchesFrom b (map listedName entries) 0))).
  assert (Hsub : forall h, In h names -> In h (map listedName entries)).
  { intros h Hh. unfold names in Hh. apply in_concat in Hh.
    destruct Hh as [batch [Hbatch Hh]]. unfold survivors in Hbatch.
    apply filter_In in Hbatch. destruct Hbatch as [Hbatch _].
    now apply (batchesFrom_incl b (map listedName entries) 0 batch). }
  assert (Hnames : NoDup names).
  { unfold names, survivors. apply nodup_concat_filter.
    now rewrite batchesFrom_concat. }
  split.
  - apply (Permutation_NoDup
             (Permutation_map hash
                (Permutation_sym (sort_perm bySizeDesc _)))).
    rewrite map_map. simpl. now rewrite map_id.
  - intros o Ho. apply (Permutation_in _ (sort_perm bySizeDesc _)) in Ho.
    apply in_map_iff in Ho. destruct Ho as [h [<- Hh]].
    apply Hsub in Hh. apply in_map_iff in Hh. destruct Hh as [e [<- He]].
    exists e. cbn [hash size path entryOf].
    split; [exact He | ]. split; [reflexivity | ].
    split; [now apply pathOf_listed | ].
    destruct (objectSize store (listedName e)) as [n | ] eqn:Hn;
      [ | now elim (Hres e He)].
    rewrite N2Z.id. split; [reflexivity | lia].
Qed.

(** The listing of the sample history, of which every object resolves. *)
Lemma inventory_joins_name_path_size_witness :
  exists objects,
    getAllObjectsWith 2 historyWorld true = Returns objects
    /\ NoDup (map hash objects)
    /\ (forall o, In o objects ->
          objectSize historyStore (hash o) = Some (Z.to_N (size o))).
Proof.
  assert (Hrun : exists objects,
             getAllObjectsWith 2 historyWorld true = Returns objects)
    by (eexists; reflexivity).
  destruct Hrun as [objects Hrun]. exists objects.
  assert (Hwell : Forall wellListed (firstVisits [] sampleVisits)).
  { pose proof sampleVisits_well as Hall. rewrite Forall_forall in *.
    intros e He. apply Hall. now apply (firstVisits_in sampleVisits [] e). }
  assert (Hres : forall e, In e (firstVisits [] sampleVisits) ->
                   objectSize historyStore (listedName e) <> None).
  { intros e He. apply sampleVisits_resolve.
    now apply (firstVisits_in sampleVisits [] e). }
  destruct (inventory_joins_name_path_size historyWorld historyStore noFailure
              2 true (firstVisits [] sampleVisits) objects
              (firstVisits_nonempty sampleVisits ltac:(discriminate))
              Hwell (firstVisits_nodup sampleVisits []) eq_refl
              (fun _ => eq_refl) Hres Hrun) as [Hnd Hall].
  split; [exact Hrun | ]. split; [exact Hnd | ].
  intros o Ho. destruct (Hall o Ho) as [e [_ [_ [_ [Hsize _]]]]].
  exact Hsize.
Defined.



(** ** The scan of tracked files *)

Section SortByKeyMore.

Context {A : Type} (key : A -> Z).

Lemma insertBy_of_key (s : Z) (x : A) (l : list A) :
  filter (fun a => (key a =? s)%Z) (insertBy (byKeyDesc key) x l)
  = filter (fun a => (key a =? s)%Z) (x :: l).
Proof.
  induction l as [| y l IH]; simpl; [reflexivity | ].
  unfold byKeyDesc at 1.
  destruct (Z.leb_spec (key y - key x) 0) as [Hle | Hgt]; [reflexivity | ].
  simpl. rewrite IH. simpl.
  destruct (Z.eqb_spec (key x) s) as [Hx | Hx]; [ | reflexivity].
  destruct (Z.eqb_spec (key y) s) as [Hy | Hy]; [lia | reflexivity].
Qed.

(** The sort keeps the elements of one key in their order. *)
Lemma sort_key_stable (s : Z) (l : list A) :
  filter (fun a => (key a =? s)%Z) (sort (byKeyDesc key) l)
  = filter (fun a => (key a =? s)%Z) l.
Proof.
  induction l as [| x l IH]; simpl; [reflexivity | ].
  rewrite insertBy_of_key. simpl. now rewrite IH.
Qed.

Lemma filter_insertBy (p : A -> bool) (x : A) (l : list A) :
  StronglySorted (keyNotSmaller key) l ->
  filter p (insertBy (byKeyDesc key) x l)
  = if p x then insertBy (byKeyDesc key) x (filter p l) else filter p l.
Proof.
  induction 1 as [| y l Hl IH Hall]; simpl.
  - destruct (p x); reflexivity.
  - unfold byKeyDesc at 1.
    destruct (Z.leb_spec (key y - key x) 0) as [Hle | Hgt]; simpl.
    + destruct (p x) eqn:Hx; destruct (p y) eqn:Hy; simpl; try reflexivity.
      * unfold byKeyDesc at 1.
        destruct (Z.leb_spec (key y - key x) 0); [reflexivity | lia].
      * assert (Hfront : forall r, Forall (keyNotSmaller key y) r ->
                  insertBy (byKeyDesc key) x r = x :: r).
        { intros r Hr. destruct r as [| z r]; [reflexivity | ]. simpl.
          inversion Hr as [| ? ? Hz _]; subst. unfold keyNotSmaller in Hz.
          unfold byKeyDesc.
          destruct (Z.leb_spec (key z - key x) 0); [reflexivity | lia]. }
        rewrite Hfront; [reflexivity | ].
        rewrite Forall_forall in *. intros z Hz. apply Hall.
        apply filter_In in Hz. tauto.
    + rewrite IH. destruct (p x) eqn:Hx; destruct (p y) eqn:Hy; simpl;
        try reflexivity.
      unfold byKeyDesc at 2.
      destruct (Z.leb_spec (key y - key x) 0); [lia | reflexivity].
Qed.

(** Sorting and filtering can be done in either order. *)
Lemma filter_sort (p : A -> bool) (l : list A) :
  filter p (sort (byKeyDesc key) l) = sort (byKeyDesc key) (filter p l).
Proof.
  induction l as [| x l IH]; simpl; [reflexivity | ].
  rewrite filter_insertBy by apply sort_key_sorted.
  rewrite IH. destruct (p x); reflexivity.
Qed.

End SortByKeyMore.

Section TreeScan.

Lemma slice_from {A} (l : list A) (k : nat) :
  slice l (Z.of_nat k) (Z.of_nat (List.length l)) = skipn k l.
Proof.
  destruct (Nat.le_gt_cases k (List.length l)) as [Hin | Hout].
  - replace (List.length l) with (k + (List.length l - k)) at 1 by lia.
    rewrite slice_batch. apply firstn_all2. rewrite length_skipn. lia.
  - unfold slice. rewrite !clampIndex_nat.
    rewrite (skipn_all2 l) by lia. rewrite skipn_all2 by lia.
    now rewrite firstn_nil.
Qed.

(** The loop body pushes the file of the line when it is over the limit. *)
Lemma readTreeLine_entry (maxSizeMB : quotient) (largeFiles : list TrackedFile)
  (line : string) :
  readTreeLine maxSizeMB largeFiles line
  = largeFiles ++ match treeEntry line with
                  | Some f => if overLimit maxSizeMB f then [f] else []
                  | None => []
                  end.
Proof.
  unfold readTreeLine, treeEntry, overLimit. cbv zeta.
  destruct (splitWs line) as [| p0 [| p1 [| p2 [| p3 [| p4 r]]]]];
    try (simpl; now rewrite app_nil_r).
  replace (5 <=? List.length (p0 :: p1 :: p2 :: p3 :: p4 :: r))%nat with true
    by (symmetry; apply Nat.leb_le; simpl; lia).
  change 4%Z with (Z.of_nat 4). rewrite slice_from.
  change (nth 3 (p0 :: p1 :: p2 :: p3 :: p4 :: r) "") with p3.
  change (skipn 4 (p0 :: p1 :: p2 :: p3 :: p4 :: r)) with (p4 :: r).
  destruct (parseInt p3) as [s | ]; [ | now rewrite app_nil_r].
  cbn [fileSize]. destruct (exceeds s maxSizeMB); [reflexivity | ].
  now rewrite app_nil_r.
Qed.

Lemma fold_readTreeLine (maxSizeMB : quotient) (lines : list string)
  (largeFiles : list TrackedFile) :
  fold_left (readTreeLine maxSizeMB) lines largeFiles
  = largeFiles
    ++ filter (overLimit maxSizeMB)
         (flat_map (fun line => match treeEntry line with
                                | Some f => [f]
                                | None => []
                                end) lines).
Proof.
  revert largeFiles. induction lines as [| line lines IH]; intros largeFiles;
    simpl; [now rewrite app_nil_r | ].
  rewrite IH, readTreeLine_entry, <- app_assoc. f_equal.
  rewrite filter_app. f_equal.
  destruct (treeEntry line) as [f | ]; [ | reflexivity].
  simpl. destruct (overLimit maxSizeMB f); reflexivity.
Qed.

(** The scan is the sort of the files over the limit. *)
Lemma scanLargeFiles_sorted_filter (output : string) (maxSizeMB : quotient) :
  scanLargeFiles (Ok output) maxSizeMB
  = sort (byKeyDesc fileSize)
         (filter (overLimit maxSizeMB) (treeEntries output)).
Proof.
  unfold scanLargeFiles, treeEntries. now rewrite fold_readTreeLine.
Qed.

End TreeScan.

(** X17: the scan of the tracked files returns exactly the files of the
    tree listing whose size is over the limit, each as often as the
    listing has it, the largest first, files of one size in the order of
    the listing; it returns nothing when the listing command fails. *)
Theorem scanLargeFiles_sound_complete
  (output message : string) (maxSizeMB : quotient) :
  let found := scanLargeFiles (Ok output) maxSizeMB in
  (forall f, In f found
             <-> In f (treeEntries output)
                 /\ exceeds (fileSize f) maxSizeMB = true)
  /\ Permutation found (filter (overLimit maxSizeMB) (treeEntries output))
  /\ StronglySorted (keyNotSmaller fileSize) found
  /\ (forall s, ofFileSize s found
                = ofFileSize s (filter (overLimit maxSizeMB)
                                       (treeEntries output)))
  /\ scanLargeFiles (Throws message) maxSizeMB = [].
Proof.
  cbv zeta. rewrite scanLargeFiles_sorted_filter.
  set (over := filter (overLimit maxSizeMB) (treeEntries output)).
  assert (Hperm : Permutation (sort (byKeyDesc fileSize) over) over)
    by apply sort_perm.
  split; [ | split; [exact Hperm | split; [apply sort_key_sorted | split]]].
  - intros f. split.
    + intros Hin. apply (Permutation_in _ Hperm) in Hin.
      apply filter_In in Hin. exact Hin.
    + intros [Hin Hover]. apply (Permutation_in _ (Permutation_sym Hperm)).
      apply filter_In. split; assumption.
  - intros s. unfold ofFileSize. apply (sort_key_stable fileSize).
  - reflexivity.
Qed.

Section TreeLines.

Lemma splitWs_run (sep rest : string) (b : ascii) :
  stringAll isSpace sep = true -> sep <> "" -> isSpace b = false ->
  splitWs (sep ++ String b rest) = "" :: splitWs (String b rest).
Proof.
  intros Hsep Hne Hb. induction sep as [| a sep IH]; [congruence | ].
  simpl in Hsep. apply andb_true_iff in Hsep. destruct Hsep as [Ha Hs].
  change (splitWs (String a (sep ++ String b rest))
          = "" :: splitWs (String b rest)).
  cbn [splitWs]. rewrite Ha. fold splitWs.
  destruct sep as [| a' sep].
  - simpl. now rewrite Hb.
  - change ((String a' sep ++ String b rest)%string)
      with (String a' (sep ++ String b rest)).
    cbv iota. simpl in Hs. apply andb_true_iff in Hs.
    rewrite (proj1 Hs).
    change (String a' (sep ++ String b rest))
      with (String a' sep ++ String b rest)%string.
    apply IH; [ | discriminate].
    simpl. now apply andb_true_iff.
Qed.

Lemma splitWs_word_run (w sep rest : string) (b : ascii) :
  noSpace w = true ->
  stringAll isSpace sep = true -> sep <> "" -> isSpace b = false ->
  splitWs (w ++ sep ++ String b rest) = w :: splitWs (String b rest).
Proof.
  unfold noSpace. intros Hw Hsep Hne Hb. induction w as [| a w IH].
  - now apply splitWs_run.
  - simpl in Hw. apply andb_true_iff in Hw. destruct Hw as [Ha Hs].
    apply negb_true_iff in Ha.
    change (splitWs (String a (w ++ sep ++ String b rest))
            = String a w :: splitWs (String b rest)).
    cbn [splitWs]. rewrite Ha. fold splitWs. rewrite (IH Hs). reflexivity.
Qed.

(** A word, a run of white space, and a text that begins with a word. *)
Lemma splitWs_word_gap (w sep v rest : string) :
  noSpace w = true ->
  stringAll isSpace sep = true -> sep <> "" -> isWord v ->
  splitWs (w ++ sep ++ v ++ rest) = w :: splitWs (v ++ rest).
Proof.
  intros Hw Hsep Hne Hv. destruct (word_head v Hv) as [a [t [-> Ha]]].
  change (String a t ++ rest)%string with (String a (t ++ rest)).
  now apply splitWs_word_run.
Qed.

Lemma spaces_all (k : nat) : stringAll isSpace (String " " (spaces k)) = true.
Proof. induction k as [| k IH]; [reflexivity | exact IH]. Qed.

Lemma decimal_word (n : N) : isWord (decimal n).
Proof.
  split.
  - apply (stringAll_impl isDigit); [ | apply decimal_digits].
    intros a Ha. now rewrite (isDigit_not_space a Ha).
  - destruct (decimal_head n) as [a [t [-> _]]]. discriminate.
Qed.

(** The fields of a line of the tree listing. *)
Lemma splitWs_treeLine (mode kind sha : string) (pad : nat)
  (sizeField : string) (word : string) (words : list string) :
  isWord mode -> isWord kind -> isWord sha -> isWord sizeField ->
  Forall isWord (word :: words) ->
  splitWs (treeLine mode kind sha pad sizeField (word :: words))
  = mode :: kind :: sha :: sizeField :: word :: words.
Proof.
  intros Hmode Hkind Hsha Hsize Hwords. unfold treeLine.
  rewrite (splitWs_word_gap mode " " kind _ (proj1 Hmode) eq_refl
             ltac:(discriminate) Hkind).
  rewrite (splitWs_word_gap kind " " sha _ (proj1 Hkind) eq_refl
             ltac:(discriminate) Hsha).
  rewrite (splitWs_word_gap sha (String " " (spaces pad)) sizeField _
             (proj1 Hsha) (spaces_all pad) ltac:(discriminate) Hsize).
  inversion Hwords as [| ? ? Hword Hrest]; subst.
  destruct (word_head word Hword) as [a [t [Hwa Ha]]].
  assert (Hjoin : exists rest, join " " (word :: words) = String a rest).
  { destruct words as [| y ys]; subst word.
    - now exists t.
    - rewrite join_cons2. now eexists. }
  destruct Hjoin as [rest Hjoin].
  change (String TAB (join " " (word :: words)))
    with (String TAB "" ++ join " " (word :: words))%string.
  rewrite Hjoin.
  rewrite (splitWs_word_run sizeField (String TAB "") rest a
             (proj1 Hsize) eq_refl ltac:(discriminate) Ha).
  rewrite <- Hjoin, (splitWs_words word words (proj1 Hword) Hrest).
  reflexivity.
Qed.

End TreeLines.

(** X18: a line of the tree listing, with mode, type and object name, a
    size set to the right by any number of spaces, a tabulation and a path
    whose words are one space apart, is read as the file of that path and
    that size, which is pushed when the size is over the limit; a line
    whose size field is a dash, as for a submodule, adds nothing. *)
Theorem tree_line_read
  (mode kind sha : string) (pad : nat) (n : N) (words : list string)
  (maxSizeMB : quotient) (largeFiles : list TrackedFile) :
  isWord mode -> isWord kind -> isWord sha ->
  words <> [] -> Forall isWord words ->
  readTreeLine maxSizeMB largeFiles
    (treeLine mode kind sha pad (decimal n) words)
  = (if exceeds (Z.of_N n) maxSizeMB
     then largeFiles
          ++ [ {| filePath := join " " words;
                  fileSize := Z.of_N n;
                  sizeMB := toFixed 2 (Finite (Z.of_N n) (1024 * 1024)) |} ]
     else largeFiles)
  /\ readTreeLine maxSizeMB largeFiles (treeLine mode kind sha pad "-" words)
     = largeFiles.
Proof.
  intros Hmode Hkind Hsha Hne Hwords.
  destruct words as [| word words]; [congruence | ].
  rewrite !readTreeLine_entry. unfold treeEntry.
  rewrite (splitWs_treeLine mode kind sha pad (decimal n) word words
             Hmode Hkind Hsha (decimal_word n) Hwords).
  assert (Hdash : isWord "-") by (split; [reflexivity | discriminate]).
  rewrite (splitWs_treeLine mode kind sha pad "-" word words
             Hmode Hkind Hsha Hdash Hwords).
  rewrite parseInt_decimal. change (parseInt "-") with NaN.
  unfold overLimit. cbn [fileSize]. split.
  - destruct (exceeds (Z.of_N n) maxSizeMB); [reflexivity | ].
    now rewrite app_nil_r.
  - now rewrite app_nil_r.
Qed.

(** A file of 60 MB under the default limit of 10 MB. *)
Lemma tree_line_read_witness :
  readTreeLine defaultMaxSizeMB []
    (treeLine "100644" "blob" "aaa" 0 (decimal 62914560)
              ["media/intro"; "clip.mov"])
  = [ {| filePath := "media/intro clip.mov"; fileSize := 62914560;
         sizeMB := "60.00" |} ].
Proof.
  assert (Hword : forall s, noSpace s = true -> s <> "" -> isWord s)
    by (intros s Hs Hne; now split).
  destruct (tree_line_read "100644" "blob" "aaa" 0 62914560
              ["media/intro"; "clip.mov"] defaultMaxSizeMB []
              (Hword "100644" eq_refl ltac:(discriminate))
              (Hword "blob" eq_refl ltac:(discriminate))
              (Hword "aaa" eq_refl ltac:(discriminate))
              ltac:(discriminate)
              ltac:(repeat constructor; discriminate)) as [Hread _].
  rewrite Hread. reflexivity.
Defined.

(** ** The CI command *)

Section CiFacts.

Lemma fold_counts (values : list Check) (start : nat) :
  fold_left (fun sum check => sum + countOf check) values start
  = start + list_sum (map countOf values).
Proof.
  revert start. induction values as [| c values IH]; intros start; simpl;
    [lia | ]. rewrite IH. lia.
Qed.

Lemma issues_fold (checks : list (string * Check)) :
  fold_left (fun sum check => sum + countOf check) (Map.values checks) 0
  = issuesOf checks.
Proof.
  rewrite fold_counts. unfold issuesOf, Map.values. now rewrite map_map.
Qed.

Lemma anyIssue_issues (checks : list (string * Check)) :
  anyIssue checks = false <-> issuesOf checks = 0.
Proof.
  unfold anyIssue, issuesOf. induction checks as [| [k c] checks IH]; simpl.
  - tauto.
  - rewrite orb_false_iff, IH, Nat.ltb_ge. lia.
Qed.

End CiFacts.

(** X19: with no fail-on option the CI command runs the four checks, the
    large files over 50 MB, and whatever they find the exit code is 0 and
    the summary says pass; the issues of the summary are the sum of the
    four counts. *)
Theorem ci_run_all_never_fails
  (parseFloat : string -> quotient) (w : CiWorld) (options : CiOptions) :
  ciIsGitRepo w = true ->
  requestedChecks parseFloat w options = [] ->
  exists r,
    ciCommand parseFloat w options = CiPrinted r
    /\ repository r = ciRepoPath w
    /\ checks r = allChecks w
    /\ exitCode r = 0%Z
    /\ summaryPass r = true
    /\ summaryIssues r = issuesOf (allChecks w).
Proof.
  intros Hrepo Hnone. unfold ciCommand. rewrite Hrepo. cbv zeta.
  unfold requestedChecks in Hnone.
  destruct (failOnSecrets options); [discriminate | ].
  destruct (failOnDuplicates options); [discriminate | ].
  destruct (failOnStaleFlags options); [discriminate | ].
  destruct (truthy (failOnBloat options)); [discriminate | ].
  eexists. split; [reflexivity | ]. cbn [repository checks exitCode
    summaryPass summaryIssues runCheck fst snd negb].
  do 4 (split; [reflexivity | ]). apply (issues_fold (allChecks w)).
Qed.

(** One secret and one file over 50 MB are found, and the run passes. *)
Lemma ci_run_all_never_fails_witness :
  exists r,
    ciCommand wholeLimit sampleCiWorld noCiOptions = CiPrinted r
    /\ exitCode r = 0%Z /\ summaryPass r = true /\ summaryIssues r = 2.
Proof.
  destruct (ci_run_all_never_fails wholeLimit sampleCiWorld noCiOptions
              eq_refl eq_refl) as [r [Hrun [_ [_ [Hexit [Hpass Hissues]]]]]].
  exists r. split; [exact Hrun | ]. split; [exact Hexit | ].
  split; [exact Hpass | ]. rewrite Hissues. reflexivity.
Defined.

(** X20: with at least one fail-on option the CI command records the
    checks asked for, in the order secrets, duplicate authors, stale
    flags, large files, and no other; the exit code is 1 when one of them
    counts an issue and 0 otherwise, and the summary says pass exactly
    when the sum of their counts is 0. *)
Theorem ci_exit_code
  (parseFloat : string -> quotient) (w : CiWorld) (options : CiOptions) :
  ciIsGitRepo w = true ->
  requestedChecks parseFloat w options <> [] ->
  exists r,
    ciCommand parseFloat w options = CiPrinted r
    /\ checks r = requestedChecks parseFloat w options
    /\ exitCode r = (if anyIssue (checks r) then 1 else 0)%Z
    /\ summaryIssues r = issuesOf (checks r)
    /\ (summaryPass r = true <-> summaryIssues r = 0)
    /\ (exitCode r = 0%Z <-> summaryIssues r = 0).
Proof.
  intros Hrepo Hsome.
  assert (Hmain : exists r,
             ciCommand parseFloat w options = CiPrinted r
             /\ checks r = requestedChecks parseFloat w options
             /\ exitCode r
                = (if anyIssue (requestedChecks parseFloat w options)
                   then 1 else 0)%Z
             /\ summaryIssues r = issuesOf (requestedChecks parseFloat w options)
             /\ summaryPass r = (exitCode r =? 0)%Z).
  { unfold ciCommand, requestedChecks in *. rewrite Hrepo. cbv zeta.
    destruct (failOnSecrets options), (failOnDuplicates options),
      (failOnStaleFlags options), (truthy (failOnBloat options));
      cbn [app] in Hsome; try congruence;
      (eexists; split; [reflexivity | ]);
      cbn [checks exitCode summaryPass summaryIssues];
      rewrite issues_fold; unfold runCheck, anyIssue;
      cbn [fst snd Map.set Map.keys map List.length Nat.eqb app existsb
           String.eqb Ascii.eqb Bool.eqb orb negb];
      (split; [reflexivity | ]);
      (split; [ | split; reflexivity]);
      repeat match goal with
             | |- context [(0 <? countOf ?c)%nat] =>
                 destruct (0 <? countOf c)%nat; cbn [orb]
             end; reflexivity. }
  destruct Hmain as [r [Hrun [Hchecks [Hexit [Hissues Hpass]]]]].
  exists r. rewrite Hchecks.
  split; [exact Hrun | ]. split; [reflexivity | ]. split; [exact Hexit | ].
  split; [exact Hissues | ].
  rewrite Hpass, Hexit, Hissues.
  pose proof (anyIssue_issues (requestedChecks parseFloat w options)) as Hiff.
  destruct (anyIssue (requestedChecks parseFloat w options)); simpl.
  - split; split; intros H; try discriminate;
      apply Hiff in H; discriminate.
  - split; split; intros _; try reflexivity; now apply Hiff.
Qed.

(** A limit of 30 MB: one file is over it, the run fails; the secret is
    not looked for. *)
Lemma ci_exit_code_witness :
  exists r,
    ciCommand wholeLimit sampleCiWorld (bloatCiOptions "30") = CiPrinted r
    /\ map fst (checks r) = ["largeFiles"]
    /\ exitCode r = 1%Z.
Proof.
  destruct (ci_exit_code wholeLimit sampleCiWorld (bloatCiOptions "30")
              eq_refl ltac:(discriminate))
    as [r [Hrun [Hchecks [Hexit _]]]].
  exists r. split; [exact Hrun | ]. split.
  - rewrite Hchecks. reflexivity.
  - rewrite Hexit, Hchecks. reflexivity.
Defined.

(** X21: a limit that is no number never fails the large-file check:
    when the text of the fail-on-bloat option parses to [NaN], or to plus
    infinity, the check counts no file, whatever the tree holds, and when
    it is the only option the run passes with exit code 0. *)
Theorem ci_limit_not_a_number
  (parseFloat : string -> quotient) (w : CiWorld) (limit : string) :
  ciIsGitRepo w = true ->
  limit <> "" ->
  parseFloat limit = NotANumber \/ parseFloat limit = PlusInfinity ->
  scanLargeFiles (lsTreeHead w) (parseFloat limit) = []
  /\ exists r,
       ciCommand parseFloat w (bloatCiOptions limit) = CiPrinted r
       /\ checks r = [("largeFiles", LargeFilesCheck (parseFloat limit) 0 [])]
       /\ exitCode r = 0%Z
       /\ summaryPass r = true
       /\ summaryIssues r = 0.
Proof.
  intros Hrepo Hne Hlimit.
  assert (Hscan : scanLargeFiles (lsTreeHead w) (parseFloat limit) = []).
  { destruct (lsTreeHead w) as [output | message]; [ | reflexivity].
    rewrite scanLargeFiles_sorted_filter.
    replace (filter (overLimit (parseFloat limit)) (treeEntries output))
      with (@nil TrackedFile); [reflexivity | ].
    assert (Hnone : forall f, overLimit (parseFloat limit) f = false)
      by (intros f; unfold overLimit; destruct Hlimit as [-> | ->];
          reflexivity).
    symmetry. induction (treeEntries output) as [| f files IH];
      [reflexivity | ].
    simpl. now rewrite Hnone. }
  split; [exact Hscan | ].
  assert (Htruthy : truthy (Some limit) = true).
  { simpl. destruct (String.eqb_spec limit ""); [congruence | reflexivity]. }
  unfold ciCommand. rewrite Hrepo. cbv zeta.
  cbn [bloatCiOptions failOnSecrets failOnDuplicates failOnStaleFlags
       failOnBloat]. rewrite Htruthy.
  assert (Horelse : orElse (Some limit) "" = limit).
  { unfold orElse. destruct (String.eqb_spec limit ""); [congruence | ].
    destruct limit; [congruence | reflexivity]. }
  rewrite Horelse. unfold largeFilesCheck. rewrite Hscan.
  eexists. split; [reflexivity | ]. repeat split.
Qed.

Lemma ci_limit_not_a_number_witness :
  exists r,
    ciCommand wholeLimit sampleCiWorld (bloatCiOptions "ten") = CiPrinted r
    /\ exitCode r = 0%Z.
Proof.
  destruct (ci_limit_not_a_number wholeLimit sampleCiWorld "ten" eq_refl
              ltac:(discriminate) (or_introl eq_refl))
    as [_ [r [Hrun [_ [Hexit _]]]]].
  exists r. split; assumption.
Defined.

(** ** Limits of the scan *)

(** X22: raising the limit only removes files: when every size over the
    higher limit is over the lower one, the scan with the higher limit is
    the scan with the lower one without the files that are not over the
    higher limit, in the same order. *)
Theorem scanLargeFiles_higher_limit (lsTree : exec) (low high : quotient) :
  (forall s, exceeds s high = true -> exceeds s low = true) ->
  scanLargeFiles lsTree high
  = filter (overLimit high) (scanLargeFiles lsTree low)
  /\ List.length (scanLargeFiles lsTree high)
     <= List.length (scanLargeFiles lsTree low).
Proof.
  intros Hlimits.
  assert (Heq : scanLargeFiles lsTree high
                = filter (overLimit high) (scanLargeFiles lsTree low)).
  { destruct lsTree as [output | message]; [ | reflexivity].
    rewrite !scanLargeFiles_sorted_filter, (filter_sort fileSize). f_equal.
    induction (treeEntries output) as [| f files IH]; [reflexivity | ].
    simpl. destruct (overLimit high f) eqn:Hhigh.
    - unfold overLimit in *. rewrite (Hlimits _ Hhigh). simpl.
      rewrite Hhigh. now f_equal.
    - destruct (overLimit low f); [ | exact IH].
      simpl. now rewrite Hhigh. }
  split; [exact Heq | ]. rewrite Heq. apply filter_length_le.
Qed.

(** The limits of 50 MB and of 10 MB on the sample tree. *)
Lemma scanLargeFiles_higher_limit_witness :
  scanLargeFiles (Ok sampleTree) (Finite 50 1)
  = filter (overLimit (Finite 50 1))
           (scanLargeFiles (Ok sampleTree) defaultMaxSizeMB).
Proof.
  apply (scanLargeFiles_higher_limit (Ok sampleTree) defaultMaxSizeMB
           (Finite 50 1)).
  intros s. unfold exceeds, defaultMaxSizeMB. simpl.
  rewrite !Z.ltb_lt. lia.
Defined.

(** ** Duplicate authors *)

Section Duplicates.

Lemma get_set_any {V} (k h : string) (v : V) (m : list (string * V)) :
  Map.get h (Map.set k v m) = if String.eqb k h then Some v else Map.get h m.
Proof.
  induction m as [| [k' v'] m IH]; simpl; [reflexivity | ].
  destruct (String.eqb_spec k' k) as [-> | Hne]; simpl.
  - destruct (String.eqb_spec k h); reflexivity.
  - rewrite IH. destruct (String.eqb_spec k' h) as [-> | Hne'];
      [ | reflexivity].
    destruct (String.eqb_spec k h); [congruence | reflexivity].
Qed.

Lemma get_none_keys {V} (k : string) (m : list (string * V)) :
  Map.get k m = None <-> ~ In k (Map.keys m).
Proof.
  induction m as [| [k' v'] m IH]; simpl; [tauto | ].
  destruct (String.eqb_spec k' k) as [-> | Hne].
  - split; [discriminate | tauto].
  - rewrite IH. tauto.
Qed.

Lemma get_some_keys {V} (k : string) (v : V) (m : list (string * V)) :
  Map.get k m = Some v -> In k (Map.keys m).
Proof.
  induction m as [| [k' v'] m IH]; simpl; [discriminate | ].
  destruct (String.eqb_spec k' k) as [-> | Hne]; [now left | ].
  intros Hget. right. now apply IH.
Qed.

Lemma firstWith_snoc (key : string) (earlier : list Author) (a : Author) :
  firstWith key (earlier ++ [a])
  = match firstWith key earlier with
    | Some c => Some c
    | None => if String.eqb (authorKey a) key then Some a else None
    end.
Proof.
  unfold firstWith. induction earlier as [| b earlier IH]; simpl.
  - reflexivity.
  - destruct (String.eqb (authorKey b) key); [reflexivity | exact IH].
Qed.

Lemma firstWith_none (key : string) (authors : list Author) :
  firstWith key authors = None <-> ~ In key (map authorKey authors).
Proof.
  unfold firstWith. induction authors as [| a authors IH]; simpl; [tauto | ].
  destruct (String.eqb_spec (authorKey a) key) as [Heq | Hne].
  - split; [discriminate | tauto].
  - rewrite IH. tauto.
Qed.

(** The loop, entered after [earlier] with what it has seen of them. *)
Lemma noteAuthor_fold (rest earlier : list Author)
  (seen : list (string * Author)) (duplicates : list Duplicate) :
  (forall key, Map.get key seen = firstWith key earlier) ->
  NoDup (Map.keys seen) ->
  List.length seen + List.length duplicates = List.length earlier ->
  let final := fold_left noteAuthor rest (seen, duplicates) in
  (forall key, Map.get key (fst final) = firstWith key (earlier ++ rest))
  /\ NoDup (Map.keys (fst final))
  /\ List.length (fst final) + List.length (snd final)
     = List.length (earlier ++ rest)
  /\ exists added,
       snd final = duplicates ++ added
       /\ (added = [] <->
           NoDup (map authorKey rest)
           /\ forall a, In a rest -> ~ In (authorKey a) (Map.keys seen))
       /\ forall d, In d added ->
            exists before between after,
              earlier ++ rest
              = before ++ canonical d :: between ++ alias d :: after
              /\ authorKey (canonical d) = authorKey (alias d)
              /\ forall a, In a before -> authorKey a <> authorKey (alias d).
Proof.
  revert earlier seen duplicates.
  induction rest as [| a rest IH]; intros earlier seen duplicates Hget Hnd Hlen;
    cbv zeta.
  - simpl. rewrite app_nil_r. repeat split; try assumption.
    exists []. rewrite app_nil_r. repeat split; try constructor;
      try contradiction.
  - simpl fold_left. unfold noteAuthor at 2.
    replace (earlier ++ a :: rest) with ((earlier ++ [a]) ++ rest)
      by now rewrite <- app_assoc.
    destruct (Map.get (authorKey a) seen) as [first | ] eqn:Hfirst.
    + assert (Hget' : forall key,
                 Map.get key seen = firstWith key (earlier ++ [a])).
      { intros key. rewrite firstWith_snoc, <- Hget.
        destruct (Map.get key seen) eqn:Hk; [reflexivity | ].
        destruct (String.eqb_spec (authorKey a) key) as [<- | _];
          [congruence | reflexivity]. }
      destruct (IH (earlier ++ [a]) seen
                   (duplicates ++ [ {| canonical := first; alias := a |} ])
                   Hget' Hnd)
        as [Hg [Hn [Hl [added [Hsnd [Hnil Hall]]]]]].
      { rewrite !length_app. simpl. lia. }
      split; [exact Hg | ]. split; [exact Hn | ]. split; [exact Hl | ].
      exists ({| canonical := first; alias := a |} :: added).
      split; [now rewrite Hsnd, <- app_assoc | ]. split.
      * split; [discriminate | ]. intros [_ Hfresh]. exfalso.
        apply (Hfresh a (or_introl eq_refl)).
        now apply (get_some_keys _ first).
      * intros d [<- | Hd]; [ | now apply Hall].
        cbn [canonical alias]. rewrite Hget in Hfirst.
        destruct (find_first _ _ _ Hfirst)
          as [before [between [Hsplit [Hkey Hbefore]]]].
        exists before, between, rest. split.
        -- rewrite Hsplit, <- !app_assoc. reflexivity.
        -- split; [now apply String.eqb_eq | ].
           intros b Hb Heq. specialize (Hbefore b Hb).
           apply String.eqb_neq in Hbefore. contradiction.
    + assert (Hfresh : ~ In (authorKey a) (Map.keys seen))
        by now apply get_none_keys.
      assert (Hget' : forall key,
                 Map.get key (Map.set (authorKey a) a seen)
                 = firstWith key (earlier ++ [a])).
      { intros key. rewrite get_set_any, firstWith_snoc, <- Hget.
        destruct (String.eqb_spec (authorKey a) key) as [<- | _].
        - now rewrite Hfirst.
        - destruct (Map.get key seen); reflexivity. }
      destruct (IH (earlier ++ [a]) (Map.set (authorKey a) a seen) duplicates
                   Hget' (keys_set_nodup _ _ _ Hnd))
        as [Hg [Hn [Hl [added [Hsnd [Hnil Hall]]]]]].
      { rewrite (set_fresh _ _ _ Hfresh), !length_app. simpl. lia. }
      split; [exact Hg | ]. split; [exact Hn | ]. split; [exact Hl | ].
      exists added. split; [exact Hsnd | ]. split; [ | exact Hall].
      rewrite Hnil. simpl. rewrite NoDup_cons_iff.
      split.
      * intros [Hrest Hout]. split.
        -- split; [ | exact Hrest]. intros Hin.
           apply in_map_iff in Hin. destruct Hin as [b [Hkey Hb]].
           apply (Hout b Hb). apply keys_set_in. now left.
        -- intros b [<- | Hb]; [exact Hfresh | ].
           intros Hin. apply (Hout b Hb). apply keys_set_in. now right.
      * intros [[Hnew Hrest] Hout]. split; [exact Hrest | ].
        intros b Hb Hin. apply keys_set_in in Hin.
        destruct Hin as [Heq | Hin].
        -- apply Hnew. apply in_map_iff. now exists b.
        -- apply (Hout b (or_intror Hb) Hin).
Qed.

End Duplicates.

(** X23: the duplicate detection pairs every author whose key (the part
    of the address before the at sign, in lower case) was met before with
    the first author of that key, and reports nothing else: each pair is
    an earlier and a later author of one key, no author before the earlier
    one has that key, the pairs and the distinct keys together are as many
    as the authors, and no pair is reported exactly when all keys
    differ. *)
Theorem duplicates_pair_with_first (authors : list Author) :
  (forall d, In d (findDuplicates authors) ->
     exists before between after,
       authors = before ++ canonical d :: between ++ alias d :: after
       /\ authorKey (canonical d) = authorKey (alias d)
       /\ forall a, In a before -> authorKey a <> authorKey (alias d))
  /\ List.length (findDuplicates authors) + List.length (seenAuthors authors)
     = List.length authors
  /\ NoDup (Map.keys (seenAuthors authors))
  /\ (forall key, Map.get key (seenAuthors authors) = firstWith key authors)
  /\ (findDuplicates authors = [] <-> NoDup (map authorKey authors)).
Proof.
  destruct (noteAuthor_fold authors [] [] [] (fun _ => eq_refl)
              (NoDup_nil _) eq_refl)
    as [Hget [Hnd [Hlen [added [Hsnd [Hnil Hall]]]]]].
  unfold findDuplicates, seenAuthors. simpl in *.
  split; [now rewrite Hsnd | ]. split; [lia | ].
  split; [exact Hnd | ]. split; [exact Hget | ].
  rewrite Hsnd, Hnil. split; [tauto | ]. intros Hn. split; [exact Hn | ].
  intros a _ [].
Qed.

Section AuthorKeys.

Lemma lowerChar_not_at (a : ascii) :
  Ascii.eqb (lowerChar a) "@" = Ascii.eqb a "@".
Proof.
  unfold lowerChar. cbv zeta.
  destruct ((65 <=? nat_of_ascii a)%nat && (nat_of_ascii a <=? 90)%nat) eqn:Hup;
    [ | reflexivity].
  apply andb_true_iff in Hup. destruct Hup as [H1 H2].
  apply Nat.leb_le in H1. apply Nat.leb_le in H2.
  assert (Hat : nat_of_ascii "@" = 64) by reflexivity.
  destruct (Ascii.eqb_spec a "@") as [-> | Hne].
  - rewrite Hat in H1. lia.
  - apply Ascii.eqb_neq. intros Heq.
    apply (f_equal nat_of_ascii) in Heq.
    rewrite nat_ascii_embedding, Hat in Heq by lia. lia.
Qed.

Lemma toLowerCase_app (s t : string) :
  toLowerCase (s ++ t) = (toLowerCase s ++ toLowerCase t)%string.
Proof. induction s as [| a s IH]; simpl; [reflexivity | now rewrite IH]. Qed.

Lemma noAt_lower (s : string) : noAt s = true -> noAt (toLowerCase s) = true.
Proof.
  unfold noAt. induction s as [| a s IH]; simpl; [reflexivity | ].
  intros H. apply andb_true_iff in H. destruct H as [Ha Hs].
  now rewrite lowerChar_not_at, Ha, (IH Hs).
Qed.

Lemma authorKey_at (a : Author) (local domain : string) :
  email a = (local ++ String "@" domain)%string -> noAt local = true ->
  authorKey a = toLowerCase local.
Proof.
  intros Hemail Hlocal. unfold authorKey.
  rewrite Hemail, toLowerCase_app. cbn [toLowerCase].
  change (lowerChar "@") with "@"%char.
  now rewrite (splitOn_app_sep "@" _ _ (noAt_lower _ Hlocal)).
Qed.

Lemma authorKey_plain (a : Author) :
  noAt (email a) = true -> authorKey a = toLowerCase (email a).
Proof.
  intros Hplain. unfold authorKey.
  now rewrite (splitOn_free "@" _ (noAt_lower _ Hplain)).
Qed.

End AuthorKeys.

(** X24: the key of an author is the part of the address before the first
    at sign, in lower case (the whole address when it has no at sign); so
    of two authors one after the other the second is reported as an alias
    of the first exactly when these parts agree up to letter case,
    whatever the domains and the names are. *)
Theorem same_local_part_is_alias
  (a b : Author) (la da lb db : string) :
  email a = (la ++ String "@" da)%string ->
  email b = (lb ++ String "@" db)%string ->
  noAt la = true -> noAt lb = true ->
  authorKey a = toLowerCase la
  /\ (toLowerCase la = toLowerCase lb ->
      findDuplicates [a; b] = [ {| canonical := a; alias := b |} ])
  /\ (toLowerCase la <> toLowerCase lb -> findDuplicates [a; b] = []).
Proof.
  intros Ha Hb Hla Hlb.
  pose proof (authorKey_at a la da Ha Hla) as Hka.
  pose proof (authorKey_at b lb db Hb Hlb) as Hkb.
  split; [exact Hka | ].
  unfold findDuplicates. simpl. rewrite Hka, Hkb.
  split; intros Hcase.
  - rewrite Hcase, String.eqb_refl. reflexivity.
  - apply String.eqb_neq in Hcase. rewrite Hcase. reflexivity.
Qed.

(** Two addresses of one person at two domains. *)
Lemma same_local_part_is_alias_witness :
  findDuplicates [adaFirst; adaSecond]
  = [ {| canonical := adaFirst; alias := adaSecond |} ].
Proof.
  apply (same_local_part_is_alias adaFirst adaSecond "ada" "example.com"
           "Ada" "users.example.org" eq_refl eq_refl eq_refl eq_refl).
  reflexivity.
Defined.

(** ** The table of the text report *)

Section TableFacts.

Lemma length_spaces (k : nat) : String.length (spaces k) = k.
Proof. induction k as [| k IH]; simpl; [reflexivity | now rewrite IH]. Qed.

Lemma length_padEnd (s : string) (n : nat) :
  String.length (padEnd s n) = Nat.max (String.length s) n.
Proof. unfold padEnd. rewrite length_append, length_spaces. lia. Qed.

Lemma length_padStart (s : string) (n : nat) :
  String.length (padStart s n) = Nat.max (String.length s) n.
Proof. unfold padStart. rewrite length_append, length_spaces. lia. Qed.

Lemma length_join (sep : string) (l : list string) :
  String.length (join sep l)
  = list_sum (map String.length l) + String.length sep * (List.length l - 1).
Proof.
  induction l as [| x l IH]; [simpl; lia | ].
  destruct l as [| y l]; [simpl; lia | ].
  rewrite join_cons2, !length_append, IH. simpl List.length. simpl list_sum.
  nia.
Qed.

(** A map over the indexed elements, when the element at each index gives
    what the index alone gives. *)
Lemma map_indexed_from {A B} (f : nat * A -> B) (g : nat -> B) (d : A)
  (l : list A) (k : nat) :
  (forall j, j < List.length l -> f (k + j, nth j l d) = g (k + j)) ->
  map f (combine (seq k (List.length l)) l) = map g (seq k (List.length l)).
Proof.
  revert k. induction l as [| x l IH]; intros k Hall; [reflexivity | ].
  simpl. f_equal.
  - specialize (Hall 0 ltac:(simpl; lia)). now rewrite Nat.add_0_r in Hall.
  - apply IH. intros j Hj. specialize (Hall (S j) ltac:(simpl; lia)).
    simpl in Hall. now rewrite Nat.add_succ_r in Hall.
Qed.

Lemma nth_indexed_map {A B} (f : nat * A -> B) (d : A) (db : B)
  (l : list A) (k i : nat) :
  i < List.length l ->
  nth i (map f (combine (seq k (List.length l)) l)) db = f (k + i, nth i l d).
Proof.
  revert k i. induction l as [| x l IH]; intros k i Hi; [simpl in Hi; lia | ].
  destruct i as [| i]; simpl.
  - now rewrite Nat.add_0_r.
  - rewrite IH by (simpl in Hi; lia). now rewrite Nat.add_succ_r.
Qed.

(** A column is as wide as its header and as each of its cells. *)
Lemma columnWidths_cover (headers : list string) (rows : list (list string))
  (i : nat) :
  i < List.length headers ->
  String.length (nth i headers "") <= widthAt (columnWidths headers rows) i
  /\ forall r, In r rows ->
       String.length (cellAt r i) <= widthAt (columnWidths headers rows) i.
Proof.
  intros Hi. unfold widthAt, columnWidths, indexed.
  rewrite (nth_indexed_map _ "" 0 headers 0 i Hi). cbn [fst snd Nat.add].
  split; [lia | ]. intros r Hr.
  assert (Hle : list_max (map (fun r0 => String.length (cellAt r0 i)) rows)
                <= list_max (map (fun r0 => String.length (cellAt r0 i)) rows))
    by lia.
  apply list_max_le in Hle. rewrite Forall_forall in Hle.
  specialize (Hle (String.length (cellAt r i))
                  (in_map (fun r0 => String.length (cellAt r0 i)) rows r Hr)).
  lia.
Qed.

Lemma length_columnWidths (headers : list string) (rows : list (list string)) :
  List.length (columnWidths headers rows) = List.length headers.
Proof.
  unfold columnWidths, indexed.
  now rewrite length_map, length_combine, length_seq, Nat.min_id.
Qed.

(** A line whose cells fit their columns has the width of the table. *)
Lemma length_rowLine (alignRight widths : list nat) (row : list string) :
  (forall i, i < List.length row ->
     String.length (nth i row "") <= widthAt widths i) ->
  String.length (rowLine alignRight widths row)
  = lineWidth widths (List.length row).
Proof.
  intros Hfit. unfold rowLine, lineWidth, indexed.
  rewrite length_join, map_map, length_map, length_combine, length_seq,
    Nat.min_id.
  rewrite (map_indexed_from _ (widthAt widths) "" row 0); [simpl; lia | ].
  intros j Hj. cbn [fst snd Nat.add]. specialize (Hfit j Hj).
  destruct (alignsRight alignRight j);
    rewrite ?length_padStart, ?length_padEnd; lia.
Qed.

Lemma length_headerLineOf (widths : list nat) (headers : list string) :
  (forall i, i < List.length headers ->
     String.length (nth i headers "") <= widthAt widths i) ->
  String.length (headerLineOf widths headers)
  = lineWidth widths (List.length headers).
Proof.
  intros Hfit. unfold headerLineOf, lineWidth, indexed.
  rewrite length_join, map_map, length_map, length_combine, length_seq,
    Nat.min_id.
  rewrite (map_indexed_from _ (widthAt widths) "" headers 0); [simpl; lia | ].
  intros j Hj. cbn [fst snd Nat.add]. specialize (Hfit j Hj).
  rewrite length_padEnd. lia.
Qed.

End TableFacts.

(** X25: when every row has as many cells as there are headers, the table
    is rectangular: there is one line for each row, the header line, the
    rule and every row line have the same width, which is the sum of the
    column widths and two spaces between neighbours, and no column is
    narrower than its header or than one of its cells, so nothing is cut. *)
Theorem printTable_rectangular
  (headers : list string) (rows : list (list string)) (alignRight : list nat) :
  Forall (fun row => List.length row = List.length headers) rows ->
  let table := printTable headers rows alignRight in
  let widths := columnWidths headers rows in
  List.length (rowLines table) = List.length rows
  /\ String.length (headerLine table) = lineWidth widths (List.length headers)
  /\ ruleLength table = String.length (headerLine table)
  /\ Forall (fun line => String.length line = String.length (headerLine table))
            (rowLines table)
  /\ List.length widths = List.length headers
  /\ forall i, i < List.length headers ->
       String.length (nth i headers "") <= widthAt widths i
       /\ forall row, In row rows ->
            String.length (cellAt row i) <= widthAt widths i.
Proof.
  intros Hrows. cbv zeta. unfold printTable. cbv zeta.
  cbn [headerLine ruleLength rowLines].
  assert (Hheader :
    String.length (headerLineOf (columnWidths headers rows) headers)
    = lineWidth (columnWidths headers rows) (List.length headers)).
  { apply length_headerLineOf. intros i Hi.
    exact (proj1 (columnWidths_cover headers rows i Hi)). }
  split; [apply length_map | ]. split; [exact Hheader | ].
  split; [reflexivity | ]. split.
  - rewrite Forall_forall in *. intros line Hline.
    apply in_map_iff in Hline. destruct Hline as [row [<- Hrow]].
    rewrite Hheader, <- (Hrows row Hrow). apply length_rowLine.
    intros i Hi. rewrite (Hrows row Hrow) in Hi.
    exact (proj2 (columnWidths_cover headers rows i Hi) row Hrow).
  - split; [apply length_columnWidths | ].
    intros i Hi. apply (columnWidths_cover headers rows i Hi).
Qed.

(** The table of two files: every line is 36 characters wide. *)
Lemma printTable_rectangular_witness :
  Forall (fun line => String.length line = 36) (rowLines sampleTable)
  /\ headerLine sampleTable = "Path               Size     Category".
Proof.
  destruct (printTable_rectangular
              ["Path"; "Size"; "Category"]
              [ ["vendor/lib.tar.gz"; "1.91 MB"; "archive"];
                ["docs/copy.js"; "1000 B"; "code"] ]
              [1]
              ltac:(repeat constructor))
    as [_ [_ [_ [Hlines _]]]].
  split; [exact Hlines | reflexivity].
Defined.
